(** * Environment binder of package [config]

    A shallow embedding of [config.go]: the name deriver
    [camelToUpperSnakeCase], the recursive binder [loadRecursive] and the two
    entry points [LoadFromEnvironment] and [MustLoadFromEnvironment].

    Go strings are byte sequences ([string] of 8-bit [ascii]); a [range] loop
    decodes them as UTF-8.  The pieces of the Go standard library that the
    package calls (utf8, unicode, strings, strconv, reflect, os.LookupEnv)
    are modelled in modules of their own, each next to the Go function it
    stands for.

    The binder is given twice.  On trees ([Reflect.Value]) a target is
    unfolded into the values that it reaches; this is the target when no
    two of its slices share a backing array.  In memory ([Shared]) slices
    are headers into backing arrays that several of them may share, and
    the binder writes to places.  [loadRecursive_unshared] relates the two:
    on a target without sharing the binder in memory does what the binder
    on trees does. *)

From Stdlib Require Import NArith ZArith Ascii String List Lia Bool.
From stdpp Require Import base option list strings gmap.

Local Open Scope string_scope.

(** ** unicode/utf8 *)

Module Utf8.

(** A rune is a code point.  [range] and [unicode.ToUpper] only produce
    non-negative runes, hence [N]. *)
Definition rune : Type := N.

Definition RuneError : rune := 0xFFFD%N.

Definition byteN (b : ascii) : N := N_of_ascii b.

Definition inRange (lo hi : N) (b : ascii) : bool :=
  ((lo <=? byteN b) && (byteN b <=? hi))%N.

(** Continuation bytes: [locb = 0x80], [hicb = 0xBF]. *)
Definition isCont (b : ascii) : bool := inRange 0x80 0xBF b.

(** Information about the first byte of an encoding (table [first] and
    [acceptRanges] of package utf8): plain ASCII, illegal, or the size of
    the sequence with the accepted range of its second byte. *)
Inductive lead : Type :=
| LeadASCII
| LeadIllegal
| LeadMulti (size : nat) (lo hi : N).

Definition first (b0 : ascii) : lead :=
  let x := byteN b0 in
  if (x <? 0x80)%N then LeadASCII
  else if (x <? 0xC2)%N then LeadIllegal
  else if (x <? 0xE0)%N then LeadMulti 2 0x80 0xBF
  else if (x =? 0xE0)%N then LeadMulti 3 0xA0 0xBF
  else if (x =? 0xED)%N then LeadMulti 3 0x80 0x9F
  else if (x <? 0xF0)%N then LeadMulti 3 0x80 0xBF
  else if (x =? 0xF0)%N then LeadMulti 4 0x90 0xBF
  else if (x <? 0xF4)%N then LeadMulti 4 0x80 0xBF
  else if (x =? 0xF4)%N then LeadMulti 4 0x80 0x8F
  else LeadIllegal.

Definition bits (mask : N) (b : ascii) : N := N.land (byteN b) mask.

(** [utf8.DecodeRuneInString]: the first rune of [s] and its width in
    bytes; [(RuneError, 0)] on the empty string and [(RuneError, 1)] on an
    invalid encoding. *)
Definition DecodeRuneInString (s : string) : rune * nat :=
  match s with
  | EmptyString => (RuneError, 0)
  | String s0 t0 =>
    match first s0 with
    | LeadASCII => (byteN s0, 1)
    | LeadIllegal => (RuneError, 1)
    | LeadMulti sz lo hi =>
      match t0 with
      | EmptyString => (RuneError, 1)
      | String s1 t1 =>
        if negb (inRange lo hi s1) then (RuneError, 1)
        else if (sz <=? 2)%nat then
          (N.lor (N.shiftl (bits 0x1F s0) 6) (bits 0x3F s1), 2)
        else
          match t1 with
          | EmptyString => (RuneError, 1)
          | String s2 t2 =>
            if negb (isCont s2) then (RuneError, 1)
            else if (sz <=? 3)%nat then
              (N.lor (N.shiftl (bits 0x0F s0) 12)
                 (N.lor (N.shiftl (bits 0x3F s1) 6) (bits 0x3F s2)), 3)
            else
              match t2 with
              | EmptyString => (RuneError, 1)
              | String s3 _ =>
                if negb (isCont s3) then (RuneError, 1)
                else
                  (N.lor (N.shiftl (bits 0x07 s0) 18)
                     (N.lor (N.shiftl (bits 0x3F s1) 12)
                        (N.lor (N.shiftl (bits 0x3F s2) 6) (bits 0x3F s3))), 4)
              end
          end
      end
    end
  end.

(** The iteration [for pos, char := range s]: the byte offset and the rune
    of every position where a rune starts.  [skip] counts the bytes that
    still belong to the rune decoded last. *)
Fixpoint rangeFrom (skip pos : nat) (s : string) : list (nat * rune) :=
  match s with
  | EmptyString => []
  | String _ t =>
    match skip with
    | S k => rangeFrom k (S pos) t
    | O =>
      let '(r, width) := DecodeRuneInString s in
      (pos, r) :: rangeFrom (width - 1) (S pos) t
    end
  end.

Definition rangeString (s : string) : list (nat * rune) := rangeFrom 0 0 s.

Definition byteOf (n : N) : ascii := ascii_of_N (n mod 256).

Definition contByte (n : N) : ascii := byteOf (N.lor 0x80 (N.land n 0x3F)).

(** The conversion [string(r)] of a rune ([utf8.AppendRune]); surrogates
    and values above [MaxRune] are encoded as [RuneError]. *)
Definition EncodeRune (r : rune) : string :=
  if (r <=? 0x7F)%N then String (byteOf r) ""
  else if (r <=? 0x7FF)%N then
    String (byteOf (N.lor 0xC0 (N.shiftr r 6))) (String (contByte r) "")
  else
    let three (x : N) : string :=
      String (byteOf (N.lor 0xE0 (N.shiftr x 12)))
        (String (contByte (N.shiftr x 6)) (String (contByte x) "")) in
    if ((0x10FFFF <? r) || ((0xD800 <=? r) && (r <=? 0xDFFF)))%N then three RuneError
    else if (r <=? 0xFFFF)%N then three r
    else
      String (byteOf (N.lor 0xF0 (N.shiftr r 18)))
        (String (contByte (N.shiftr r 12))
           (String (contByte (N.shiftr r 6)) (String (contByte r) ""))).

End Utf8.

(** ** unicode *)

Module Unicode.
Import Utf8.

(** The part of Go's Unicode tables above ASCII: membership in the range
    table [unicode.Upper] (for Latin-1, the [pLu] property) and the
    upper-case mapping of [unicode.CaseRanges].  They are data of the Go
    distribution, so the development is parametric in them. *)
Class CaseTables : Type := {
  upperTable : rune -> bool;
  toUpperTable : rune -> rune
}.

Section WithTables.
Context `{tables : CaseTables}.

(** [unicode.IsUpper]. *)
Definition IsUpper (r : rune) : bool :=
  if (r <=? 0x7F)%N then ((0x41 <=? r) && (r <=? 0x5A))%N
  else upperTable r.

(** [unicode.ToUpper]. *)
Definition ToUpper (r : rune) : rune :=
  if (r <=? 0x7F)%N then
    if ((0x61 <=? r) && (r <=? 0x7A))%N then (r - 0x20)%N else r
  else toUpperTable r.
End WithTables.

(** Tables without any entry above ASCII; they decide nothing on ASCII
    input and serve to evaluate the definitions on such input. *)
Definition asciiTables : CaseTables :=
  {| upperTable := fun _ => false; toUpperTable := fun r => r |}.

End Unicode.

(** ** strings *)

Module Strings.
Import Utf8.

Fixpoint mapBytes (f : ascii -> ascii) (s : string) : string :=
  match s with
  | EmptyString => EmptyString
  | String b t => String (f b) (mapBytes f t)
  end.

Fixpoint allBytes (p : ascii -> bool) (s : string) : bool :=
  match s with
  | EmptyString => true
  | String b t => p b && allBytes p t
  end.

Fixpoint concat (l : list string) : string :=
  match l with
  | [] => ""
  | s :: rest => s +:+ concat rest
  end.

Definition isLowerByte (b : ascii) : bool := inRange 0x61 0x7A b.

Definition upperByte (b : ascii) : ascii :=
  if isLowerByte b then byteOf (byteN b - 0x20) else b.

(** [strings.Map] with a mapping that never returns a negative rune. *)
Definition Map (mapping : rune -> rune) (s : string) : string :=
  concat (map (fun pc : nat * rune => EncodeRune (mapping (snd pc))) (rangeString s)).

Section WithTables.
Context `{tables : Unicode.CaseTables}.

(** [strings.ToUpper]: a byte-wise fast path for ASCII-only strings,
    [Map(unicode.ToUpper, s)] otherwise. *)
Definition ToUpper (s : string) : string :=
  if allBytes (fun b => (byteN b <? 0x80)%N) s then
    if allBytes (fun b => negb (isLowerByte b)) s then s
    else mapBytes upperByte s
  else Map Unicode.ToUpper s.
End WithTables.

End Strings.

(** ** package config: the name deriver *)

Section NameDeriver.
Context `{tables : Unicode.CaseTables}.
Import Utf8.

(** One iteration of the loop of [camelToUpperSnakeCase] on the state
    [(s, upperSequence)]. *)
Definition camelStep (st : string * bool) (pc : nat * rune) : string * bool :=
  let '(s, upperSequence) := st in
  let '(pos, char) := pc in
  let isUpper := Unicode.IsUpper char in
  let s := if negb (pos =? 0)%nat && isUpper && negb upperSequence
           then s +:+ "_" else s in
  if isUpper then (s +:+ EncodeRune char, true)
  else (s +:+ EncodeRune (Unicode.ToUpper char), false).

Definition camelToUpperSnakeCase (in_ prefix : string) : string :=
  let p := Strings.ToUpper prefix in
  if decide (in_ = "") then p
  else
    let '(s, _) := fold_left camelStep (rangeString in_) ("", false) in
    if decide (p = "") then s
    else p +:+ "_" +:+ s.

End NameDeriver.


(** ** strconv *)

Module Strconv.
Import Utf8.

(** [strconv.ErrSyntax] and [strconv.ErrRange]. *)
Inductive ParseErr : Type := ErrSyntax | ErrRange.

(** [*strconv.NumError]. *)
Record NumError : Type := mkNumError {
  Func : string;
  Num : string;
  Err : ParseErr
}.

Definition syntaxError (fn str : string) : NumError := mkNumError fn str ErrSyntax.
Definition rangeError (fn str : string) : NumError := mkNumError fn str ErrRange.

(** [strconv.IntSize] of a 64-bit platform. *)
Definition IntSize : Z := 64.

Definition byteZ (b : ascii) : Z := Z.of_N (byteN b).

(** The digit loop of the fast path of [Atoi]: [ch -= '0'] is byte
    arithmetic, so a byte below ['0'] wraps around to a value above 9. *)
Fixpoint atoiDigits (n : Z) (s : string) : option Z :=
  match s with
  | EmptyString => Some n
  | String ch t =>
    let ch := ((byteZ ch - 48) mod 256)%Z in
    if (ch >? 9)%Z then None else atoiDigits (n * 10 + ch)%Z t
  end.

Definition maxUint64 : Z := (2 ^ 64 - 1)%Z.

(** The digit loop of [ParseUint(s, 10, 0)]: the first byte that is not a
    decimal digit is a syntax error, the first overflow a range error,
    whichever comes first. *)
Fixpoint parseUintDigits (n : Z) (s : string) : Z + ParseErr :=
  match s with
  | EmptyString => inl n
  | String c t =>
    if ((48 <=? byteZ c) && (byteZ c <=? 57))%Z then
      let d := (byteZ c - 48)%Z in
      if (n >=? maxUint64 / 10 + 1)%Z then inr ErrRange
      else
        let n1 := (n * 10 + d)%Z in
        if (n1 >? maxUint64)%Z then inr ErrRange
        else parseUintDigits n1 t
    else inr ErrSyntax
  end.

Definition ParseUint10 (s : string) : Z + ParseErr :=
  match s with
  | EmptyString => inr ErrSyntax
  | _ => parseUintDigits 0 s
  end.

Definition isSign (b : ascii) : bool := ((byteZ b =? 43) || (byteZ b =? 45))%Z.
Definition isMinus (b : ascii) : bool := (byteZ b =? 45)%Z.

(** [ParseInt(s, 10, 0)], up to the name of the failing function. *)
Definition ParseInt10 (s : string) : Z + ParseErr :=
  match s with
  | EmptyString => inr ErrSyntax
  | String c t =>
    let neg := isMinus c in
    let digits := if isSign c then t else s in
    match ParseUint10 digits with
    | inr ErrSyntax => inr ErrSyntax
    | res =>
      let un := match res with inl un => un | inr _ => maxUint64 end in
      let cutoff := (2 ^ (IntSize - 1))%Z in
      if negb neg && (un >=? cutoff)%Z then inr ErrRange
      else if neg && (un >? cutoff)%Z then inr ErrRange
      else inl (if neg then (- un)%Z else un)
    end
  end.

(** [strconv.Atoi]. *)
Definition Atoi (s : string) : Z + NumError :=
  let sLen := String.length s in
  if ((0 <? sLen) && (sLen <? 19))%nat then
    match s with
    | EmptyString => inr (syntaxError "Atoi" s)
    | String c t =>
      let digits := if isSign c then t else s in
      if isSign c && (String.length digits <? 1)%nat then inr (syntaxError "Atoi" s)
      else
        match atoiDigits 0 digits with
        | None => inr (syntaxError "Atoi" s)
        | Some n => inl (if isMinus c then (- n)%Z else n)
        end
    end
  else
    match ParseInt10 s with
    | inl i64 => inl i64
    | inr e => inr (mkNumError "Atoi" s e)
    end.

(** [strconv.ParseBool]. *)
Definition ParseBool (str : string) : bool + NumError :=
  if bool_decide (str ∈ ["1"; "t"; "T"; "true"; "TRUE"; "True"]) then inl true
  else if bool_decide (str ∈ ["0"; "f"; "F"; "false"; "FALSE"; "False"]) then inl false
  else inr (syntaxError "ParseBool" str).

End Strconv.

(** ** reflect *)

Module Reflect.

(** [reflect.Kind]. *)
Inductive Kind : Type :=
| Invalid | Bool | Int | Int8 | Int16 | Int32 | Int64
| Uint | Uint8 | Uint16 | Uint32 | Uint64 | Uintptr
| Float32 | Float64 | Complex64 | Complex128
| Array | Chan | Func | Interface | Map | Pointer | Slice
| String | Struct | UnsafePointer.

(** [Kind.String], the text that the verb [%s] prints. *)
Definition Kind_String (k : Kind) : string :=
  match k with
  | Invalid => "invalid" | Bool => "bool" | Int => "int" | Int8 => "int8"
  | Int16 => "int16" | Int32 => "int32" | Int64 => "int64"
  | Uint => "uint" | Uint8 => "uint8" | Uint16 => "uint16"
  | Uint32 => "uint32" | Uint64 => "uint64" | Uintptr => "uintptr"
  | Float32 => "float32" | Float64 => "float64"
  | Complex64 => "complex64" | Complex128 => "complex128"
  | Array => "array" | Chan => "chan" | Func => "func"
  | Interface => "interface" | Map => "map" | Pointer => "ptr"
  | Slice => "slice" | String => "string" | Struct => "struct"
  | UnsafePointer => "unsafe.Pointer"
  end.

(** The five signed integer kinds. *)
Inductive IntKind : Type := KInt | KInt8 | KInt16 | KInt32 | KInt64.

Definition intBits (k : IntKind) : Z :=
  match k with
  | KInt => Strconv.IntSize | KInt8 => 8 | KInt16 => 16 | KInt32 => 32 | KInt64 => 64
  end.

(** The kinds whose values the binder never looks into. *)
Inductive OtherKind : Type :=
| KInvalid | KUint | KUint8 | KUint16 | KUint32 | KUint64 | KUintptr
| KFloat32 | KFloat64 | KComplex64 | KComplex128
| KChan | KFunc | KInterface | KMap | KPointer | KUnsafePointer.

Definition kindOfInt (k : IntKind) : Kind :=
  match k with
  | KInt => Int | KInt8 => Int8 | KInt16 => Int16 | KInt32 => Int32 | KInt64 => Int64
  end.

Definition kindOfOther (k : OtherKind) : Kind :=
  match k with
  | KInvalid => Invalid | KUint => Uint | KUint8 => Uint8 | KUint16 => Uint16
  | KUint32 => Uint32 | KUint64 => Uint64 | KUintptr => Uintptr
  | KFloat32 => Float32 | KFloat64 => Float64
  | KComplex64 => Complex64 | KComplex128 => Complex128
  | KChan => Chan | KFunc => Func | KInterface => Interface | KMap => Map
  | KPointer => Pointer | KUnsafePointer => UnsafePointer
  end.

(** What a [reflect.Value] of the target gives access to.  A struct lists
    its fields in declaration order, each with its name, whether it can be
    set ([CanSet]: false for unexported fields) and its value; arrays and
    slices list their elements; [VOther] stands for a value of any other
    kind (a nil target pointer dereferences to [KInvalid]).  A slice lists
    the elements that it holds: a [Value] is the target unfolded into a
    tree, which is what the target is when no two of its slices share a
    backing array.  Targets with sharing are in [Shared]. *)
Local Unset Elimination Schemes.

Inductive Value : Type :=
| VBool (b : bool)
| VInt (k : IntKind) (n : Z)
| VString (s : string)
| VStruct (fields : list Field)
| VArray (elems : list Value)
| VSlice (elems : list Value)
| VOther (k : OtherKind)
with Field : Type :=
| mkField (Name : string) (CanSet : bool) (val : Value).

Local Set Elimination Schemes.

Definition Name (f : Field) : string := let '(mkField n _ _) := f in n.
Definition CanSet (f : Field) : bool := let '(mkField _ c _) := f in c.
Definition fieldValue (f : Field) : Value := let '(mkField _ _ v) := f in v.

(** [Value.Kind]. *)
Definition Kind_of (val : Value) : Kind :=
  match val with
  | VBool _ => Bool
  | VInt k _ => kindOfInt k
  | VString _ => String
  | VStruct _ => Struct
  | VArray _ => Array
  | VSlice _ => Slice
  | VOther k => kindOfOther k
  end.

(** The conversion to a signed integer of [bits] bits (two's complement
    wrap-around). *)
Definition wrap (bits x : Z) : Z :=
  let m := (x mod 2 ^ bits)%Z in
  if (m <? 2 ^ (bits - 1))%Z then m else (m - 2 ^ bits)%Z.

(** [Value.SetInt] stores [x] converted to the kind of the value:
    [int8(x)], [int16(x)], ... *)
Definition SetInt (k : IntKind) (x : Z) : Value := VInt k (wrap (intBits k) x).

End Reflect.

(** ** package config: the recursive binder *)

(** The three errors that [loadRecursive] builds with [fmt.Errorf], one
    constructor for each call, with the arguments of the call. *)
Inductive Error : Type :=
| IntError (environmentKey : string) (err : Strconv.NumError)
| BoolError (environmentKey : string) (err : Strconv.NumError)
| UnsupportedError (environmentKey : string) (kind : Reflect.Kind).

(** The text of the error up to the verb [%w] (the whole text when there is
    no such verb). *)
Definition Error_text (e : Error) : string :=
  match e with
  | IntError k _ => "failed to parse environment key: " +:+ k +:+ " to int: "
  | BoolError k _ => "failed to parse environment key: " +:+ k +:+ " to bool: "
  | UnsupportedError k kind =>
    "failed to parse key: " +:+ k +:+ ", unsupported field type: " +:+ Reflect.Kind_String kind
  end.

(** [errors.Unwrap]: the error wrapped with [%w]. *)
Definition Unwrap (e : Error) : option Strconv.NumError :=
  match e with
  | IntError _ err | BoolError _ err => Some err
  | UnsupportedError _ _ => None
  end.

(** How a call that returns no value ends. *)
Inductive Outcome : Type :=
| Returns
| Panics (err : Error).

Section Binder.
Context `{tables : Unicode.CaseTables}.
Import Reflect.

(** The process environment, read through [os.LookupEnv]: a finite map
    from names to values. *)
Variable env : gmap string string.

Definition LookupEnv (key : string) : option string := env !! key.

(** The block under the comment "leaf nodes". *)
Definition loadLeaf (val : Value) (environmentKey : string) : Value * option Error :=
  match LookupEnv environmentKey with
  | Some environmentValue =>
    match val with
    | VString _ => (VString environmentValue, None)
    | VInt k _ =>
      match Strconv.Atoi environmentValue with
      | inr err => (val, Some (IntError environmentKey err))
      | inl n => (SetInt k n, None)
      end
    | VBool _ =>
      match Strconv.ParseBool environmentValue with
      | inr err => (val, Some (BoolError environmentKey err))
      | inl b => (VBool b, None)
      end
    | _ => (val, Some (UnsupportedError environmentKey (Kind_of val)))
    end
  | None => (val, None)
  end.

(** The loop over the fields of a struct, for a given way [rec] to load a
    field: fields that cannot be set are skipped, the first error ends the
    loop. *)
Definition loadFields (rec : Value -> string -> Value * option Error)
    (environmentKey : string) : list Field -> list Field * option Error :=
  fix loop (fields : list Field) : list Field * option Error :=
    match fields with
    | [] => ([], None)
    | mkField fieldName canSet field as f :: rest =>
      if negb canSet then
        let '(rest', err) := loop rest in (f :: rest', err)
      else
        match rec field (camelToUpperSnakeCase fieldName environmentKey) with
        | (field', Some err) => (mkField fieldName canSet field' :: rest, Some err)
        | (field', None) =>
          let '(rest', err) := loop rest in
          (mkField fieldName canSet field' :: rest', err)
        end
    end.

(** The loop over the elements of an array or a slice. *)
Definition loadElems (rec : Value -> string -> Value * option Error)
    (environmentKey : string) : list Value -> list Value * option Error :=
  fix loop (elems : list Value) : list Value * option Error :=
    match elems with
    | [] => ([], None)
    | elem :: rest =>
      match rec elem environmentKey with
      | (elem', Some err) => (elem' :: rest, Some err)
      | (elem', None) =>
        let '(rest', err) := loop rest in (elem' :: rest', err)
      end
    end.

(** [loadRecursive] returns the value as the call leaves it together with
    the error, if any.  The kind of a value never changes, so the three
    blocks of the function are written as the cases of one match. *)
Fixpoint loadRecursive (val : Value) (environmentKey : string) {struct val}
    : Value * option Error :=
  match val with
  | VStruct fields =>
    match loadFields loadRecursive environmentKey fields with
    | (fields', Some err) => (VStruct fields', Some err)
    | (fields', None) => loadLeaf (VStruct fields') environmentKey
    end
  | VArray elems =>
    match loadElems loadRecursive environmentKey elems with
    | (elems', Some err) => (VArray elems', Some err)
    | (elems', None) => loadLeaf (VArray elems') environmentKey
    end
  | VSlice elems =>
    match loadElems loadRecursive environmentKey elems with
    | (elems', Some err) => (VSlice elems', Some err)
    | (elems', None) => loadLeaf (VSlice elems') environmentKey
    end
  | _ => loadLeaf val environmentKey
  end.

(** The two loops of [loadRecursive] without the block that follows
    them: what the call has done when it reaches the comment
    "leaf nodes", or the error with which a loop has returned. *)
Definition loadChildren (val : Value) (environmentKey : string)
    : Value * option Error :=
  match val with
  | VStruct fields =>
    let '(fields', err) := loadFields loadRecursive environmentKey fields in
    (VStruct fields', err)
  | VArray elems =>
    let '(elems', err) := loadElems loadRecursive environmentKey elems in
    (VArray elems', err)
  | VSlice elems =>
    let '(elems', err) := loadElems loadRecursive environmentKey elems in
    (VSlice elems', err)
  | _ => (val, None)
  end.

(** [LoadFromEnvironment(pt, prefix)], for the value [target] that [pt]
    points to. *)
Definition LoadFromEnvironment (target : Value) (prefix : string)
    : Value * option Error :=
  let '(target', err) := loadRecursive target prefix in
  match err with
  | Some err => (target', Some err)
  | None => (target', None)
  end.

(** [MustLoadFromEnvironment(pt, prefix)]. *)
Definition MustLoadFromEnvironment (target : Value) (prefix : string)
    : Value * Outcome :=
  let '(target', err) := loadRecursive target prefix in
  match err with
  | Some err => (target', Panics err)
  | None => (target', Returns)
  end.

End Binder.

(** ** Notions used to state the properties *)

Section Notions.
Context `{tables : Unicode.CaseTables}.
Import Utf8 Reflect.

(** Struct, array and slice nodes; every other node is a leaf. *)
Definition isComposite (val : Value) : bool :=
  match val with
  | VStruct _ | VArray _ | VSlice _ => true
  | _ => false
  end.

(** The leaves whose kind the switch of [loadRecursive] handles. *)
Definition isSupported (val : Value) : bool :=
  match val with
  | VString _ | VInt _ _ | VBool _ => true
  | _ => false
  end.

(** The environment keys of all the nodes of a target: the key of the
    node itself and, with the keys that [loadRecursive] passes down, the
    keys of the fields that can be set and of the elements. *)
Definition fieldKeys (rec : Value -> string -> list string)
    (environmentKey : string) : list Field -> list string :=
  fix loop (fields : list Field) : list string :=
    match fields with
    | [] => []
    | mkField fieldName canSet field :: rest =>
      ((if canSet
        then rec field (camelToUpperSnakeCase fieldName environmentKey)
        else []) ++ loop rest)%list
    end.

Definition elemKeys (rec : Value -> string -> list string)
    (environmentKey : string) : list Value -> list string :=
  fix loop (elems : list Value) : list string :=
    match elems with
    | [] => []
    | elem :: rest => (rec elem environmentKey ++ loop rest)%list
    end.

Fixpoint nodeKeys (val : Value) (environmentKey : string) {struct val} : list string :=
  match val with
  | VStruct fields => (fieldKeys nodeKeys environmentKey fields ++ [environmentKey])%list
  | VArray elems | VSlice elems =>
    (elemKeys nodeKeys environmentKey elems ++ [environmentKey])%list
  | _ => [environmentKey]
  end.

(** A struct, an array or a slice with every field that can be set and
    every element replaced by what [loadRecursive] leaves of it, at the key
    that the loops pass down. *)
Definition loadedField (env : gmap string string) (environmentKey : string)
    (f : Field) : Field :=
  let '(mkField fieldName canSet field) := f in
  if canSet
  then mkField fieldName canSet
         (loadRecursive env field (camelToUpperSnakeCase fieldName environmentKey)).1
  else f.

Definition childrenLoaded (env : gmap string string) (val : Value)
    (environmentKey : string) : Value :=
  match val with
  | VStruct fields => VStruct (map (loadedField env environmentKey) fields)
  | VArray elems => VArray (map (fun elem => (loadRecursive env elem environmentKey).1) elems)
  | VSlice elems => VSlice (map (fun elem => (loadRecursive env elem environmentKey).1) elems)
  | _ => val
  end.

(** No field that can be set and no element makes [loadRecursive] fail. *)
Definition childrenSucceed (env : gmap string string) (val : Value)
    (environmentKey : string) : Prop :=
  match val with
  | VStruct fields =>
    Forall (fun f => let '(mkField fieldName canSet field) := f in
                     canSet = true ->
                     (loadRecursive env field
                        (camelToUpperSnakeCase fieldName environmentKey)).2 = None)
           fields
  | VArray elems | VSlice elems =>
    Forall (fun elem => (loadRecursive env elem environmentKey).2 = None) elems
  | _ => True
  end.

(** The error of the first field that can be set, or of the first
    element, on which [loadRecursive] fails, if there is one. *)
Definition firstChildError (env : gmap string string) (val : Value)
    (environmentKey : string) : option Error :=
  match val with
  | VStruct fields =>
    head (omap (fun f => let '(mkField fieldName canSet field) := f in
                         if canSet
                         then (loadRecursive env field
                                 (camelToUpperSnakeCase fieldName environmentKey)).2
                         else None)
               fields)
  | VArray elems | VSlice elems =>
    head (omap (fun elem => (loadRecursive env elem environmentKey).2) elems)
  | _ => None
  end.

(** None of the keys is in the environment. *)
Definition absent (env : gmap string string) (keys : list string) : Prop :=
  forall k : string, k ∈ keys -> env !! k = None.

(** *** The name deriver in the words of its description

    A separator goes before a character exactly when the character is
    upper case and the one before it exists and is not.  Every character
    is put in upper case: an upper-case character stays, any other is
    mapped by [unicode.ToUpper]. *)
Definition isTransition (previous : option rune) (c : rune) : bool :=
  match previous with
  | None => false
  | Some p => negb (Unicode.IsUpper p) && Unicode.IsUpper c
  end.

Definition upperCased (c : rune) : string :=
  EncodeRune (if Unicode.IsUpper c then c else Unicode.ToUpper c).

Fixpoint derivedName (previous : option rune) (chars : list rune) : string :=
  match chars with
  | [] => ""
  | c :: rest =>
    (if isTransition previous c then "_" else "")
      +:+ upperCased c +:+ derivedName (Some c) rest
  end.

Definition derive (fieldOrSegmentName existingPrefix : string) : string :=
  if decide (fieldOrSegmentName = "") then Strings.ToUpper existingPrefix
  else
    let name := derivedName None (map snd (rangeString fieldOrSegmentName)) in
    if decide (existingPrefix = "") then name
    else Strings.ToUpper existingPrefix +:+ "_" +:+ name.

End Notions.

(** *** A signed decimal numeral, read digit by digit *)

Module Decimal.
Import Strconv.

Definition isDigit (c : ascii) : bool := ((48 <=? byteZ c) && (byteZ c <=? 57))%Z.

Fixpoint digitsValue (acc : Z) (s : string) : option Z :=
  match s with
  | EmptyString => Some acc
  | String c t =>
    if isDigit c then digitsValue (acc * 10 + (byteZ c - 48))%Z t else None
  end.

(** An optional sign followed by at least one decimal digit. *)
Definition signedValue (s : string) : option Z :=
  match s with
  | EmptyString => None
  | String c t =>
    match (if isSign c then t else s) with
    | EmptyString => None
    | digits =>
      n ← digitsValue 0 digits;
      Some (if isMinus c then (- n)%Z else n)
    end
  end.

(** The weight of the digit before a numeral [s]. *)
Definition pow10 (s : string) : Z := (10 ^ Z.of_nat (String.length s))%Z.

(** The values of the type [int]. *)
Definition fitsInt (n : Z) : Prop :=
  (- 2 ^ (IntSize - 1) <= n < 2 ^ (IntSize - 1))%Z.

#[global] Instance fitsInt_dec (n : Z) : Decision (fitsInt n).
Proof. unfold fitsInt. apply _. Defined.

End Decimal.

(** ** Further notions *)

Section MoreNotions.
Import Utf8 Reflect.

(** The environment key that an error reports (the argument of the verb
    [%s] that follows "key: "). *)
Definition errorKey (e : Error) : string :=
  match e with
  | IntError k _ | BoolError k _ | UnsupportedError k _ => k
  end.

(** Two values of the same type that differ at most in what the leaves
    below fields that can be set hold: the same kinds, the same field
    names and [CanSet] flags, the same numbers of elements, and equal
    values in the fields that cannot be set. *)
Local Unset Elimination Schemes.

Inductive SameShape : Value -> Value -> Prop :=
| SameBool (b b' : bool) : SameShape (VBool b) (VBool b')
| SameInt (k : IntKind) (n n' : Z) : SameShape (VInt k n) (VInt k n')
| SameString (s s' : string) : SameShape (VString s) (VString s')
| SameStruct (fields fields' : list Field) :
    Forall2 SameField fields fields' -> SameShape (VStruct fields) (VStruct fields')
| SameArray (elems elems' : list Value) :
    Forall2 SameShape elems elems' -> SameShape (VArray elems) (VArray elems')
| SameSlice (elems elems' : list Value) :
    Forall2 SameShape elems elems' -> SameShape (VSlice elems) (VSlice elems')
| SameOther (k : OtherKind) : SameShape (VOther k) (VOther k)
with SameField : Field -> Field -> Prop :=
| SameSettable (fieldName : string) (field field' : Value) :
    SameShape field field' ->
    SameField (mkField fieldName true field) (mkField fieldName true field')
| SameUnsettable (fieldName : string) (field : Value) :
    SameField (mkField fieldName false field) (mkField fieldName false field).

Local Set Elimination Schemes.

(** Every integer leaf holds a value of its own kind: an [int8] leaf a
    number from -128 to 127, and so on. *)
Fixpoint intsInRange (val : Value) : bool :=
  match val with
  | VInt k n => ((- 2 ^ (intBits k - 1) <=? n) && (n <? 2 ^ (intBits k - 1)))%Z
  | VStruct fields => forallb (fun f => let '(mkField _ _ field) := f in intsInRange field) fields
  | VArray elems | VSlice elems => forallb intsInRange elems
  | _ => true
  end.

(** Strings of ASCII bytes, and strings without a lower-case ASCII
    letter. *)
Definition isASCII (s : string) : bool :=
  Strings.allBytes (fun b => (byteN b <? 0x80)%N) s.

Definition noLower (s : string) : bool :=
  Strings.allBytes (fun b => negb (Strings.isLowerByte b)) s.

Definition isUpperByte (b : ascii) : bool := inRange 0x41 0x5A b.

(** The names of the fields that can be set, at every depth, are made of
    ASCII bytes. *)
Fixpoint namesASCII (val : Value) : bool :=
  match val with
  | VStruct fields =>
    forallb (fun f => let '(mkField fieldName canSet field) := f in
                      negb canSet || (isASCII fieldName && namesASCII field)) fields
  | VArray elems | VSlice elems => forallb namesASCII elems
  | _ => true
  end.

(** The key of the error is one of the keys and is in the environment. *)
Definition reportedIn (env : gmap string string) (err : Error) (keys : list string) : Prop :=
  errorKey err ∈ keys /\ is_Some (env !! errorKey err).

(** The two environments agree on the keys. *)
Definition agree (env env' : gmap string string) (keys : list string) : Prop :=
  forall k : string, k ∈ keys -> env !! k = env' !! k.

End MoreNotions.

(** ** The binder on a memory in which slices share backing arrays

    A [reflect.Value] that can be set stands for a place in memory, and
    [loadRecursive] writes to the places of the leaves.  A slice is a
    header: a backing array, the offset of its first element in it and its
    length.  Two headers may name the same backing array, and what
    [loadRecursive] sets through one of them shows through the other.  The
    backing arrays live in a memory, a list of arrays addressed by their
    position; structs and arrays are held in place, as Go holds them, and
    the variable that the target pointer points to is an element of such an
    array too.  (A slice of an array that is itself held in place in a
    struct is not represented.) *)

Module Shared.
Import Reflect.

Local Unset Elimination Schemes.

Inductive MValue : Type :=
| MBool (b : bool)
| MInt (k : IntKind) (n : Z)
| MString (s : string)
| MStruct (fields : list MField)
| MArray (elems : list MValue)
| MSlice (array low len : nat)
| MOther (k : OtherKind)
with MField : Type :=
| mkMField (Name : string) (CanSet : bool) (val : MValue).

Local Set Elimination Schemes.

Definition Memory : Type := list (list MValue).

(** A place: an element of a backing array, or what is reached from it
    through fields of structs and elements of arrays held in place, by
    their positions. *)
Record Place : Type := mkPlace { array : nat; index : nat; path : list nat }.

(** [Value.Kind]. *)
Definition Kind_of (val : MValue) : Kind :=
  match val with
  | MBool _ => Bool
  | MInt k _ => kindOfInt k
  | MString _ => String
  | MStruct _ => Struct
  | MArray _ => Array
  | MSlice _ _ _ => Slice
  | MOther k => kindOfOther k
  end.

(** What [val] holds at the end of [path]. *)
Fixpoint sub (val : MValue) (path : list nat) {struct path} : option MValue :=
  match path with
  | [] => Some val
  | i :: rest =>
    match val with
    | MStruct fields =>
      f ← fields !! i; let '(mkMField _ _ field) := f in sub field rest
    | MArray elems => elem ← elems !! i; sub elem rest
    | _ => None
    end
  end.

(** [val] with [new] at the end of [path]. *)
Fixpoint set (val : MValue) (path : list nat) (new : MValue) {struct path} : MValue :=
  match path with
  | [] => new
  | i :: rest =>
    match val with
    | MStruct fields =>
      MStruct (alter (fun f => let '(mkMField fieldName canSet field) := f in
                               mkMField fieldName canSet (set field rest new)) i fields)
    | MArray elems => MArray (alter (fun elem => set elem rest new) i elems)
    | _ => val
    end
  end.

(** Reading a place and writing to it. *)
Definition readAt (mem : Memory) (place : Place) : option MValue :=
  elems ← mem !! array place; elem ← elems !! index place; sub elem (path place).

Definition writeAt (mem : Memory) (place : Place) (new : MValue) : Memory :=
  alter (alter (fun elem => set elem (path place) new) (index place)) (array place) mem.

(** [Value.Field(i)] of a struct at [place]. *)
Definition FieldAt (place : Place) (i : nat) : Place :=
  mkPlace (array place) (index place) (path place ++ [i]).

(** [Value.Index(j)] of the array or the slice [val] at [place]: element
    [j] of an array is held in place, element [j] of a slice is element
    [low + j] of its backing array. *)
Definition IndexAt (val : MValue) (place : Place) (j : nat) : Place :=
  match val with
  | MSlice array low _ => mkPlace array (low + j) []
  | _ => FieldAt place j
  end.

(** [Value.Len]. *)
Definition Len (val : MValue) : nat :=
  match val with
  | MArray elems => length elems
  | MSlice _ _ len => len
  | _ => 0
  end.

Section Binder.
Context `{tables : Unicode.CaseTables}.
Variable env : gmap string string.

(** The block under the comment "leaf nodes", for the value [val] that
    is at [place]. *)
Definition loadLeaf (mem : Memory) (place : Place) (val : MValue)
    (environmentKey : string) : Memory * option Error :=
  match LookupEnv env environmentKey with
  | Some environmentValue =>
    match val with
    | MString _ => (writeAt mem place (MString environmentValue), None)
    | MInt k _ =>
      match Strconv.Atoi environmentValue with
      | inr err => (mem, Some (IntError environmentKey err))
      | inl n => (writeAt mem place (MInt k (wrap (intBits k) n)), None)
      end
    | MBool _ =>
      match Strconv.ParseBool environmentValue with
      | inr err => (mem, Some (BoolError environmentKey err))
      | inl b => (writeAt mem place (MBool b), None)
      end
    | _ => (mem, Some (UnsupportedError environmentKey (Kind_of val)))
    end
  | None => (mem, None)
  end.

(** The loop over the fields of the struct at [place], from field [i] on,
    [fields] being the fields from there on. *)
Definition loadFields (rec : Memory -> Place -> string -> option (Memory * option Error))
    (environmentKey : string) (place : Place)
    : Memory -> nat -> list MField -> option (Memory * option Error) :=
  fix loop (mem : Memory) (i : nat) (fields : list MField) {struct fields}
      : option (Memory * option Error) :=
    match fields with
    | [] => Some (mem, None)
    | mkMField fieldName canSet _ :: rest =>
      if negb canSet then loop mem (S i) rest
      else
        '(mem1, err) ← rec mem (FieldAt place i)
                         (camelToUpperSnakeCase fieldName environmentKey);
        match err with
        | Some err => Some (mem1, Some err)
        | None => loop mem1 (S i) rest
        end
    end.

(** The loop over the elements of the array or the slice [val] at
    [place], from element [j] on, with [todo] elements left. *)
Definition loadElems (rec : Memory -> Place -> string -> option (Memory * option Error))
    (environmentKey : string) (val : MValue) (place : Place)
    : Memory -> nat -> nat -> option (Memory * option Error) :=
  fix loop (mem : Memory) (j todo : nat) {struct todo} : option (Memory * option Error) :=
    match todo with
    | O => Some (mem, None)
    | S todo' =>
      '(mem1, err) ← rec mem (IndexAt val place j) environmentKey;
      match err with
      | Some err => Some (mem1, Some err)
      | None => loop mem1 (S j) todo'
      end
    end.

(** [loadRecursive] on the value at [place], for calls nested at most
    [depth] deep.  It gives the memory as the call leaves it and the error,
    if any.  A call that would nest deeper gives nothing: on a target that
    reaches itself through a slice the Go function does not return.
    Nothing is given either for a place that is not in the memory, which is
    not a state of a Go program. *)
Fixpoint loadRecursive (depth : nat) (mem : Memory) (place : Place)
    (environmentKey : string) : option (Memory * option Error) :=
  match depth with
  | O => None
  | S depth =>
    val ← readAt mem place;
    '(mem1, err) ← match val with
                   | MStruct fields =>
                     loadFields (loadRecursive depth) environmentKey place mem 0 fields
                   | MArray _ | MSlice _ _ _ =>
                     loadElems (loadRecursive depth) environmentKey val place mem 0 (Len val)
                   | _ => Some (mem, None)
                   end;
    match err with
    | Some err => Some (mem1, Some err)
    | None => Some (loadLeaf mem1 place val environmentKey)
    end
  end.

(** [LoadFromEnvironment(pt, prefix)], for the place [pt] that the
    pointer points to. *)
Definition LoadFromEnvironment (depth : nat) (mem : Memory) (pt : Place)
    (prefix : string) : option (Memory * option Error) :=
  '(mem', err) ← loadRecursive depth mem pt prefix;
  match err with
  | Some err => Some (mem', Some err)
  | None => Some (mem', None)
  end.

End Binder.

(** *** Targets without sharing

    The nesting of the calls of [loadRecursive] on a value. *)
Definition fieldsHeight (rec : Value -> nat) : list Field -> nat :=
  fix loop (fields : list Field) : nat :=
    match fields with
    | [] => 0
    | mkField _ _ field :: rest => Nat.max (rec field) (loop rest)
    end.

Definition elemsHeight (rec : Value -> nat) : list Value -> nat :=
  fix loop (elems : list Value) : nat :=
    match elems with
    | [] => 0
    | elem :: rest => Nat.max (rec elem) (loop rest)
    end.

Fixpoint height (val : Value) : nat :=
  match val with
  | VStruct fields => S (fieldsHeight height fields)
  | VArray elems | VSlice elems => S (elemsHeight height elems)
  | _ => 0
  end.

(** [Unshared mem mval val owned]: in the memory [mem], every slice
    reached from [mval] lies in a backing array of its own, these backing
    arrays are the arrays [owned], and [mval] with the elements of its
    slices read from them is the tree [val]. *)
Inductive Unshared (mem : Memory) : MValue -> Value -> gset nat -> Prop :=
| Unshared_bool (b : bool) : Unshared mem (MBool b) (VBool b) ∅
| Unshared_int (k : IntKind) (n : Z) : Unshared mem (MInt k n) (VInt k n) ∅
| Unshared_string (s : string) : Unshared mem (MString s) (VString s) ∅
| Unshared_other (k : OtherKind) : Unshared mem (MOther k) (VOther k) ∅
| Unshared_struct (mfields : list MField) (fields : list Field) (owned : gset nat) :
    UnsharedFields mem mfields fields owned ->
    Unshared mem (MStruct mfields) (VStruct fields) owned
| Unshared_array (melems : list MValue) (elems : list Value) (owned : gset nat) :
    UnsharedElems mem melems elems owned ->
    Unshared mem (MArray melems) (VArray elems) owned
| Unshared_slice (array : nat) (below window above : list MValue)
    (elems : list Value) (owned : gset nat) :
    mem !! array = Some (below ++ window ++ above)%list ->
    UnsharedElems mem window elems owned ->
    array ∉ owned ->
    Unshared mem (MSlice array (length below) (length window)) (VSlice elems)
      ({[ array ]} ∪ owned)
with UnsharedFields (mem : Memory) : list MField -> list Field -> gset nat -> Prop :=
| UnsharedFields_nil : UnsharedFields mem [] [] ∅
| UnsharedFields_cons (fieldName : string) (canSet : bool) (mfield : MValue)
    (field : Value) (mrest : list MField) (rest : list Field) (owned owned' : gset nat) :
    Unshared mem mfield field owned ->
    UnsharedFields mem mrest rest owned' ->
    owned ## owned' ->
    UnsharedFields mem (mkMField fieldName canSet mfield :: mrest)
      (mkField fieldName canSet field :: rest) (owned ∪ owned')
with UnsharedElems (mem : Memory) : list MValue -> list Value -> gset nat -> Prop :=
| UnsharedElems_nil : UnsharedElems mem [] [] ∅
| UnsharedElems_cons (melem : MValue) (elem : Value) (mrest : list MValue)
    (rest : list Value) (owned owned' : gset nat) :
    Unshared mem melem elem owned ->
    UnsharedElems mem mrest rest owned' ->
    owned ## owned' ->
    UnsharedElems mem (melem :: mrest) (elem :: rest) (owned ∪ owned').

Scheme Unshared_mut := Minimality for Unshared Sort Prop
  with UnsharedFields_mut := Minimality for UnsharedFields Sort Prop
  with UnsharedElems_mut := Minimality for UnsharedElems Sort Prop.

Combined Scheme Unshared_mutind
  from Unshared_mut, UnsharedFields_mut, UnsharedElems_mut.

(** The target at [place] is such a value, and the array that holds it is
    none of the backing arrays of its slices. *)
Definition UnsharedAt (mem : Memory) (place : Place) (val : Value) (owned : gset nat)
    : Prop :=
  (array place ∉ owned)
  /\ exists mval : MValue, readAt mem place = Some mval /\ Unshared mem mval val owned.

End Shared.

(** The calls of [Shared.loadRecursive] nested at most [depth] deep do, at
    every place of a memory that holds [val] without sharing, what
    [loadRecursive] does on [val]: the call returns, with the same error;
    the place then holds, still without sharing, the value that
    [loadRecursive] leaves; and outside the backing arrays of the value the
    memory has changed at that place only. *)
Section Agreement.
Context `{tables : Unicode.CaseTables}.
Import Reflect.

Definition loadsAsOnTree (env : gmap string string) (depth : nat) (val : Value) : Prop :=
  forall (mem : Shared.Memory) (place : Shared.Place) (mval : Shared.MValue)
         (owned : gset nat) (environmentKey : string),
    Shared.readAt mem place = Some mval ->
    Shared.Unshared mem mval val owned ->
    Shared.array place ∉ owned ->
    exists (mem' : Shared.Memory) (mval' : Shared.MValue),
      Shared.loadRecursive env depth mem place environmentKey
      = Some (mem', (loadRecursive env val environmentKey).2)
      /\ Shared.Unshared mem' mval' (loadRecursive env val environmentKey).1 owned
      /\ forall other : nat,
          other ∉ owned -> mem' !! other = Shared.writeAt mem place mval' !! other.

End Agreement.

(** Tactics for closed instances: a decidable fact by evaluation, and the
    reading of a closed target whose slices start at the beginning of
    their backing arrays. *)
Ltac decided := apply (bool_decide_unpack _); vm_compute; exact I.

Ltac unshared :=
  lazymatch goal with
  | |- Shared.UnsharedAt _ _ _ _ =>
    split;
    [decided
    | eexists; split;
      [reflexivity
      | refine (eq_ind _ (Shared.Unshared _ _ _) _ _ _); [unshared | decided]]]
  | |- Shared.Unshared _ (Shared.MStruct _) _ _ =>
    apply Shared.Unshared_struct; unshared
  | |- Shared.Unshared _ (Shared.MArray _) _ _ =>
    apply Shared.Unshared_array; unshared
  | |- Shared.Unshared ?mem (Shared.MSlice ?array _ _) _ _ =>
    let elems := eval cbv in (mem !! array) in
    lazymatch elems with
    | Some ?window =>
      apply (Shared.Unshared_slice mem array [] window []);
      [reflexivity | unshared | decided]
    end
  | |- Shared.Unshared _ _ _ _ => constructor
  | |- Shared.UnsharedFields _ [] _ _ => constructor
  | |- Shared.UnsharedFields _ (_ :: _) _ _ =>
    apply Shared.UnsharedFields_cons; [unshared | unshared | decided]
  | |- Shared.UnsharedElems _ [] _ _ => constructor
  | |- Shared.UnsharedElems _ (_ :: _) _ _ =>
    apply Shared.UnsharedElems_cons; [unshared | unshared | decided]
  end.

(** * Properties *)

(** ** Strings *)

Lemma append_cons (c : ascii) (s t : string) :
  String c s +:+ t = String c (s +:+ t).
Proof. reflexivity. Qed.

Lemma append_nil_r (s : string) : s +:+ "" = s.
Proof.
  induction s as [|c s IH]; [reflexivity | now rewrite append_cons, IH].
Qed.

Lemma append_assoc (a b c : string) : (a +:+ b) +:+ c = a +:+ (b +:+ c).
Proof.
  induction a as [|x a IH]; [reflexivity | now rewrite !append_cons, IH].
Qed.

Lemma append_eq_nil (a b : string) : a +:+ b = "" -> a = "" /\ b = "".
Proof. destruct a; [auto | rewrite append_cons; discriminate]. Qed.

Lemma mapBytes_eq_nil (f : ascii -> ascii) (s : string) :
  Strings.mapBytes f s = "" -> s = "".
Proof. destruct s; simpl; [auto | discriminate]. Qed.

Lemma EncodeRune_not_nil (r : Utf8.rune) : Utf8.EncodeRune r <> "".
Proof.
  unfold Utf8.EncodeRune.
  repeat match goal with |- context [if ?b then _ else _] => destruct b end;
    discriminate.
Qed.

(** Every position that [range] reports lies at or after the offset it
    started from. *)
Lemma rangeFrom_pos (s : string) :
  forall skip pos, Forall (fun pc => pos <= fst pc) (Utf8.rangeFrom skip pos s).
Proof.
  induction s as [|c s IH]; intros skip pos; cbn [Utf8.rangeFrom]; [constructor|].
  destruct skip as [|k].
  - destruct (Utf8.DecodeRuneInString (String c s)) as [r width].
    constructor; [simpl; lia|].
    eapply Forall_impl; [apply IH|]. simpl. intros; lia.
  - eapply Forall_impl; [apply IH|]. simpl. intros; lia.
Qed.

(** A non-empty string starts a rune at offset 0, and nowhere else. *)
Lemma rangeString_cons (c : ascii) (s : string) :
  exists r rest,
    Utf8.rangeString (String c s) = (0, r) :: rest /\
    Forall (fun pc => fst pc <> 0) rest.
Proof.
  unfold Utf8.rangeString. cbn [Utf8.rangeFrom].
  destruct (Utf8.DecodeRuneInString (String c s)) as [r width].
  exists r, (Utf8.rangeFrom (width - 1) 1 s). split; [reflexivity|].
  eapply Forall_impl; [apply rangeFrom_pos|]. simpl. intros; lia.
Qed.

Section NameDeriverProperties.
Context `{tables : Unicode.CaseTables}.
Import Utf8.

(** An upper-case ASCII letter is its own upper case, so that on ASCII
    [upperCased] is [unicode.ToUpper]. *)
Lemma ToUpper_IsUpper_ascii (r : rune) :
  (r <= 0x7F)%N -> Unicode.IsUpper r = true -> Unicode.ToUpper r = r.
Proof.
  intros Hr. unfold Unicode.IsUpper, Unicode.ToUpper.
  apply N.leb_le in Hr. rewrite Hr.
  intros [Hlo Hhi]%andb_true_iff. apply N.leb_le in Hlo, Hhi.
  destruct (N.leb_spec 0x61 r); [lia | reflexivity].
Qed.

(** [strings.ToUpper] yields the empty string on the empty string only. *)
Lemma ToUpper_eq_nil (s : string) : Strings.ToUpper s = "" <-> s = "".
Proof.
  split; [|intros ->; reflexivity].
  unfold Strings.ToUpper.
  destruct (Strings.allBytes (fun b => (byteN b <? 0x80)%N) s) eqn:Hascii.
  - clear Hascii. destruct (Strings.allBytes _ s); [auto | apply mapBytes_eq_nil].
  - destruct s as [|c s]; [discriminate|].
    unfold Strings.Map.
    destruct (rangeString_cons c s) as (r & rest & -> & _). simpl.
    intros Hnil. apply append_eq_nil in Hnil as [Hnil _].
    now apply EncodeRune_not_nil in Hnil.
Qed.

(** Past the first rune, the flag [upperSequence] of the loop says whether
    the previous rune was upper case, and the loop appends what the
    description asks for. *)
Lemma camelStep_fold (l : list (nat * rune)) :
  forall (acc : string) (previous : rune),
    Forall (fun pc => fst pc <> 0) l ->
    fst (fold_left camelStep l (acc, Unicode.IsUpper previous))
    = acc +:+ derivedName (Some previous) (map snd l).
Proof.
  induction l as [|[pos char] l IH]; intros acc previous Hpos; simpl.
  - now rewrite append_nil_r.
  - inversion Hpos as [|? ? Hne Hrest]; subst. simpl in Hne.
    apply Nat.eqb_neq in Hne. rewrite Hne. simpl.
    unfold upperCased.
    destruct (Unicode.IsUpper char) eqn:Hc, (Unicode.IsUpper previous) eqn:Hp;
      simpl.
    all: rewrite <- Hc, IH by assumption.
    all: repeat rewrite append_assoc; reflexivity.
Qed.

Lemma camel_loop (c : ascii) (s : string) :
  fst (fold_left camelStep (rangeString (String c s)) ("", false))
  = derivedName None (map snd (rangeString (String c s))).
Proof.
  destruct (rangeString_cons c s) as (r & rest & -> & Hrest). simpl.
  unfold upperCased.
  destruct (Unicode.IsUpper r) eqn:Hr; simpl.
  all: rewrite <- Hr, camelStep_fold by assumption; reflexivity.
Qed.

(** C1.  For every input and prefix, [camelToUpperSnakeCase] returns what
    the description of the name deriver asks for ([derive]): the
    characters in upper case, a separator at every step from a character
    that is not upper case to one that is and none inside a run of
    upper-case characters; the upper-cased prefix and a separator in front
    when the prefix is not empty; the upper-cased prefix alone when the
    input is empty.  The five listed values are as stated. *)
Theorem camelToUpperSnakeCase_derive :
  (forall in_ prefix : string, camelToUpperSnakeCase in_ prefix = derive in_ prefix)
  /\ camelToUpperSnakeCase "" "FOO" = "FOO"
  /\ camelToUpperSnakeCase "Foo" "" = "FOO"
  /\ camelToUpperSnakeCase "bar" "foo" = "FOO_BAR"
  /\ camelToUpperSnakeCase "FooBar" "" = "FOO_BAR"
  /\ camelToUpperSnakeCase "FooBAR" "" = "FOO_BAR".
Proof.
  split; [|repeat split; reflexivity].
  intros in_ prefix. unfold camelToUpperSnakeCase, derive.
  destruct (decide (in_ = "")) as [|Hin]; [reflexivity|].
  destruct in_ as [|c s]; [congruence|].
  pose proof (camel_loop c s) as Hloop.
  destruct (fold_left camelStep _ _) as [res flag]. simpl in Hloop. subst res.
  destruct (decide (Strings.ToUpper prefix = "")) as [Hp|Hp];
    destruct (decide (prefix = "")) as [Hq|Hq]; try reflexivity.
  - apply (proj1 (ToUpper_eq_nil prefix)) in Hp. contradiction.
  - subst prefix. exfalso. apply Hp. reflexivity.
Qed.

End NameDeriverProperties.

(** ** strconv: what [Atoi] and [ParseBool] accept *)

Section StrconvProperties.
Import Strconv Decimal.
Local Open Scope Z_scope.

Lemma byteZ_range (c : ascii) : 0 <= byteZ c < 256.
Proof.
  unfold byteZ, Utf8.byteN. pose proof (N_ascii_bounded c). lia.
Qed.

Lemma isDigit_range (c : ascii) :
  isDigit c = true <-> 48 <= byteZ c <= 57.
Proof. unfold isDigit. rewrite andb_true_iff, !Z.leb_le. tauto. Qed.

(** The byte arithmetic of the fast path tells digits from other bytes. *)
Lemma atoi_digit (c : ascii) :
  ((byteZ c - 48) mod 256 >? 9) = negb (isDigit c)
  /\ (isDigit c = true -> (byteZ c - 48) mod 256 = byteZ c - 48).
Proof.
  pose proof (byteZ_range c) as Hc.
  destruct (isDigit c) eqn:Hd.
  - apply isDigit_range in Hd.
    rewrite Z.mod_small by lia. split; [|reflexivity].
    cbn [negb]. rewrite Z.gtb_ltb. apply Z.ltb_ge. lia.
  - split; [|discriminate]. cbn [negb].
    assert (Hout : byteZ c < 48 \/ 57 < byteZ c).
    { destruct (Z_lt_dec (byteZ c) 48); [auto|]. right.
      destruct (Z_lt_dec 57 (byteZ c)); [assumption|].
      assert (isDigit c = true) by (apply isDigit_range; lia). congruence. }
    rewrite Z.gtb_ltb. apply Z.ltb_lt.
    destruct Hout as [Hlow|Hhigh].
    + replace (byteZ c - 48) with (byteZ c + 208 + (-1) * 256) by lia.
      rewrite Z_mod_plus_full, Z.mod_small; lia.
    + rewrite Z.mod_small; lia.
Qed.

Lemma atoiDigits_digitsValue (s : string) :
  forall n : Z, atoiDigits n s = digitsValue n s.
Proof.
  induction s as [|c s IH]; intros n; [reflexivity|].
  cbn [atoiDigits digitsValue].
  destruct (atoi_digit c) as [Hgt Heq]. rewrite Hgt.
  destruct (isDigit c); cbn [negb]; [|reflexivity].
  now rewrite Heq, IH.
Qed.

Lemma pow10_pos (s : string) : 0 < pow10 s.
Proof. unfold pow10. apply Z.pow_pos_nonneg; lia. Qed.

Lemma pow10_cons (c : ascii) (s : string) : pow10 (String c s) = 10 * pow10 s.
Proof.
  unfold pow10. cbn [String.length].
  now rewrite Nat2Z.inj_succ, Z.pow_succ_r by lia.
Qed.

(** The value of a numeral of [k] digits read after [acc]. *)
Lemma digitsValue_bounds (s : string) :
  forall acc v : Z,
    0 <= acc -> digitsValue acc s = Some v ->
    acc * pow10 s <= v < (acc + 1) * pow10 s.
Proof.
  induction s as [|c s IH]; intros acc v Hacc Hv.
  - injection Hv as <-. unfold pow10. cbn. lia.
  - cbn [digitsValue] in Hv. destruct (isDigit c) eqn:Hd; [|discriminate].
    apply isDigit_range in Hd.
    apply IH in Hv; [|lia].
    rewrite pow10_cons. pose proof (pow10_pos s). nia.
Qed.

Lemma parseUintDigits_digitsValue (s : string) :
  forall n : Z,
    0 <= n <= maxUint64 ->
    match digitsValue n s with
    | Some v => parseUintDigits n s = if v <=? maxUint64 then inl v else inr ErrRange
    | None => exists e, parseUintDigits n s = inr e
    end.
Proof.
  assert (Hmax : maxUint64 = 18446744073709551615) by reflexivity.
  assert (Hcut : maxUint64 / 10 + 1 = 1844674407370955162) by reflexivity.
  induction s as [|c s IH]; intros n Hn.
  - cbn. destruct (Z.leb_spec n maxUint64); [reflexivity | lia].
  - cbn [digitsValue parseUintDigits]. fold (isDigit c).
    destruct (isDigit c) eqn:Hd; [|eauto].
    apply isDigit_range in Hd. rewrite Hcut.
    assert (Hover : forall v, digitsValue (n * 10 + (byteZ c - 48)) s = Some v ->
                              n * 10 + (byteZ c - 48) <= v).
    { intros v Hv. apply digitsValue_bounds in Hv; [|lia].
      pose proof (pow10_pos s). nia. }
    destruct (Z.geb_spec n 1844674407370955162) as [Hbig|Hsmall].
    { destruct (digitsValue _ s) as [v|] eqn:Hv; [|eauto].
      specialize (Hover v eq_refl).
      destruct (Z.leb_spec v maxUint64); [lia | reflexivity]. }
    destruct (Z.gtb_spec (n * 10 + (byteZ c - 48)) maxUint64) as [Hbig|Hfit].
    { destruct (digitsValue _ s) as [v|] eqn:Hv; [|eauto].
      specialize (Hover v eq_refl).
      destruct (Z.leb_spec v maxUint64); [lia | reflexivity]. }
    apply IH. lia.
Qed.

Lemma digitsValue_nonneg (s : string) (v : Z) :
  digitsValue 0 s = Some v -> 0 <= v < pow10 s.
Proof. intros Hv. apply digitsValue_bounds in Hv; lia. Qed.

(** What [signedValue] reads in [s]: the digits after an optional sign
    and their value. *)
Lemma signedValue_Some (s : string) (n : Z) :
  signedValue s = Some n ->
  exists (c : ascii) (t digits : string) (m : Z),
    s = String c t
    /\ digits = (if isSign c then t else s)
    /\ digits <> ""%string
    /\ digitsValue 0 digits = Some m
    /\ n = (if isMinus c then - m else m).
Proof.
  destruct s as [|c t]; [discriminate|]. cbn [signedValue].
  intros Hn. exists c, t, (if isSign c then t else String c t).
  destruct (if isSign c then t else String c t) as [|d ds] eqn:Hdigits;
    [discriminate|].
  destruct (digitsValue 0 (String d ds)) as [m|] eqn:Hm; [|discriminate].
  injection Hn as <-. exists m. repeat split; congruence.
Qed.

Lemma signedValue_None (c : ascii) (t : string) :
  signedValue (String c t) = None ->
  (if isSign c then t else String c t) = ""%string
  \/ digitsValue 0 (if isSign c then t else String c t) = None.
Proof.
  cbn [signedValue]. intros Hn.
  destruct (if isSign c then t else String c t) as [|d ds]; [auto|].
  right. now destruct (digitsValue 0 (String d ds)).
Qed.

Lemma isMinus_isSign (c : ascii) : isMinus c = true -> isSign c = true.
Proof. unfold isMinus, isSign. intros ->. apply orb_true_r. Qed.

Lemma ParseUint10_digits (digits : string) :
  digits <> ""%string -> ParseUint10 digits = parseUintDigits 0 digits.
Proof. destruct digits; [congruence | reflexivity]. Qed.

Lemma ParseInt10_Some (s : string) (n : Z) :
  signedValue s = Some n ->
  ParseInt10 s = if decide (fitsInt n) then inl n else inr ErrRange.
Proof.
  intros (c & t & digits & m & -> & Hdigits & Hne & Hm & ->)%signedValue_Some.
  cbn [ParseInt10]. rewrite <- Hdigits, (ParseUint10_digits _ Hne).
  pose proof (parseUintDigits_digitsValue digits 0 ltac:(unfold maxUint64; lia)) as Hparse.
  rewrite Hm in Hparse. rewrite Hparse.
  apply digitsValue_nonneg in Hm as [Hm _].
  unfold fitsInt. change (2 ^ (IntSize - 1)) with 9223372036854775808.
  unfold maxUint64. change (2 ^ 64 - 1) with 18446744073709551615.
  destruct (Z.leb_spec m 18446744073709551615) as [Hfit|Hbig].
  - destruct (isMinus c); cbn [negb andb].
    + destruct (Z.gtb_spec m 9223372036854775808); destruct (decide _);
        (reflexivity || lia).
    + destruct (Z.geb_spec m 9223372036854775808); destruct (decide _);
        (reflexivity || lia).
  - destruct (isMinus c); cbn; destruct (decide _); (reflexivity || lia).
Qed.

Lemma ParseInt10_None (s : string) :
  signedValue s = None -> exists e, ParseInt10 s = inr e.
Proof.
  destruct s as [|c t]; [cbn; eauto|].
  intros [Hnil|Hnone]%signedValue_None; cbn [ParseInt10].
  - rewrite Hnil. cbn. eauto.
  - destruct (if isSign c then t else String c t) as [|d ds] eqn:Hdigits;
      [cbn; eauto|].
    rewrite ParseUint10_digits by discriminate.
    pose proof (parseUintDigits_digitsValue (String d ds) 0
                  ltac:(unfold maxUint64; lia)) as Hparse.
    rewrite Hnone in Hparse. destruct Hparse as [[|] ->]; [eauto|].
    destruct (isMinus c); cbn; eauto.
Qed.

Lemma pow10_le (s : string) :
  (String.length s < 19)%nat -> pow10 s <= 10 ^ 18.
Proof.
  intros Hlen. unfold pow10. apply Z.pow_le_mono_r; lia.
Qed.

(** [Atoi] on a signed decimal numeral: its value when that is an [int],
    a range error otherwise. *)
Lemma Atoi_Some (s : string) (n : Z) :
  signedValue s = Some n ->
  Atoi s = if decide (fitsInt n) then inl n else inr (rangeError "Atoi" s).
Proof.
  intros Hn. unfold Atoi.
  destruct ((0 <? String.length s)%nat && (String.length s <? 19)%nat) eqn:Hlen.
  - apply andb_true_iff in Hlen as [_ Hlen%Nat.ltb_lt].
    destruct (signedValue_Some s n Hn)
      as (c & t & digits & m & -> & Hdigits & Hne & Hm & ->).
    rewrite <- Hdigits, atoiDigits_digitsValue, Hm.
    assert (Hshort : (String.length digits < 19)%nat).
    { subst digits. destruct (isSign c); cbn [String.length] in *; lia. }
    replace (isSign c && (String.length digits <? 1)%nat) with false.
    2:{ destruct digits; [congruence|]. cbn. now rewrite andb_false_r. }
    apply digitsValue_nonneg in Hm. pose proof (pow10_le digits Hshort).
    destruct (decide _) as [|Hno]; [reflexivity|].
    exfalso. apply Hno. unfold fitsInt.
    change (2 ^ (IntSize - 1)) with 9223372036854775808.
    destruct (isMinus c); lia.
  - rewrite (ParseInt10_Some s n Hn). now destruct (decide _).
Qed.

(** [Atoi] on anything else fails; the error carries the input. *)
Lemma Atoi_None (s : string) :
  signedValue s = None -> exists e, Atoi s = inr (mkNumError "Atoi" s e).
Proof.
  intros Hn. unfold Atoi.
  destruct ((0 <? String.length s)%nat && (String.length s <? 19)%nat) eqn:Hlen.
  - destruct s as [|c t]; [eexists; reflexivity|].
    destruct (signedValue_None c t Hn) as [Hnil|Hnone].
    + rewrite Hnil.
      destruct (isSign c) eqn:Hsign; [eexists; reflexivity | discriminate].
    + rewrite atoiDigits_digitsValue, Hnone.
      destruct (isSign c && _); eexists; reflexivity.
  - destruct (ParseInt10_None s Hn) as [e ->]. eauto.
Qed.

(** [Atoi] succeeds exactly on the signed decimal numerals whose value is
    an [int], with that value. *)
Lemma Atoi_inl (s : string) (n : Z) :
  Atoi s = inl n <-> signedValue s = Some n /\ fitsInt n.
Proof.
  destruct (signedValue s) as [m|] eqn:Hm.
  - rewrite (Atoi_Some s m Hm). destruct (decide (fitsInt m)) as [Hfit|Hno].
    + split; [intros [= <-]; auto | intros [[= <-] _]; reflexivity].
    + split; [discriminate | intros [[= <-] Hfit]; contradiction].
  - destruct (Atoi_None s Hm) as [e ->].
    split; [discriminate | intros [[=] _]].
Qed.

(** A failure of [Atoi] names the function and carries the input. *)
Lemma Atoi_inr (s : string) (err : NumError) :
  Atoi s = inr err -> Func err = "Atoi"%string /\ Num err = s.
Proof.
  destruct (signedValue s) as [m|] eqn:Hm.
  - rewrite (Atoi_Some s m Hm). destruct (decide _); [discriminate|].
    intros [= <-]. auto.
  - destruct (Atoi_None s Hm) as [e ->]. intros [= <-]. auto.
Qed.

(** The forms that [ParseBool] accepts. *)
Lemma ParseBool_inl (str : string) (b : bool) :
  ParseBool str = inl b <->
  str ∈ (if b then ["1"; "t"; "T"; "true"; "TRUE"; "True"]
         else ["0"; "f"; "F"; "false"; "FALSE"; "False"])%string.
Proof.
  unfold ParseBool.
  case_bool_decide as Ht; [|case_bool_decide as Hf].
  - destruct b; [easy|].
    split; [discriminate|]. intros Hf. exfalso.
    repeat (apply elem_of_cons in Ht as [->|Ht];
            [repeat (apply elem_of_cons in Hf as [Hf|Hf]; [discriminate|]);
             now apply elem_of_nil in Hf|]).
    now apply elem_of_nil in Ht.
  - destruct b; [|easy]. split; [discriminate | contradiction].
  - split; [discriminate|]. destruct b; contradiction.
Qed.

Lemma ParseBool_inr (str : string) (err : NumError) :
  ParseBool str = inr err -> err = syntaxError "ParseBool" str.
Proof.
  unfold ParseBool. repeat case_bool_decide; congruence.
Qed.

End StrconvProperties.

(** ** Values *)

(** Induction on a value, with the hypothesis for every field value of a
    struct and for every element of an array or a slice. *)
Lemma Value_ind' (P : Reflect.Value -> Prop) :
  (forall b, P (Reflect.VBool b)) ->
  (forall k n, P (Reflect.VInt k n)) ->
  (forall s, P (Reflect.VString s)) ->
  (forall fields,
      Forall (fun f => P (Reflect.fieldValue f)) fields -> P (Reflect.VStruct fields)) ->
  (forall elems, Forall P elems -> P (Reflect.VArray elems)) ->
  (forall elems, Forall P elems -> P (Reflect.VSlice elems)) ->
  (forall k, P (Reflect.VOther k)) ->
  forall val, P val.
Proof.
  intros HBool HInt HString HStruct HArray HSlice HOther.
  fix IH 1. intros [b|k n|s|fields|elems|elems|k].
  - apply HBool.
  - apply HInt.
  - apply HString.
  - apply HStruct. induction fields as [|[name canSet field] rest IHrest].
    + constructor.
    + constructor; [apply IH | apply IHrest].
  - apply HArray. induction elems as [|elem rest IHrest].
    + constructor.
    + constructor; [apply IH | apply IHrest].
  - apply HSlice. induction elems as [|elem rest IHrest].
    + constructor.
    + constructor; [apply IH | apply IHrest].
  - apply HOther.
Qed.

(** ** The recursive binder *)

Section BinderProperties.
Context `{tables : Unicode.CaseTables}.
Import Reflect.

Variable env : gmap string string.

(** The shape of [loadRecursive]: the loops, then the block of the leaf
    nodes unless a loop has returned an error. *)
Lemma loadRecursive_eq (val : Value) (environmentKey : string) :
  loadRecursive env val environmentKey =
  match loadChildren env val environmentKey with
  | (val', Some err) => (val', Some err)
  | (val', None) => loadLeaf env val' environmentKey
  end.
Proof.
  destruct val; try reflexivity; cbn [loadRecursive loadChildren].
  - destruct (loadFields _ _ _) as [fields' [err|]]; reflexivity.
  - destruct (loadElems _ _ _) as [elems' [err|]]; reflexivity.
  - destruct (loadElems _ _ _) as [elems' [err|]]; reflexivity.
Qed.

Lemma loadRecursive_leaf (val : Value) (environmentKey : string) :
  isComposite val = false ->
  loadRecursive env val environmentKey = loadLeaf env val environmentKey.
Proof. destruct val; (discriminate || reflexivity). Qed.

Lemma loadLeaf_absent (val : Value) (environmentKey : string) :
  env !! environmentKey = None -> loadLeaf env val environmentKey = (val, None).
Proof. intros Hnone. unfold loadLeaf, LookupEnv. now rewrite Hnone. Qed.

(** The block of the leaf nodes never changes a composite value. *)
Lemma loadLeaf_composite (val : Value) (environmentKey : string) :
  isComposite val = true ->
  loadLeaf env val environmentKey =
  (val, match env !! environmentKey with
        | Some _ => Some (UnsupportedError environmentKey (Kind_of val))
        | None => None
        end).
Proof.
  intros Hval. unfold loadLeaf, LookupEnv.
  destruct (env !! environmentKey); [|reflexivity].
  destruct val; (discriminate || reflexivity).
Qed.

(** *** The loops *)

Section Loops.
Variable rec : Value -> string -> Value * option Error.
Variable environmentKey : string.

Lemma loadFields_skip (fieldName : string) (field : Value) (rest : list Field) :
  loadFields rec environmentKey (mkField fieldName false field :: rest) =
  let '(rest', err) := loadFields rec environmentKey rest in
  (mkField fieldName false field :: rest', err).
Proof. reflexivity. Qed.

Lemma loadFields_set (fieldName : string) (field : Value) (rest : list Field) :
  loadFields rec environmentKey (mkField fieldName true field :: rest) =
  match rec field (camelToUpperSnakeCase fieldName environmentKey) with
  | (field', Some err) => (mkField fieldName true field' :: rest, Some err)
  | (field', None) =>
    let '(rest', err) := loadFields rec environmentKey rest in
    (mkField fieldName true field' :: rest', err)
  end.
Proof. reflexivity. Qed.


Lemma loadElems_cons (elem : Value) (rest : list Value) :
  loadElems rec environmentKey (elem :: rest) =
  match rec elem environmentKey with
  | (elem', Some err) => (elem' :: rest, Some err)
  | (elem', None) =>
    let '(rest', err) := loadElems rec environmentKey rest in
    (elem' :: rest', err)
  end.
Proof. reflexivity. Qed.

Lemma loadElems_app (before after : list Value) :
  loadElems rec environmentKey (before ++ after)%list =
  match loadElems rec environmentKey before with
  | (before', Some err) => ((before' ++ after)%list, Some err)
  | (before', None) =>
    let '(after', err) := loadElems rec environmentKey after in
    ((before' ++ after')%list, err)
  end.
Proof.
  induction before as [|elem rest IH].
  - cbn. now destruct (loadElems rec environmentKey after).
  - rewrite <- app_comm_cons, !loadElems_cons.
    destruct (rec elem _) as [elem' [err|]]; [reflexivity|].
    rewrite IH. destruct (loadElems rec environmentKey rest) as [rest' [err|]].
    + reflexivity.
    + now destruct (loadElems rec environmentKey after).
Qed.

Lemma loadElems_length (elems : list Value) :
  length (loadElems rec environmentKey elems).1 = length elems.
Proof.
  induction elems as [|elem rest IH]; [reflexivity|].
  rewrite loadElems_cons.
  destruct (rec elem _) as [elem' [err|]]; [reflexivity|].
  destruct (loadElems rec environmentKey rest) as [rest' err].
  cbn in *. now rewrite IH.
Qed.

(** Element [j] is loaded with the key of the sequence itself, provided
    the elements before it have been loaded without an error. *)
Lemma loadElems_lookup (elems : list Value) :
  forall (j : nat) (elem : Value),
    elems !! j = Some elem ->
    (forall i earlier, i < j -> elems !! i = Some earlier ->
                       (rec earlier environmentKey).2 = None) ->
    (loadElems rec environmentKey elems).1 !! j
    = Some (rec elem environmentKey).1.
Proof.
  induction elems as [|first rest IH]; intros j elem Hj Hearlier; [discriminate|].
  rewrite loadElems_cons. destruct j as [|j].
  - injection Hj as ->.
    destruct (rec elem _) as [elem' [err|]]; [reflexivity|].
    now destruct (loadElems rec environmentKey rest).
  - pose proof (Hearlier 0 first ltac:(lia) eq_refl) as Hfirst.
    destruct (rec first _) as [first' [err|]]; [discriminate|].
    specialize (IH j elem Hj).
    destruct (loadElems rec environmentKey rest) as [rest' err]. cbn in *.
    apply IH. intros i earlier Hi Hlook.
    apply (Hearlier (S i) earlier); [lia | exact Hlook].
Qed.
End Loops.

(** *** Keys that are absent *)

Lemma absent_app (keys1 keys2 : list string) :
  absent env (keys1 ++ keys2)%list <-> absent env keys1 /\ absent env keys2.
Proof.
  unfold absent. split.
  - intros Habs. split; intros k Hk; apply Habs, elem_of_app; auto.
  - intros [H1 H2] k [Hk|Hk]%elem_of_app; auto.
Qed.

Lemma loadFields_absent (environmentKey : string) (fields : list Field) :
  Forall (fun f => forall key, absent env (nodeKeys (fieldValue f) key) ->
                   loadRecursive env (fieldValue f) key = (fieldValue f, None))
         fields ->
  absent env (fieldKeys nodeKeys environmentKey fields) ->
  loadFields (loadRecursive env) environmentKey fields = (fields, None).
Proof.
  induction 1 as [|[fieldName [|] field] rest Hfield _ IH]; intros Habs.
  - reflexivity.
  - cbn [fieldKeys] in Habs. apply absent_app in Habs as [Hhere Hrest].
    rewrite loadFields_set. cbn [fieldValue] in Hfield.
    now rewrite (Hfield _ Hhere), (IH Hrest).
  - cbn [fieldKeys] in Habs. apply absent_app in Habs as [_ Hrest].
    now rewrite loadFields_skip, (IH Hrest).
Qed.

Lemma loadElems_absent (environmentKey : string) (elems : list Value) :
  Forall (fun elem => forall key, absent env (nodeKeys elem key) ->
                      loadRecursive env elem key = (elem, None))
         elems ->
  absent env (elemKeys nodeKeys environmentKey elems) ->
  loadElems (loadRecursive env) environmentKey elems = (elems, None).
Proof.
  induction 1 as [|elem rest Helem _ IH]; intros Habs.
  - reflexivity.
  - cbn [elemKeys] in Habs. apply absent_app in Habs as [Hhere Hrest].
    now rewrite loadElems_cons, (Helem _ Hhere), (IH Hrest).
Qed.

Lemma loadRecursive_absent (val : Value) :
  forall environmentKey : string,
    absent env (nodeKeys val environmentKey) ->
    loadRecursive env val environmentKey = (val, None).
Proof.
  induction val as [b|k n|s|fields IH|elems IH|elems IH|k] using Value_ind';
    intros environmentKey Habs.
  1-3, 7: apply loadLeaf_absent, Habs; cbn; apply list_elem_of_singleton;
    reflexivity.
  all: cbn [nodeKeys] in Habs; apply absent_app in Habs as [Hsub Hself].
  all: rewrite loadRecursive_eq; cbn [loadChildren].
  - rewrite (loadFields_absent _ _ IH Hsub).
    apply loadLeaf_absent, Hself, list_elem_of_singleton. reflexivity.
  - rewrite (loadElems_absent _ _ IH Hsub).
    apply loadLeaf_absent, Hself, list_elem_of_singleton. reflexivity.
  - rewrite (loadElems_absent _ _ IH Hsub).
    apply loadLeaf_absent, Hself, list_elem_of_singleton. reflexivity.
Qed.

Lemma LoadFromEnvironment_eq (target : Value) (prefix : string) :
  LoadFromEnvironment env target prefix = loadRecursive env target prefix.
Proof.
  unfold LoadFromEnvironment.
  now destruct (loadRecursive env target prefix) as [target' [err|]].
Qed.

(** When none of the keys of the nodes of a value is in the environment
    (the keys of its leaves, the keys of the structs, arrays and slices on
    the way, and the key the call starts with), the value is left as it is
    and no error is returned. *)
Theorem absent_keys_preserve_target (target : Value) (prefix : string) :
  (forall k : string, k ∈ nodeKeys target prefix -> env !! k = None) ->
  loadRecursive env target prefix = (target, None)
  /\ LoadFromEnvironment env target prefix = (target, None).
Proof.
  intros Habs. rewrite LoadFromEnvironment_eq.
  split; apply loadRecursive_absent; exact Habs.
Qed.

(** C8.  [MustLoadFromEnvironment] leaves the target in the state in which
    [LoadFromEnvironment] leaves it; it panics with the error that
    [LoadFromEnvironment] returns, and returns when that one returns no
    error. *)
Theorem MustLoadFromEnvironment_LoadFromEnvironment (target : Value) (prefix : string) :
  MustLoadFromEnvironment env target prefix =
  ((LoadFromEnvironment env target prefix).1,
   match (LoadFromEnvironment env target prefix).2 with
   | Some err => Panics err
   | None => Returns
   end).
Proof.
  unfold MustLoadFromEnvironment, LoadFromEnvironment.
  now destruct (loadRecursive env target prefix) as [target' [err|]].
Qed.

(** *** Leaves *)

(** C10.  For a target that is not a struct, an array or a slice,
    [LoadFromEnvironment] looks up the key [prefix] as the caller gave it
    and nothing else: with no value there, the target stays and there is no
    error; with a value there, a string takes it, an integer or a boolean
    takes what is read in it or the call fails with the error for the key
    [prefix], and any other kind fails with the unsupported-type error for
    the key [prefix].  The result is the same in every environment that
    agrees with [env] on the key [prefix]. *)
Theorem scalar_root_looks_up_prefix (target : Value) (prefix : string) :
  isComposite target = false ->
  LoadFromEnvironment env target prefix =
  match env !! prefix with
  | None => (target, None)
  | Some value =>
    match target with
    | VString _ => (VString value, None)
    | VInt k _ =>
      match Strconv.Atoi value with
      | inl n => (VInt k (wrap (intBits k) n), None)
      | inr cause => (target, Some (IntError prefix cause))
      end
    | VBool _ =>
      match Strconv.ParseBool value with
      | inl b => (VBool b, None)
      | inr cause => (target, Some (BoolError prefix cause))
      end
    | _ => (target, Some (UnsupportedError prefix (Kind_of target)))
    end
  end
  /\ forall env' : gmap string string,
      env' !! prefix = env !! prefix ->
      LoadFromEnvironment env' target prefix = LoadFromEnvironment env target prefix.
Proof.
  intros Hleaf. split.
  - rewrite LoadFromEnvironment_eq, loadRecursive_leaf by assumption.
    unfold loadLeaf, LookupEnv.
    destruct (env !! prefix) as [value|]; [|reflexivity].
    destruct target; (discriminate || reflexivity).
  - intros env' Hsame. unfold LoadFromEnvironment.
    destruct target; try discriminate;
      cbn [loadRecursive]; unfold loadLeaf, LookupEnv; now rewrite Hsame.
Qed.

(** C5, as the code has it.  A leaf whose kind is not string, a signed
    integer kind or bool makes [loadRecursive] fail with the
    unsupported-type error for its key and kind when the key is in the
    environment; when the key is not there the call succeeds.  The leaf is
    left as it is in both cases. *)
Theorem unsupported_leaf_fails_when_present (val : Value) (environmentKey : string) :
  isComposite val = false ->
  isSupported val = false ->
  loadRecursive env val environmentKey =
  (val, match env !! environmentKey with
        | Some _ => Some (UnsupportedError environmentKey (Kind_of val))
        | None => None
        end).
Proof.
  intros Hleaf Hkind. rewrite loadRecursive_leaf by assumption.
  unfold loadLeaf, LookupEnv.
  destruct val; try discriminate. now destruct (env !! environmentKey).
Qed.

(** *** Composite nodes *)

Lemma loadChildren_kind (val : Value) (environmentKey : string) :
  Kind_of (loadChildren env val environmentKey).1 = Kind_of val
  /\ isComposite (loadChildren env val environmentKey).1 = isComposite val.
Proof.
  destruct val; cbn [loadChildren]; try (split; reflexivity).
  - now destruct (loadFields _ _ _).
  - now destruct (loadElems _ _ _).
  - now destruct (loadElems _ _ _).
Qed.

Lemma loadFields_all_succeed (environmentKey : string) (fields : list Field) :
  childrenSucceed env (VStruct fields) environmentKey ->
  loadFields (loadRecursive env) environmentKey fields
  = (map (loadedField env environmentKey) fields, None).
Proof.
  cbn [childrenSucceed].
  induction 1 as [|[fieldName [|] field] rest Hfield _ IH]; [reflexivity| |].
  - rewrite loadFields_set. specialize (Hfield eq_refl). cbn [map loadedField].
    destruct (loadRecursive env field _) as [field' [err|]]; [discriminate|].
    now rewrite IH.
  - rewrite loadFields_skip. cbn [map loadedField]. now rewrite IH.
Qed.

Lemma loadElems_all_succeed (environmentKey : string) (elems : list Value) :
  Forall (fun elem => (loadRecursive env elem environmentKey).2 = None) elems ->
  loadElems (loadRecursive env) environmentKey elems
  = (map (fun elem => (loadRecursive env elem environmentKey).1) elems, None).
Proof.
  induction 1 as [|elem rest Helem _ IH]; [reflexivity|].
  rewrite loadElems_cons. cbn [map].
  destruct (loadRecursive env elem _) as [elem' [err|]]; [discriminate|].
  now rewrite IH.
Qed.

(** The error with which a loop returns is that of the first field or
    element that fails. *)
Lemma loadFields_error (environmentKey : string) (fields : list Field) :
  (loadFields (loadRecursive env) environmentKey fields).2
  = firstChildError env (VStruct fields) environmentKey.
Proof.
  cbn [firstChildError].
  induction fields as [|[fieldName [|] field] rest IH]; [reflexivity| |].
  - rewrite loadFields_set. cbn [omap list_omap].
    destruct (loadRecursive env field _) as [field' [err|]]; [reflexivity|].
    cbn [snd]. rewrite <- IH.
    now destruct (loadFields (loadRecursive env) environmentKey rest).
  - rewrite loadFields_skip. cbn [omap list_omap]. rewrite <- IH.
    now destruct (loadFields (loadRecursive env) environmentKey rest).
Qed.

Lemma loadElems_error (environmentKey : string) (elems : list Value) :
  (loadElems (loadRecursive env) environmentKey elems).2
  = firstChildError env (VSlice elems) environmentKey.
Proof.
  cbn [firstChildError].
  induction elems as [|elem rest IH]; [reflexivity|].
  rewrite loadElems_cons. cbn [omap list_omap].
  destruct (loadRecursive env elem _) as [elem' [err|]]; [reflexivity|].
  cbn [snd]. rewrite <- IH.
  now destruct (loadElems (loadRecursive env) environmentKey rest).
Qed.

(** C9, as the code has it.  A struct, an array or a slice whose own key is
    in the environment always makes [loadRecursive] fail: with the error of
    the first of its fields and elements that fails, if one does, and
    otherwise with the unsupported-type error for the key and the kind of
    the node.  In this second case the call leaves the node with every
    field that can be set and every element loaded. *)
Theorem composite_with_present_key_fails
    (val : Value) (environmentKey environmentValue : string) :
  isComposite val = true ->
  env !! environmentKey = Some environmentValue ->
  (loadRecursive env val environmentKey).2
  = Some (match firstChildError env val environmentKey with
          | Some err => err
          | None => UnsupportedError environmentKey (Kind_of val)
          end)
  /\ (childrenSucceed env val environmentKey ->
      loadRecursive env val environmentKey
      = (childrenLoaded env val environmentKey,
         Some (UnsupportedError environmentKey (Kind_of val)))).
Proof.
  intros Hval Hkey. split.
  - destruct val as [| | |fields|elems|elems|]; try discriminate; cbn [loadRecursive].
    + rewrite <- loadFields_error.
      destruct (loadFields _ _ _) as [fields' [err|]]; [reflexivity|].
      rewrite loadLeaf_composite by reflexivity. now rewrite Hkey.
    + change (firstChildError env (VArray elems) environmentKey)
        with (firstChildError env (VSlice elems) environmentKey).
      rewrite <- loadElems_error.
      destruct (loadElems _ _ _) as [elems' [err|]]; [reflexivity|].
      rewrite loadLeaf_composite by reflexivity. now rewrite Hkey.
    + rewrite <- loadElems_error.
      destruct (loadElems _ _ _) as [elems' [err|]]; [reflexivity|].
      rewrite loadLeaf_composite by reflexivity. now rewrite Hkey.
  - intros Hall. destruct val; try discriminate;
      cbn [loadRecursive childrenLoaded childrenSucceed] in *.
    + rewrite (loadFields_all_succeed _ _ Hall).
      rewrite loadLeaf_composite by reflexivity. now rewrite Hkey.
    + rewrite (loadElems_all_succeed _ _ Hall).
      rewrite loadLeaf_composite by reflexivity. now rewrite Hkey.
    + rewrite (loadElems_all_succeed _ _ Hall).
      rewrite loadLeaf_composite by reflexivity. now rewrite Hkey.
Qed.

(** A struct without fields and a sequence without elements are handed to
    the block of the leaf nodes as they are. *)
Lemma loadRecursive_empty (environmentKey : string) :
  loadRecursive env (VStruct []) environmentKey = loadLeaf env (VStruct []) environmentKey
  /\ loadRecursive env (VArray []) environmentKey = loadLeaf env (VArray []) environmentKey
  /\ loadRecursive env (VSlice []) environmentKey = loadLeaf env (VSlice []) environmentKey.
Proof. repeat split. Qed.

(** When an element of an array or a slice fails to load after the
    elements before it have been loaded, [loadRecursive] returns that very
    error; the elements before keep what they have been set to and the
    elements after it are as they were. *)
Lemma first_error_aborts_sequence
    (environmentKey : string) (before after before' : list Value)
    (elem elem' : Value) (err : Error) :
  loadElems (loadRecursive env) environmentKey before = (before', None) ->
  loadRecursive env elem environmentKey = (elem', Some err) ->
  loadRecursive env (VSlice (before ++ elem :: after)%list) environmentKey
  = (VSlice (before' ++ elem' :: after)%list, Some err)
  /\ loadRecursive env (VArray (before ++ elem :: after)%list) environmentKey
    = (VArray (before' ++ elem' :: after)%list, Some err).
Proof.
  intros Hbefore Helem. cbn [loadRecursive].
  now rewrite loadElems_app, Hbefore, loadElems_cons, Helem.
Qed.

(** *** Sequences *)

(** C2.  The loop over the elements of an array or a slice keeps their
    number and loads element [j] with the key of the sequence itself,
    whatever [j] is, once the elements before it have been loaded without
    an error.  With [FOO_BAR=qux], a field [Foo] holding a slice of two
    structs with a string field [Bar] is loaded without an error and both
    [Bar] are ["qux"]. *)
Theorem sequence_elements_share_key (elems : list Value) (environmentKey : string) :
  (exists elems' : list Value,
      (loadRecursive env (VSlice elems) environmentKey).1 = VSlice elems'
      /\ (loadRecursive env (VArray elems) environmentKey).1 = VArray elems'
      /\ length elems' = length elems
      /\ forall (j : nat) (elem : Value),
          elems !! j = Some elem ->
          (forall i earlier, i < j -> elems !! i = Some earlier ->
                             (loadRecursive env earlier environmentKey).2 = None) ->
          elems' !! j = Some (loadRecursive env elem environmentKey).1)
  /\ LoadFromEnvironment {[ "FOO_BAR" := "qux" ]}
       (VStruct [mkField "Foo" true
                   (VSlice [VStruct [mkField "Bar" true (VString "baz")];
                            VStruct [mkField "Bar" true (VString "")]])]) ""
     = (VStruct [mkField "Foo" true
                   (VSlice [VStruct [mkField "Bar" true (VString "qux")];
                            VStruct [mkField "Bar" true (VString "qux")]])],
        None).
Proof.
  split; [|vm_compute; reflexivity].
  exists (loadElems (loadRecursive env) environmentKey elems).1.
  repeat split.
  - rewrite loadRecursive_eq. cbn [loadChildren].
    destruct (loadElems _ _ _) as [elems' [err|]]; [reflexivity|].
    now rewrite loadLeaf_composite.
  - rewrite loadRecursive_eq. cbn [loadChildren].
    destruct (loadElems _ _ _) as [elems' [err|]]; [reflexivity|].
    now rewrite loadLeaf_composite.
  - apply loadElems_length.
  - apply loadElems_lookup.
Qed.

(** *** Integer and boolean leaves *)

Lemma wrap_fits (bits x : Z) :
  (0 < bits)%Z -> (- 2 ^ (bits - 1) <= x < 2 ^ (bits - 1))%Z -> wrap bits x = x.
Proof.
  intros Hbits Hx. unfold wrap.
  assert (Hpow : (2 ^ bits = 2 * 2 ^ (bits - 1))%Z).
  { rewrite <- Z.pow_succ_r by lia. f_equal. lia. }
  destruct (Z_lt_dec x 0) as [Hneg|Hpos].
  - replace (x mod 2 ^ bits)%Z with (x + 2 ^ bits)%Z.
    + destruct (Z.ltb_spec (x + 2 ^ bits) (2 ^ (bits - 1))); lia.
    + apply Z.mod_unique with (q := (-1)%Z); lia.
  - rewrite Z.mod_small by lia.
    destruct (Z.ltb_spec x (2 ^ (bits - 1))); lia.
Qed.

(** C4, as the code has it.  With a value for its key in the environment,
    an integer leaf of any of the five kinds takes what [strconv.Atoi]
    reads in the value, stored as [Value.SetInt] stores it (converted to
    the width of the kind, which changes nothing when the number fits and
    wraps it around otherwise, without an error), and a failure of
    [Atoi] is returned as the error of the key for the kind int, wrapping
    that failure, with the leaf left as it was.  [Atoi] succeeds exactly
    on an optional sign followed by decimal digits whose value is an
    [int].  A boolean leaf takes what [strconv.ParseBool] reads, a
    failure is returned as the error of the key for the kind bool;
    [ParseBool] succeeds exactly on its six forms of true and six forms of
    false. *)
Theorem present_int_and_bool_leaves (environmentKey environmentValue : string) :
  env !! environmentKey = Some environmentValue ->
  (forall (k : IntKind) (old : Z),
      loadRecursive env (VInt k old) environmentKey =
      match Strconv.Atoi environmentValue with
      | inl n => (VInt k (wrap (intBits k) n), None)
      | inr cause => (VInt k old, Some (IntError environmentKey cause))
      end)
  /\ (forall n : Z,
        Strconv.Atoi environmentValue = inl n <->
        Decimal.signedValue environmentValue = Some n /\ Decimal.fitsInt n)
  /\ (forall (k : IntKind) (n : Z),
        (- 2 ^ (intBits k - 1) <= n < 2 ^ (intBits k - 1))%Z ->
        wrap (intBits k) n = n)
  /\ (forall old : bool,
        loadRecursive env (VBool old) environmentKey =
        match Strconv.ParseBool environmentValue with
        | inl b => (VBool b, None)
        | inr cause => (VBool old, Some (BoolError environmentKey cause))
        end)
  /\ (forall b : bool,
        Strconv.ParseBool environmentValue = inl b <->
        environmentValue ∈ (if b then ["1"; "t"; "T"; "true"; "TRUE"; "True"]
                            else ["0"; "f"; "F"; "false"; "FALSE"; "False"]))
  /\ (forall cause : Strconv.NumError,
        Error_text (IntError environmentKey cause)
        = "failed to parse environment key: " +:+ environmentKey +:+ " to int: "
        /\ Unwrap (IntError environmentKey cause) = Some cause
        /\ Error_text (BoolError environmentKey cause)
          = "failed to parse environment key: " +:+ environmentKey +:+ " to bool: "
        /\ Unwrap (BoolError environmentKey cause) = Some cause).
Proof.
  intros Hkey.
  split.
  { intros k old. cbn [loadRecursive]. unfold loadLeaf, LookupEnv. rewrite Hkey.
    now destruct (Strconv.Atoi environmentValue). }
  split; [intros n; apply Atoi_inl|].
  split.
  { intros k n Hn. apply wrap_fits; [destruct k; reflexivity | assumption]. }
  split.
  { intros old. cbn [loadRecursive]. unfold loadLeaf, LookupEnv. rewrite Hkey.
    now destruct (Strconv.ParseBool environmentValue). }
  split; [intros b; apply ParseBool_inl|].
  intros cause. repeat split.
Qed.

End BinderProperties.

(** ** The properties at concrete targets *)

Section Instances.
Import Reflect.
Local Existing Instance Unicode.asciiTables.

(** C7.  With [FOO=1] in the environment, a field [Foo] holding a struct
    without fields, a slice without elements or an array without elements
    makes [LoadFromEnvironment] fail with the unsupported-type error for
    [FOO] and the kind of the field. *)
Theorem empty_composite_with_present_key_fails :
  LoadFromEnvironment {[ "FOO" := "1" ]} (VStruct [mkField "Foo" true (VStruct [])]) ""
  = (VStruct [mkField "Foo" true (VStruct [])], Some (UnsupportedError "FOO" Struct))
  /\ LoadFromEnvironment {[ "FOO" := "1" ]} (VStruct [mkField "Foo" true (VSlice [])]) ""
    = (VStruct [mkField "Foo" true (VSlice [])], Some (UnsupportedError "FOO" Slice))
  /\ LoadFromEnvironment {[ "FOO" := "1" ]} (VStruct [mkField "Foo" true (VArray [])]) ""
    = (VStruct [mkField "Foo" true (VArray [])], Some (UnsupportedError "FOO" Array)).
Proof. repeat split; vm_compute; reflexivity. Qed.

(** A channel field [Foo] and an empty environment: no error. *)
Lemma unsupported_leaf_without_value_succeeds :
  LoadFromEnvironment ∅ (VStruct [mkField "Foo" true (VOther KChan)]) ""
  = (VStruct [mkField "Foo" true (VOther KChan)], None)
  /\ loadRecursive ∅ (VOther KChan) "FOO" = (VOther KChan, None)
  /\ (loadRecursive ∅ (VOther KChan) "FOO").2 <> Some (UnsupportedError "FOO" Chan).
Proof. repeat split; vm_compute; (reflexivity || discriminate). Qed.

(** A lower-case prefix of a string target is looked up in lower case,
    whereas the key of a field below that prefix is in upper case. *)
Lemma lower_case_prefix_of_scalar_root :
  LoadFromEnvironment {[ "foo" := "bar" ]} (VString "") "foo" = (VString "bar", None)
  /\ LoadFromEnvironment {[ "FOO" := "bar" ]} (VString "") "foo" = (VString "", None)
  /\ LoadFromEnvironment {[ "FOO_BAR" := "baz" ]}
       (VStruct [mkField "Bar" true (VString "")]) "foo"
     = (VStruct [mkField "Bar" true (VString "baz")], None).
Proof. repeat split; vm_compute; reflexivity. Qed.

(** [HOME] is set, the keys [FOO_BAR], [FOO] and the empty key of the
    root are not: the default of [Bar] stays. *)
Lemma absent_keys_preserve_target_witness :
  let env : gmap string string := {[ "HOME" := "/root" ]} in
  let target := VStruct [mkField "Foo" true (VStruct [mkField "Bar" true (VString "qux")])] in
  (forall k : string, k ∈ nodeKeys target "" -> env !! k = None)
  /\ loadRecursive env target "" = (target, None)
  /\ LoadFromEnvironment env target "" = (target, None).
Proof.
  intros env target.
  assert (Habsent : forall k : string, k ∈ nodeKeys target "" -> env !! k = None).
  { intros k Hk. vm_compute in Hk.
    repeat (apply elem_of_cons in Hk as [->|Hk]; [reflexivity|]).
    now apply elem_of_nil in Hk. }
  split; [exact Habsent|].
  exact (absent_keys_preserve_target env target "" Habsent).
Defined.

(** The prefix [foo] in lower case: [foo=bar] is read, [FOO=bar] is not. *)
Lemma scalar_root_looks_up_prefix_witness :
  isComposite (VString "") = false
  /\ LoadFromEnvironment {[ "foo" := "bar" ]} (VString "") "foo" = (VString "bar", None)
  /\ LoadFromEnvironment {[ "FOO" := "bar" ]} (VString "") "foo" = (VString "", None).
Proof.
  split; [reflexivity|]. split.
  - exact (proj1 (scalar_root_looks_up_prefix {[ "foo" := "bar" ]} (VString "") "foo"
                    eq_refl)).
  - exact (proj1 (scalar_root_looks_up_prefix {[ "FOO" := "bar" ]} (VString "") "foo"
                    eq_refl)).
Defined.

Lemma unsupported_leaf_fails_when_present_witness :
  let env : gmap string string := {[ "FOO" := "bar" ]} in
  isComposite (VOther KChan) = false
  /\ isSupported (VOther KChan) = false
  /\ loadRecursive env (VOther KChan) "FOO"
    = (VOther KChan, match env !! "FOO" with
                     | Some _ => Some (UnsupportedError "FOO" (Kind_of (VOther KChan)))
                     | None => None
                     end).
Proof.
  intros env. split; [reflexivity|]. split; [reflexivity|].
  exact (unsupported_leaf_fails_when_present env (VOther KChan) "FOO" eq_refl eq_refl).
Defined.

(** [FOO=1] and [FOO_BAR=baz]: [Bar] is set, then the struct at [FOO]
    fails.  [FOO=1] and [FOO_BAR=abc] with an integer [Bar]: the error is
    that of [Bar]. *)
Lemma composite_with_present_key_fails_witness :
  let env : gmap string string := {[ "FOO" := "1" ; "FOO_BAR" := "baz" ]} in
  let val := VStruct [mkField "Bar" true (VString "")] in
  let env' : gmap string string := {[ "FOO" := "1" ; "FOO_BAR" := "abc" ]} in
  let val' := VStruct [mkField "Bar" true (VInt KInt 0)] in
  isComposite val = true
  /\ env !! "FOO" = Some "1"
  /\ childrenSucceed env val "FOO"
  /\ loadRecursive env val "FOO"
    = (VStruct [mkField "Bar" true (VString "baz")],
       Some (UnsupportedError "FOO" Struct))
  /\ (loadRecursive env' val' "FOO").2
    = Some (IntError "FOO_BAR" (Strconv.mkNumError "Atoi" "abc" Strconv.ErrSyntax)).
Proof.
  intros env val env' val'.
  assert (Hchildren : childrenSucceed env val "FOO")
    by (repeat constructor).
  split; [reflexivity|]. split; [reflexivity|]. split; [exact Hchildren|]. split.
  - exact (proj2 (composite_with_present_key_fails env val "FOO" "1" eq_refl eq_refl)
             Hchildren).
  - exact (proj1 (composite_with_present_key_fails env' val' "FOO" "1" eq_refl eq_refl)).
Defined.

(** [FOO=1] and [FOO_BAR=abc]: the integer field [Bar] fails first, and
    its error is the one returned. *)
Lemma composite_child_error_comes_first :
  let env : gmap string string := {[ "FOO" := "1" ; "FOO_BAR" := "abc" ]} in
  let val := VStruct [mkField "Bar" true (VInt KInt 0)] in
  env !! "FOO" = Some "1"
  /\ loadRecursive env val "FOO"
    = (val, Some (IntError "FOO_BAR"
                    (Strconv.mkNumError "Atoi" "abc" Strconv.ErrSyntax)))
  /\ (loadRecursive env val "FOO").2 <> Some (UnsupportedError "FOO" Struct).
Proof. intros env val. repeat split; vm_compute; (reflexivity || discriminate). Qed.

(** C3.  With the prefix [APP] and [APP=1], a struct with one string field
    [Foo]: the key [APP_FOO] of its only leaf is not set, yet
    [LoadFromEnvironment] fails, with the unsupported-type error for [APP]
    and the kind struct.  The same without a prefix, with [FOO=1] and a
    field [Foo] that holds a struct with a string field [Bar]: the key
    [FOO_BAR] of the only leaf is not set. *)
Theorem absent_leaf_keys_present_composite_key_fails :
  (({[ "APP" := "1" ]} : gmap string string) !! camelToUpperSnakeCase "Foo" "APP" = None
   /\ LoadFromEnvironment {[ "APP" := "1" ]}
        (VStruct [mkField "Foo" true (VString "d")]) "APP"
      = (VStruct [mkField "Foo" true (VString "d")],
         Some (UnsupportedError "APP" Struct)))
  /\ (({[ "FOO" := "1" ]} : gmap string string)
       !! camelToUpperSnakeCase "Bar" (camelToUpperSnakeCase "Foo" "") = None
      /\ LoadFromEnvironment {[ "FOO" := "1" ]}
           (VStruct [mkField "Foo" true (VStruct [mkField "Bar" true (VString "d")])]) ""
         = (VStruct [mkField "Foo" true (VStruct [mkField "Bar" true (VString "d")])],
            Some (UnsupportedError "FOO" Struct))).
Proof. repeat split; vm_compute; reflexivity. Qed.

(** [FOO=300] and [FOO=-129] are read as 300 and -129, and an [int8] leaf
    then holds 44 and 127, with no error. *)
Lemma int8_leaf_holds_converted_number :
  Strconv.Atoi "300" = inl 300%Z
  /\ loadRecursive {[ "FOO" := "300" ]} (VInt KInt8 0) "FOO" = (VInt KInt8 44, None)
  /\ Strconv.Atoi "-129" = inl (-129)%Z
  /\ loadRecursive {[ "FOO" := "-129" ]} (VInt KInt8 0) "FOO" = (VInt KInt8 127, None)
  /\ VInt KInt8 44 <> VInt KInt8 300 /\ VInt KInt8 127 <> VInt KInt8 (-129).
Proof. repeat split; (vm_compute; reflexivity) || discriminate. Qed.

(** [FOO=300]: an [int8] leaf takes [int8(300) = 44], an [int] leaf 300. *)
Lemma present_int_and_bool_leaves_witness :
  let env : gmap string string := {[ "FOO" := "300" ]} in
  env !! "FOO" = Some "300"
  /\ loadRecursive env (VInt KInt8 0) "FOO" = (VInt KInt8 44, None)
  /\ loadRecursive env (VInt KInt 0) "FOO" = (VInt KInt 300, None).
Proof.
  intros env. split; [reflexivity|].
  pose proof (present_int_and_bool_leaves env "FOO" "300" eq_refl) as [Hint _].
  split; [exact (Hint KInt8 0%Z) | exact (Hint KInt 0%Z)].
Defined.

End Instances.


(** * Further properties *)

(** ** The binder as a whole *)

Section TraversalProperties.
Context `{tables : Unicode.CaseTables}.
Import Reflect.

(** *** The loops, for two ways to load a field or an element *)

(** The loops give the same result for two ways [rec1] and [rec2] to load
    a child that agree on every child whose keys satisfy [P]. *)
Section LoopsOn.
Variable P : list string -> Prop.
Hypothesis P_app : forall keys1 keys2 : list string,
  P (keys1 ++ keys2)%list -> P keys1 /\ P keys2.
Variables rec1 rec2 : Value -> string -> Value * option Error.

Lemma loadFields_on (environmentKey : string) (fields : list Field) :
  Forall (fun f => forall key, P (nodeKeys (fieldValue f) key) ->
                   rec1 (fieldValue f) key = rec2 (fieldValue f) key) fields ->
  P (fieldKeys nodeKeys environmentKey fields) ->
  loadFields rec1 environmentKey fields = loadFields rec2 environmentKey fields.
Proof.
  induction 1 as [|[fieldName [|] field] rest Hfield _ IH]; intros HP.
  - reflexivity.
  - cbn [fieldKeys] in HP. apply P_app in HP as [Hhere Hrest].
    rewrite !loadFields_set. cbn [fieldValue] in Hfield.
    now rewrite (Hfield _ Hhere), (IH Hrest).
  - cbn [fieldKeys] in HP. apply P_app in HP as [_ Hrest].
    now rewrite !loadFields_skip, (IH Hrest).
Qed.

Lemma loadElems_on (environmentKey : string) (elems : list Value) :
  Forall (fun elem => forall key, P (nodeKeys elem key) ->
                      rec1 elem key = rec2 elem key) elems ->
  P (elemKeys nodeKeys environmentKey elems) ->
  loadElems rec1 environmentKey elems = loadElems rec2 environmentKey elems.
Proof.
  induction 1 as [|elem rest Helem _ IH]; intros HP.
  - reflexivity.
  - cbn [elemKeys] in HP. apply P_app in HP as [Hhere Hrest].
    now rewrite !loadElems_cons, (Helem _ Hhere), (IH Hrest).
Qed.
End LoopsOn.

Lemma agree_app (env env' : gmap string string) (keys1 keys2 : list string) :
  agree env env' (keys1 ++ keys2)%list -> agree env env' keys1 /\ agree env env' keys2.
Proof.
  unfold agree. intros Hall.
  split; intros k Hk; apply Hall, elem_of_app; auto.
Qed.

Lemma agree_self (env env' : gmap string string) (val : Value) (environmentKey : string) :
  agree env env' (nodeKeys val environmentKey) ->
  env !! environmentKey = env' !! environmentKey.
Proof.
  intros Hall. apply Hall.
  destruct val; cbn [nodeKeys]; try (apply list_elem_of_singleton; reflexivity).
  all: apply elem_of_app; right; apply list_elem_of_singleton; reflexivity.
Qed.

Lemma loadLeaf_agree (env env' : gmap string string) (val : Value) (environmentKey : string) :
  env !! environmentKey = env' !! environmentKey ->
  loadLeaf env val environmentKey = loadLeaf env' val environmentKey.
Proof. intros Hsame. unfold loadLeaf, LookupEnv. now rewrite Hsame. Qed.

(** X1.  [loadRecursive] reads the environment at the keys of the nodes of
    its target only: in two environments that agree on these keys it gives
    the same value and the same error. *)
Theorem loadRecursive_reads_node_keys
    (env env' : gmap string string) (val : Value) (environmentKey : string) :
  (forall k : string, k ∈ nodeKeys val environmentKey -> env !! k = env' !! k) ->
  loadRecursive env val environmentKey = loadRecursive env' val environmentKey.
Proof.
  revert environmentKey.
  induction val as [b|k n|s|fields IH|elems IH|elems IH|k] using Value_ind';
    intros environmentKey Hagree.
  1-3, 7: cbn [loadRecursive]; apply loadLeaf_agree, Hagree;
    apply list_elem_of_singleton; reflexivity.
  all: pose proof (agree_self env env' _ environmentKey Hagree) as Hself.
  all: cbn [nodeKeys] in Hagree; apply agree_app in Hagree as [Hsub _].
  all: cbn [loadRecursive].
  - rewrite (loadFields_on (agree env env') (agree_app env env') _ _ _ _ IH Hsub).
    destruct (loadFields _ _ _) as [fields' [err|]];
      [reflexivity | now apply loadLeaf_agree].
  - rewrite (loadElems_on (agree env env') (agree_app env env') _ _ _ _ IH Hsub).
    destruct (loadElems _ _ _) as [elems' [err|]];
      [reflexivity | now apply loadLeaf_agree].
  - rewrite (loadElems_on (agree env env') (agree_app env env') _ _ _ _ IH Hsub).
    destruct (loadElems _ _ _) as [elems' [err|]];
      [reflexivity | now apply loadLeaf_agree].
Qed.

(** *** What a call leaves in place *)

Lemma SameShape_refl (val : Value) : SameShape val val.
Proof.
  induction val as [b|k n|s|fields IH|elems IH|elems IH|k] using Value_ind';
    constructor.
  - induction IH as [|[fieldName [|] field] rest Hfield _ IHrest];
      constructor; try assumption; constructor. exact Hfield.
  - induction IH; constructor; assumption.
  - induction IH; constructor; assumption.
Qed.

Lemma SameField_refl (f : Field) : SameField f f.
Proof. destruct f as [fieldName [|] field]; constructor. apply SameShape_refl. Qed.

Lemma Forall2_SameShape_refl (elems : list Value) : Forall2 SameShape elems elems.
Proof. induction elems; constructor; [apply SameShape_refl | assumption]. Qed.

Lemma Forall2_SameField_refl (fields : list Field) : Forall2 SameField fields fields.
Proof. induction fields; constructor; [apply SameField_refl | assumption]. Qed.

Lemma loadFields_shape (rec : Value -> string -> Value * option Error)
    (environmentKey : string) (fields : list Field) :
  Forall (fun f => forall key, SameShape (fieldValue f) (rec (fieldValue f) key).1)
         fields ->
  Forall2 SameField fields (loadFields rec environmentKey fields).1.
Proof.
  induction 1 as [|[fieldName [|] field] rest Hfield _ IH].
  - constructor.
  - rewrite loadFields_set. cbn [fieldValue] in Hfield.
    specialize (Hfield (camelToUpperSnakeCase fieldName environmentKey)).
    destruct (rec field _) as [field' [err|]]; cbn in Hfield.
    + constructor; [now constructor | apply Forall2_SameField_refl].
    + destruct (loadFields rec environmentKey rest) as [rest' err].
      constructor; [now constructor | exact IH].
  - rewrite loadFields_skip.
    destruct (loadFields rec environmentKey rest) as [rest' err].
    constructor; [constructor | exact IH].
Qed.

Lemma loadElems_shape (rec : Value -> string -> Value * option Error)
    (environmentKey : string) (elems : list Value) :
  Forall (fun elem => forall key, SameShape elem (rec elem key).1) elems ->
  Forall2 SameShape elems (loadElems rec environmentKey elems).1.
Proof.
  induction 1 as [|elem rest Helem _ IH].
  - constructor.
  - rewrite loadElems_cons. specialize (Helem environmentKey).
    destruct (rec elem _) as [elem' [err|]]; cbn in Helem.
    + constructor; [assumption | apply Forall2_SameShape_refl].
    + destruct (loadElems rec environmentKey rest) as [rest' err].
      constructor; [assumption | exact IH].
Qed.

Lemma loadLeaf_shape (env : gmap string string) (val : Value) (environmentKey : string) :
  SameShape val (loadLeaf env val environmentKey).1.
Proof.
  unfold loadLeaf, LookupEnv.
  destruct (env !! environmentKey) as [value|]; [|apply SameShape_refl].
  destruct val; try apply SameShape_refl.
  - destruct (Strconv.ParseBool value); [constructor | apply SameShape_refl].
  - destruct (Strconv.Atoi value); [constructor | apply SameShape_refl].
  - constructor.
Qed.

Lemma loadRecursive_SameShape
    (env : gmap string string) (val : Value) (environmentKey : string) :
  SameShape val (loadRecursive env val environmentKey).1.
Proof.
  revert environmentKey.
  induction val as [b|k n|s|fields IH|elems IH|elems IH|k] using Value_ind';
    intros environmentKey.
  1-3, 7: apply loadLeaf_shape.
  all: rewrite loadRecursive_eq; cbn [loadChildren].
  - pose proof (loadFields_shape (loadRecursive env) environmentKey fields IH) as Hloop.
    destruct (loadFields _ _ _) as [fields' [err|]]; cbn in Hloop.
    + now constructor.
    + rewrite loadLeaf_composite by reflexivity. now constructor.
  - pose proof (loadElems_shape (loadRecursive env) environmentKey elems IH) as Hloop.
    destruct (loadElems _ _ _) as [elems' [err|]]; cbn in Hloop.
    + now constructor.
    + rewrite loadLeaf_composite by reflexivity. now constructor.
  - pose proof (loadElems_shape (loadRecursive env) environmentKey elems IH) as Hloop.
    destruct (loadElems _ _ _) as [elems' [err|]]; cbn in Hloop.
    + now constructor.
    + rewrite loadLeaf_composite by reflexivity. now constructor.
Qed.

(** *** Loading twice *)

Lemma loadLeaf_twice (env : gmap string string) (val : Value) (environmentKey : string) :
  loadLeaf env (loadLeaf env val environmentKey).1 environmentKey
  = loadLeaf env val environmentKey.
Proof.
  unfold loadLeaf, LookupEnv.
  destruct (env !! environmentKey) as [value|]; [|reflexivity].
  destruct val; cbn [fst]; try reflexivity.
  - destruct (Strconv.ParseBool value) eqn:Hparse; cbn [fst]; now rewrite ?Hparse.
  - destruct (Strconv.Atoi value) eqn:Hparse; cbn [fst SetInt]; now rewrite ?Hparse.
Qed.

Lemma loadFields_twice (rec : Value -> string -> Value * option Error)
    (environmentKey : string) (fields : list Field) :
  Forall (fun f => forall key, rec (rec (fieldValue f) key).1 key = rec (fieldValue f) key)
         fields ->
  loadFields rec environmentKey (loadFields rec environmentKey fields).1
  = loadFields rec environmentKey fields.
Proof.
  induction 1 as [|[fieldName [|] field] rest Hfield _ IH].
  - reflexivity.
  - rewrite loadFields_set. cbn [fieldValue] in Hfield.
    specialize (Hfield (camelToUpperSnakeCase fieldName environmentKey)).
    destruct (rec field _) as [field' [err|]] eqn:Hrec; cbn in Hfield.
    + cbn [fst]. now rewrite loadFields_set, Hfield.
    + destruct (loadFields rec environmentKey rest) as [rest' err] eqn:Hrest.
      cbn [fst] in *. now rewrite loadFields_set, Hfield, IH.
  - rewrite loadFields_skip.
    destruct (loadFields rec environmentKey rest) as [rest' err] eqn:Hrest.
    cbn [fst] in *. now rewrite loadFields_skip, IH.
Qed.

Lemma loadElems_twice (rec : Value -> string -> Value * option Error)
    (environmentKey : string) (elems : list Value) :
  Forall (fun elem => forall key, rec (rec elem key).1 key = rec elem key) elems ->
  loadElems rec environmentKey (loadElems rec environmentKey elems).1
  = loadElems rec environmentKey elems.
Proof.
  induction 1 as [|elem rest Helem _ IH].
  - reflexivity.
  - rewrite loadElems_cons. specialize (Helem environmentKey).
    destruct (rec elem _) as [elem' [err|]] eqn:Hrec; cbn in Helem.
    + cbn [fst]. now rewrite loadElems_cons, Helem.
    + destruct (loadElems rec environmentKey rest) as [rest' err] eqn:Hrest.
      cbn [fst] in *. now rewrite loadElems_cons, Helem, IH.
Qed.

Lemma loadLeaf_isComposite (env : gmap string string) (val : Value) (environmentKey : string) :
  isComposite (loadLeaf env val environmentKey).1 = isComposite val.
Proof.
  pose proof (loadLeaf_shape env val environmentKey) as Hshape.
  now inversion Hshape.
Qed.

(** X4.  Loading again what a call has left, with the same key and in the
    same environment, changes nothing more and ends the same way: with no
    error after a call without error, with the same error after a call
    that failed. *)
Theorem loadRecursive_twice
    (env : gmap string string) (val : Value) (environmentKey : string) :
  loadRecursive env (loadRecursive env val environmentKey).1 environmentKey
  = loadRecursive env val environmentKey.
Proof.
  revert environmentKey.
  induction val as [b|k n|s|fields IH|elems IH|elems IH|k] using Value_ind';
    intros environmentKey.
  1-3, 7: cbn [loadRecursive];
    rewrite loadRecursive_leaf by (now rewrite loadLeaf_isComposite);
    apply loadLeaf_twice.
  - pose proof (loadFields_twice (loadRecursive env) environmentKey fields IH) as Hloop.
    cbn [loadRecursive].
    destruct (loadFields _ _ fields) as [fields' [err|]] eqn:Hfields; cbn [fst] in *.
    + cbn [loadRecursive]. now rewrite Hloop.
    + rewrite loadLeaf_composite by reflexivity. cbn [fst loadRecursive].
      rewrite Hloop. now rewrite loadLeaf_composite by reflexivity.
  - pose proof (loadElems_twice (loadRecursive env) environmentKey elems IH) as Hloop.
    cbn [loadRecursive].
    destruct (loadElems _ _ elems) as [elems' [err|]] eqn:Helems; cbn [fst] in *.
    + cbn [loadRecursive]. now rewrite Hloop.
    + rewrite loadLeaf_composite by reflexivity. cbn [fst loadRecursive].
      rewrite Hloop. now rewrite loadLeaf_composite by reflexivity.
  - pose proof (loadElems_twice (loadRecursive env) environmentKey elems IH) as Hloop.
    cbn [loadRecursive].
    destruct (loadElems _ _ elems) as [elems' [err|]] eqn:Helems; cbn [fst] in *.
    + cbn [loadRecursive]. now rewrite Hloop.
    + rewrite loadLeaf_composite by reflexivity. cbn [fst loadRecursive].
      rewrite Hloop. now rewrite loadLeaf_composite by reflexivity.
Qed.

(** *** Errors *)

Lemma loadLeaf_error (env : gmap string string) (val : Value)
    (environmentKey : string) (err : Error) :
  (loadLeaf env val environmentKey).2 = Some err ->
  errorKey err = environmentKey /\ is_Some (env !! environmentKey).
Proof.
  unfold loadLeaf, LookupEnv.
  destruct (env !! environmentKey) as [value|]; [|discriminate].
  intros Herr. split; [|eauto].
  destruct val; cbn in Herr; try (injection Herr as <-; reflexivity);
    try discriminate.
  - destruct (Strconv.ParseBool value); [discriminate|].
    injection Herr as <-. reflexivity.
  - destruct (Strconv.Atoi value); [discriminate|].
    injection Herr as <-. reflexivity.
Qed.

Section ErrorKeys.
Variable env : gmap string string.

Lemma reported_l (err : Error) (keys1 keys2 : list string) :
  reportedIn env err keys1 -> reportedIn env err (keys1 ++ keys2)%list.
Proof. intros [Hin Hsome]. split; [apply elem_of_app; auto | assumption]. Qed.

Lemma reported_r (err : Error) (keys1 keys2 : list string) :
  reportedIn env err keys2 -> reportedIn env err (keys1 ++ keys2)%list.
Proof. intros [Hin Hsome]. split; [apply elem_of_app; auto | assumption]. Qed.

Lemma loadFields_reported (rec : Value -> string -> Value * option Error)
    (environmentKey : string) (fields : list Field) (err : Error) :
  Forall (fun f => forall key e, (rec (fieldValue f) key).2 = Some e ->
                   reportedIn env e (nodeKeys (fieldValue f) key)) fields ->
  (loadFields rec environmentKey fields).2 = Some err ->
  reportedIn env err (fieldKeys nodeKeys environmentKey fields).
Proof.
  induction 1 as [|[fieldName [|] field] rest Hfield _ IH]; intros Herr.
  - discriminate.
  - rewrite loadFields_set in Herr. cbn [fieldValue] in Hfield. cbn [fieldKeys].
    specialize (Hfield (camelToUpperSnakeCase fieldName environmentKey)).
    destruct (rec field _) as [field' [e|]]; cbn in Hfield.
    + injection Herr as <-. apply reported_l, Hfield. reflexivity.
    + destruct (loadFields rec environmentKey rest) as [rest' e].
      apply reported_r, IH, Herr.
  - rewrite loadFields_skip in Herr. cbn [fieldKeys].
    destruct (loadFields rec environmentKey rest) as [rest' e].
    apply IH, Herr.
Qed.

Lemma loadElems_reported (rec : Value -> string -> Value * option Error)
    (environmentKey : string) (elems : list Value) (err : Error) :
  Forall (fun elem => forall key e, (rec elem key).2 = Some e ->
                      reportedIn env e (nodeKeys elem key)) elems ->
  (loadElems rec environmentKey elems).2 = Some err ->
  reportedIn env err (elemKeys nodeKeys environmentKey elems).
Proof.
  induction 1 as [|elem rest Helem _ IH]; intros Herr.
  - discriminate.
  - rewrite loadElems_cons in Herr. cbn [elemKeys].
    specialize (Helem environmentKey).
    destruct (rec elem _) as [elem' [e|]]; cbn in Helem.
    + injection Herr as <-. apply reported_l, Helem. reflexivity.
    + destruct (loadElems rec environmentKey rest) as [rest' e].
      apply reported_r, IH, Herr.
Qed.

Lemma loadRecursive_reported (val : Value) :
  forall (environmentKey : string) (err : Error),
    (loadRecursive env val environmentKey).2 = Some err ->
    reportedIn env err (nodeKeys val environmentKey).
Proof.
  induction val as [b|k n|s|fields IH|elems IH|elems IH|k] using Value_ind';
    intros environmentKey err Herr.
  1-3, 7: apply loadLeaf_error in Herr as [Hkey Hsome];
    unfold reportedIn; rewrite Hkey;
    split; [apply list_elem_of_singleton; reflexivity | assumption].
  all: rewrite loadRecursive_eq in Herr; cbn [loadChildren nodeKeys] in *.
  - pose proof (loadFields_reported (loadRecursive env) environmentKey fields) as Hloop.
    destruct (loadFields _ _ _) as [fields' [e|]]; cbn in Hloop.
    + injection Herr as <-. apply reported_l, Hloop; [exact IH | reflexivity].
    + apply loadLeaf_error in Herr as [Hkey Hsome]. apply reported_r.
      unfold reportedIn. rewrite Hkey.
      split; [apply list_elem_of_singleton; reflexivity | assumption].
  - pose proof (loadElems_reported (loadRecursive env) environmentKey elems) as Hloop.
    destruct (loadElems _ _ _) as [elems' [e|]]; cbn in Hloop.
    + injection Herr as <-. apply reported_l, Hloop; [exact IH | reflexivity].
    + apply loadLeaf_error in Herr as [Hkey Hsome]. apply reported_r.
      unfold reportedIn. rewrite Hkey.
      split; [apply list_elem_of_singleton; reflexivity | assumption].
  - pose proof (loadElems_reported (loadRecursive env) environmentKey elems) as Hloop.
    destruct (loadElems _ _ _) as [elems' [e|]]; cbn in Hloop.
    + injection Herr as <-. apply reported_l, Hloop; [exact IH | reflexivity].
    + apply loadLeaf_error in Herr as [Hkey Hsome]. apply reported_r.
      unfold reportedIn. rewrite Hkey.
      split; [apply list_elem_of_singleton; reflexivity | assumption].
Qed.

(** X5.  An error of [LoadFromEnvironment] always reports the key of a node
    of the target, and that key is set in the environment: a variable that
    is not set is never the reason of a failure. *)
Theorem error_reports_present_node_key (target : Value) (prefix : string) (err : Error) :
  (LoadFromEnvironment env target prefix).2 = Some err ->
  errorKey err ∈ nodeKeys target prefix /\ is_Some (env !! errorKey err).
Proof.
  rewrite LoadFromEnvironment_eq. apply loadRecursive_reported.
Qed.

End ErrorKeys.

(** *** Fewer variables *)

Lemma loadLeaf_fewer (env env' : gmap string string) (val : Value) (environmentKey : string) :
  env' ⊆ env ->
  (loadLeaf env val environmentKey).2 = None ->
  (loadLeaf env' val environmentKey).2 = None.
Proof.
  intros Hsub. unfold loadLeaf, LookupEnv.
  destruct (env' !! environmentKey) as [value|] eqn:Hkey; [|reflexivity].
  now rewrite (lookup_weaken _ _ _ _ Hkey Hsub).
Qed.

Lemma loadFields_fewer (rec rec' : Value -> string -> Value * option Error)
    (environmentKey : string) (fields : list Field) :
  Forall (fun f => forall key, (rec (fieldValue f) key).2 = None ->
                   (rec' (fieldValue f) key).2 = None) fields ->
  (loadFields rec environmentKey fields).2 = None ->
  (loadFields rec' environmentKey fields).2 = None.
Proof.
  induction 1 as [|[fieldName [|] field] rest Hfield _ IH]; intros Hok.
  - reflexivity.
  - rewrite loadFields_set in *. cbn [fieldValue] in Hfield.
    specialize (Hfield (camelToUpperSnakeCase fieldName environmentKey)).
    destruct (rec field _) as [field1 [e|]]; [discriminate|].
    destruct (rec' field _) as [field2 [e|]]; [now specialize (Hfield eq_refl)|].
    destruct (loadFields rec environmentKey rest) as [rest1 e1].
    destruct (loadFields rec' environmentKey rest) as [rest2 e2].
    apply IH, Hok.
  - rewrite loadFields_skip in *.
    destruct (loadFields rec environmentKey rest) as [rest1 e1].
    destruct (loadFields rec' environmentKey rest) as [rest2 e2].
    apply IH, Hok.
Qed.

Lemma loadElems_fewer (rec rec' : Value -> string -> Value * option Error)
    (environmentKey : string) (elems : list Value) :
  Forall (fun elem => forall key, (rec elem key).2 = None -> (rec' elem key).2 = None)
         elems ->
  (loadElems rec environmentKey elems).2 = None ->
  (loadElems rec' environmentKey elems).2 = None.
Proof.
  induction 1 as [|elem rest Helem _ IH]; intros Hok.
  - reflexivity.
  - rewrite loadElems_cons in *. specialize (Helem environmentKey).
    destruct (rec elem _) as [elem1 [e|]]; [discriminate|].
    destruct (rec' elem _) as [elem2 [e|]]; [now specialize (Helem eq_refl)|].
    destruct (loadElems rec environmentKey rest) as [rest1 e1].
    destruct (loadElems rec' environmentKey rest) as [rest2 e2].
    apply IH, Hok.
Qed.

Lemma loadRecursive_fewer (env env' : gmap string string) (val : Value) :
  env' ⊆ env ->
  forall environmentKey : string,
    (loadRecursive env val environmentKey).2 = None ->
    (loadRecursive env' val environmentKey).2 = None.
Proof.
  intros Hsub.
  induction val as [b|k n|s|fields IH|elems IH|elems IH|k] using Value_ind';
    intros environmentKey Hok.
  1-3, 7: now apply (loadLeaf_fewer env env').
  all: rewrite loadRecursive_eq in *; cbn [loadChildren] in *.
  - pose proof (loadFields_fewer _ _ environmentKey fields IH) as Hloop.
    destruct (loadFields (loadRecursive env) _ _) as [fields1 [e|]]; [discriminate|].
    destruct (loadFields (loadRecursive env') _ _) as [fields2 [e|]];
      [now specialize (Hloop eq_refl)|].
    rewrite loadLeaf_composite in * by reflexivity. cbn [snd] in *.
    destruct (env' !! environmentKey) as [value|] eqn:Hkey; [|reflexivity].
    now rewrite (lookup_weaken _ _ _ _ Hkey Hsub) in Hok.
  - pose proof (loadElems_fewer _ _ environmentKey elems IH) as Hloop.
    destruct (loadElems (loadRecursive env) _ _) as [elems1 [e|]]; [discriminate|].
    destruct (loadElems (loadRecursive env') _ _) as [elems2 [e|]];
      [now specialize (Hloop eq_refl)|].
    rewrite loadLeaf_composite in * by reflexivity. cbn [snd] in *.
    destruct (env' !! environmentKey) as [value|] eqn:Hkey; [|reflexivity].
    now rewrite (lookup_weaken _ _ _ _ Hkey Hsub) in Hok.
  - pose proof (loadElems_fewer _ _ environmentKey elems IH) as Hloop.
    destruct (loadElems (loadRecursive env) _ _) as [elems1 [e|]]; [discriminate|].
    destruct (loadElems (loadRecursive env') _ _) as [elems2 [e|]];
      [now specialize (Hloop eq_refl)|].
    rewrite loadLeaf_composite in * by reflexivity. cbn [snd] in *.
    destruct (env' !! environmentKey) as [value|] eqn:Hkey; [|reflexivity].
    now rewrite (lookup_weaken _ _ _ _ Hkey Hsub) in Hok.
Qed.

(** X6.  Unsetting variables never makes loading fail: when
    [LoadFromEnvironment] returns no error in an environment, it returns
    none in any environment that holds only some of its variables, with
    the same values. *)
Theorem unsetting_variables_keeps_success
    (env env' : gmap string string) (target : Value) (prefix : string) :
  env' ⊆ env ->
  (LoadFromEnvironment env target prefix).2 = None ->
  (LoadFromEnvironment env' target prefix).2 = None.
Proof.
  intros Hsub. rewrite !LoadFromEnvironment_eq. now apply loadRecursive_fewer.
Qed.

(** *** Defaults *)

Lemma loadLeaf_defaults (env : gmap string string) (val val' : Value)
    (environmentKey : string) :
  SameShape val val' ->
  (loadLeaf env val environmentKey).2 = (loadLeaf env val' environmentKey).2.
Proof.
  intros Hshape. unfold loadLeaf, LookupEnv.
  destruct (env !! environmentKey) as [value|]; [|reflexivity].
  inversion Hshape; subst; cbn; try reflexivity.
  - now destruct (Strconv.ParseBool value).
  - now destruct (Strconv.Atoi value).
Qed.

Lemma loadFields_defaults (rec : Value -> string -> Value * option Error)
    (environmentKey : string) (fields : list Field) :
  Forall (fun f => forall val' key, SameShape (fieldValue f) val' ->
                   (rec (fieldValue f) key).2 = (rec val' key).2) fields ->
  forall fields' : list Field,
    Forall2 SameField fields fields' ->
    (loadFields rec environmentKey fields).2 = (loadFields rec environmentKey fields').2.
Proof.
  induction 1 as [|f rest Hfield _ IH]; intros fields' Hshape;
    inversion Hshape as [|? f' ? rest' Hf Hrest]; subst; [reflexivity|].
  specialize (IH rest' Hrest).
  inversion Hf as [fieldName field field' Hval|fieldName field]; subst.
  - rewrite !loadFields_set. cbn [fieldValue] in Hfield.
    specialize (Hfield field' (camelToUpperSnakeCase fieldName environmentKey) Hval).
    destruct (rec field _) as [field1 [e1|]], (rec field' _) as [field2 [e2|]];
      cbn in Hfield; try discriminate; [exact Hfield|].
    destruct (loadFields rec environmentKey rest) as [rest1 e1].
    destruct (loadFields rec environmentKey rest') as [rest2 e2].
    exact IH.
  - rewrite !loadFields_skip.
    destruct (loadFields rec environmentKey rest) as [rest1 e1].
    destruct (loadFields rec environmentKey rest') as [rest2 e2].
    exact IH.
Qed.

Lemma loadElems_defaults (rec : Value -> string -> Value * option Error)
    (environmentKey : string) (elems : list Value) :
  Forall (fun elem => forall val' key, SameShape elem val' ->
                      (rec elem key).2 = (rec val' key).2) elems ->
  forall elems' : list Value,
    Forall2 SameShape elems elems' ->
    (loadElems rec environmentKey elems).2 = (loadElems rec environmentKey elems').2.
Proof.
  induction 1 as [|elem rest Helem _ IH]; intros elems' Hshape;
    inversion Hshape as [|? elem' ? rest' Hval Hrest]; subst; [reflexivity|].
  specialize (IH rest' Hrest). rewrite !loadElems_cons.
  specialize (Helem elem' environmentKey Hval).
  destruct (rec elem _) as [elem1 [e1|]], (rec elem' _) as [elem2 [e2|]];
    cbn in Helem; try discriminate; [exact Helem|].
  destruct (loadElems rec environmentKey rest) as [rest1 e1].
  destruct (loadElems rec environmentKey rest') as [rest2 e2].
  exact IH.
Qed.

Lemma loadRecursive_defaults (env : gmap string string) (val : Value) :
  forall (val' : Value) (environmentKey : string),
    SameShape val val' ->
    (loadRecursive env val environmentKey).2 = (loadRecursive env val' environmentKey).2.
Proof.
  induction val as [b|k n|s|fields IH|elems IH|elems IH|k] using Value_ind';
    intros val' environmentKey Hshape.
  1-3, 7: inversion Hshape; subst; cbn [loadRecursive];
    now apply loadLeaf_defaults.
  all: inversion Hshape as [| | |? fields' Hall|? elems' Hall|? elems' Hall|]; subst.
  all: rewrite !loadRecursive_eq; cbn [loadChildren].
  - pose proof (loadFields_defaults _ environmentKey fields IH fields' Hall) as Hloop.
    destruct (loadFields _ _ fields) as [fields1 [e1|]],
             (loadFields _ _ fields') as [fields2 [e2|]];
      cbn in Hloop; try discriminate; [exact Hloop|].
    now rewrite !loadLeaf_composite by reflexivity.
  - pose proof (loadElems_defaults _ environmentKey elems IH elems' Hall) as Hloop.
    destruct (loadElems _ _ elems) as [elems1 [e1|]],
             (loadElems _ _ elems') as [elems2 [e2|]];
      cbn in Hloop; try discriminate; [exact Hloop|].
    now rewrite !loadLeaf_composite by reflexivity.
  - pose proof (loadElems_defaults _ environmentKey elems IH elems' Hall) as Hloop.
    destruct (loadElems _ _ elems) as [elems1 [e1|]],
             (loadElems _ _ elems') as [elems2 [e2|]];
      cbn in Hloop; try discriminate; [exact Hloop|].
    now rewrite !loadLeaf_composite by reflexivity.
Qed.

(** X7.  Whether [LoadFromEnvironment] fails, and with which error, does
    not depend on what the leaves of the target hold before the call: two
    targets of the same shape give the same error, or both none. *)
Theorem error_independent_of_defaults
    (env : gmap string string) (target target' : Value) (prefix : string) :
  SameShape target target' ->
  (LoadFromEnvironment env target prefix).2 = (LoadFromEnvironment env target' prefix).2.
Proof.
  intros Hshape. rewrite !LoadFromEnvironment_eq. now apply loadRecursive_defaults.
Qed.

End TraversalProperties.

(** ** The name deriver *)

Section NameDeriverMore.
Context `{tables : Unicode.CaseTables}.
Import Utf8.

(** [camelToUpperSnakeCase] with its loop replaced by what the loop
    computes. *)
Lemma camelToUpperSnakeCase_eq (in_ prefix : string) :
  camelToUpperSnakeCase in_ prefix =
  if decide (in_ = "") then Strings.ToUpper prefix
  else if decide (Strings.ToUpper prefix = "")
       then derivedName None (map snd (rangeString in_))
       else Strings.ToUpper prefix +:+ "_"
              +:+ derivedName None (map snd (rangeString in_)).
Proof.
  unfold camelToUpperSnakeCase.
  destruct (decide (in_ = "")) as [|Hin]; [reflexivity|].
  destruct in_ as [|c s]; [congruence|].
  pose proof (camel_loop c s) as Hloop.
  destruct (fold_left camelStep _ _) as [res flag]. cbn [fst] in Hloop.
  now subst res.
Qed.

Lemma derivedName_not_nil (previous : option rune) (c : rune) (rest : list rune) :
  derivedName previous (c :: rest) <> "".
Proof.
  cbn [derivedName]. intros Hnil.
  apply append_eq_nil in Hnil as [_ Hnil].
  apply append_eq_nil in Hnil as [Hnil _].
  now apply EncodeRune_not_nil in Hnil.
Qed.

Lemma camelToUpperSnakeCase_nil (in_ prefix : string) :
  camelToUpperSnakeCase in_ prefix = "" -> in_ = "" /\ prefix = "".
Proof.
  rewrite camelToUpperSnakeCase_eq.
  destruct (decide (in_ = "")) as [->|Hin].
  - intros Hp. apply (proj1 (ToUpper_eq_nil prefix)) in Hp. auto.
  - destruct in_ as [|c s]; [congruence|].
    destruct (rangeString_cons c s) as (r & rest & -> & _). cbn [map snd].
    destruct (decide _) as [Hp|Hp]; intros Hnil.
    + now apply derivedName_not_nil in Hnil.
    + apply append_eq_nil in Hnil as [Hnil _]. contradiction.
Qed.

(** X8.  The derived key is empty only when both the name and the prefix
    are: the key of a named field is never the empty string. *)
Theorem derived_key_empty_iff (in_ prefix : string) :
  camelToUpperSnakeCase in_ prefix = "" <-> in_ = "" /\ prefix = "".
Proof.
  split; [apply camelToUpperSnakeCase_nil|].
  intros [-> ->]. reflexivity.
Qed.

(** *** ASCII names *)

Lemma allBytes_app (p : ascii -> bool) (a b : string) :
  Strings.allBytes p (a +:+ b) = Strings.allBytes p a && Strings.allBytes p b.
Proof.
  induction a as [|c a IH]; [reflexivity|].
  rewrite append_cons. cbn [Strings.allBytes]. now rewrite IH, andb_assoc.
Qed.

Lemma byteN_byteOf (n : N) : (n < 256)%N -> byteN (byteOf n) = n.
Proof.
  intros Hn. unfold byteN, byteOf.
  rewrite N.mod_small by assumption. now apply N_ascii_embedding.
Qed.

Lemma DecodeRuneInString_ascii (c : ascii) (t : string) :
  (byteN c <? 0x80)%N = true -> DecodeRuneInString (String c t) = (byteN c, 1).
Proof. intros Hc. unfold DecodeRuneInString, first. now rewrite Hc. Qed.

(** The runes that [range] yields do not depend on the offset at which the
    count of the positions starts. *)
Lemma rangeFrom_runes (s : string) :
  forall skip pos pos' : nat,
    map snd (rangeFrom skip pos s) = map snd (rangeFrom skip pos' s).
Proof.
  induction s as [|c s IH]; intros skip pos pos'; [reflexivity|].
  cbn [rangeFrom]. destruct skip as [|k]; [|apply IH].
  destruct (DecodeRuneInString (String c s)) as [r width].
  cbn [map snd]. f_equal. apply IH.
Qed.

(** After ASCII bytes, [range] goes on as at the start of a string. *)
Lemma rangeFrom_ascii_app (a b : string) :
  isASCII a = true ->
  forall pos : nat,
    map snd (rangeFrom 0 pos (a +:+ b))
    = (map snd (rangeFrom 0 pos a) ++ map snd (rangeString b))%list.
Proof.
  induction a as [|c a IH]; intros Ha pos.
  - apply rangeFrom_runes.
  - unfold isASCII in Ha. cbn [Strings.allBytes] in Ha.
    apply andb_true_iff in Ha as [Hc Ha].
    rewrite append_cons. cbn [rangeFrom].
    rewrite !DecodeRuneInString_ascii by assumption.
    cbn [map snd Nat.sub]. rewrite <- app_comm_cons. f_equal. now apply IH.
Qed.

Lemma rangeFrom_ascii_bound (s : string) :
  isASCII s = true ->
  forall pos : nat, Forall (fun r => (r < 0x80)%N) (map snd (rangeFrom 0 pos s)).
Proof.
  induction s as [|c s IH]; intros Hs pos; [constructor|].
  unfold isASCII in Hs. cbn [Strings.allBytes] in Hs.
  apply andb_true_iff in Hs as [Hc Hs].
  cbn [rangeFrom]. rewrite DecodeRuneInString_ascii by assumption.
  cbn [map snd Nat.sub]. constructor; [now apply N.ltb_lt | now apply IH].
Qed.

(** An ASCII rune in upper case is one byte, ASCII and not a lower-case
    letter. *)
Lemma upperCased_ascii (r : rune) :
  (r < 0x80)%N ->
  exists b : ascii,
    upperCased r = String b ""
    /\ (byteN b <? 0x80)%N = true /\ Strings.isLowerByte b = false.
Proof.
  intros Hr. unfold upperCased, Unicode.IsUpper, Unicode.ToUpper.
  assert (Hle : (r <=? 0x7F)%N = true) by (apply N.leb_le; lia). rewrite Hle.
  set (r' := if ((0x41 <=? r) && (r <=? 0x5A))%N then r
             else if ((0x61 <=? r) && (r <=? 0x7A))%N then (r - 0x20)%N else r).
  assert (Hr' : (r' < 0x80)%N /\ ~ (0x61 <= r' <= 0x7A)%N).
  { subst r'.
    destruct (N.leb_spec 0x41 r), (N.leb_spec r 0x5A),
             (N.leb_spec 0x61 r), (N.leb_spec r 0x7A); cbn; lia. }
  destruct Hr' as [Hascii Hnot].
  exists (byteOf r'). unfold EncodeRune.
  replace (r' <=? 0x7F)%N with true by (symmetry; apply N.leb_le; lia).
  split; [reflexivity|].
  unfold Strings.isLowerByte, inRange. rewrite byteN_byteOf by lia.
  split; [apply N.ltb_lt; lia|].
  apply andb_false_iff.
  destruct (N.leb_spec 0x61 r'); [right; apply N.leb_gt; lia | now left].
Qed.

Lemma derivedName_ascii (chars : list rune) :
  Forall (fun r => (r < 0x80)%N) chars ->
  forall previous : option rune,
    isASCII (derivedName previous chars) = true
    /\ noLower (derivedName previous chars) = true.
Proof.
  induction 1 as [|r rest Hr _ IH]; intros previous; [split; reflexivity|].
  cbn [derivedName]. unfold isASCII, noLower in *.
  destruct (upperCased_ascii r Hr) as (b & -> & Hascii & Hlower).
  destruct (IH (Some r)) as [IH1 IH2].
  rewrite !allBytes_app. cbn [Strings.allBytes].
  destruct (isTransition previous r); split;
    repeat (apply andb_true_iff; split);
    first [reflexivity | assumption | now rewrite Hlower].
Qed.

Lemma upperByte_ascii (b : ascii) :
  (byteN b <? 0x80)%N = true ->
  (byteN (Strings.upperByte b) <? 0x80)%N = true
  /\ Strings.isLowerByte (Strings.upperByte b) = false.
Proof.
  intros Hb. unfold Strings.upperByte.
  destruct (Strings.isLowerByte b) eqn:Hlower; [|auto].
  unfold Strings.isLowerByte, inRange in *.
  apply andb_true_iff in Hlower as [Hlo%N.leb_le Hhi%N.leb_le].
  rewrite byteN_byteOf by lia.
  split; [apply N.ltb_lt; lia|].
  apply andb_false_iff. left. apply N.leb_gt. lia.
Qed.

Lemma mapBytes_upperByte_ascii (s : string) :
  isASCII s = true ->
  isASCII (Strings.mapBytes Strings.upperByte s) = true
  /\ noLower (Strings.mapBytes Strings.upperByte s) = true.
Proof.
  unfold isASCII, noLower. induction s as [|c s IH]; intros Hs; [auto|].
  cbn [Strings.allBytes Strings.mapBytes] in *.
  apply andb_true_iff in Hs as [Hc Hs].
  destruct (upperByte_ascii c Hc) as [H1 H2], (IH Hs) as [IH1 IH2].
  now rewrite H1, H2, IH1, IH2.
Qed.

Lemma ToUpper_ascii (s : string) :
  isASCII s = true ->
  isASCII (Strings.ToUpper s) = true /\ noLower (Strings.ToUpper s) = true.
Proof.
  intros Hs. unfold Strings.ToUpper. fold (isASCII s). rewrite Hs.
  fold (noLower s). destruct (noLower s) eqn:Hlower; [auto|].
  now apply mapBytes_upperByte_ascii.
Qed.

Lemma camelToUpperSnakeCase_ascii (in_ prefix : string) :
  isASCII in_ = true -> isASCII prefix = true ->
  isASCII (camelToUpperSnakeCase in_ prefix) = true
  /\ noLower (camelToUpperSnakeCase in_ prefix) = true.
Proof.
  intros Hin Hprefix. rewrite camelToUpperSnakeCase_eq.
  destruct (ToUpper_ascii prefix Hprefix) as [Hp1 Hp2].
  destruct (derivedName_ascii _ (rangeFrom_ascii_bound in_ Hin 0) None) as [Hd1 Hd2].
  fold (rangeString in_) in Hd1, Hd2.
  destruct (decide (in_ = "")); [auto|].
  destruct (decide _); [auto|].
  unfold isASCII, noLower in *. rewrite !allBytes_app, Hp1, Hp2, Hd1, Hd2.
  split; reflexivity.
Qed.

(** X9.  For a name and a prefix made of ASCII bytes the derived key is
    made of ASCII bytes and holds no lower-case letter. *)
Theorem derived_key_of_ascii_is_upper_case (in_ prefix : string) :
  isASCII in_ = true -> isASCII prefix = true ->
  isASCII (camelToUpperSnakeCase in_ prefix) = true
  /\ noLower (camelToUpperSnakeCase in_ prefix) = true.
Proof. apply camelToUpperSnakeCase_ascii. Qed.

(** *** A field in a field, and one field with a longer name *)

Lemma ToUpper_fixed (s : string) :
  isASCII s = true -> noLower s = true -> Strings.ToUpper s = s.
Proof.
  intros Hascii Hlower. unfold Strings.ToUpper.
  fold (isASCII s). rewrite Hascii. fold (noLower s). now rewrite Hlower.
Qed.

Lemma derivedName_snoc (before after : list rune) (x : rune) :
  forall previous : option rune,
    derivedName previous (before ++ x :: after)%list
    = derivedName previous (before ++ [x])%list +:+ derivedName (Some x) after.
Proof.
  induction before as [|c before IH]; intros previous.
  - cbn [app derivedName]. now rewrite append_nil_r, !append_assoc.
  - cbn [app derivedName]. now rewrite IH, !append_assoc.
Qed.

Lemma IsUpper_byte (c : ascii) :
  (byteN c <? 0x80)%N = true -> Unicode.IsUpper (byteN c) = isUpperByte c.
Proof.
  intros Hc%N.ltb_lt. unfold Unicode.IsUpper, isUpperByte, inRange.
  now replace (byteN c <=? 0x7F)%N with true by (symmetry; apply N.leb_le; lia).
Qed.

Lemma isUpperByte_ascii (d : ascii) :
  isUpperByte d = true -> (byteN d <? 0x80)%N = true.
Proof.
  unfold isUpperByte, inRange.
  intros [_ Hhi%N.leb_le]%andb_true_iff. apply N.ltb_lt. lia.
Qed.

(** The runes of ASCII bytes followed by an ASCII byte and a string. *)
Lemma runes_ascii_snoc (a0 rest : string) (c : ascii) :
  isASCII (a0 +:+ String c "") = true ->
  map snd (rangeString ((a0 +:+ String c "") +:+ rest))
  = ((map snd (rangeString a0) ++ [byteN c]) ++ map snd (rangeString rest))%list
  /\ map snd (rangeString (a0 +:+ String c ""))
    = (map snd (rangeString a0) ++ [byteN c])%list.
Proof.
  intros Hascii.
  assert (Hparts : isASCII a0 = true /\ (byteN c <? 0x80)%N = true).
  { unfold isASCII in *. rewrite allBytes_app in Hascii.
    apply andb_true_iff in Hascii as [Ha Hc]. cbn [Strings.allBytes] in Hc.
    now rewrite andb_true_r in Hc. }
  destruct Hparts as [Ha Hc].
  assert (Hlast : map snd (rangeString (a0 +:+ String c ""))
                  = (map snd (rangeString a0) ++ [byteN c])%list).
  { unfold rangeString at 1. rewrite (rangeFrom_ascii_app _ _ Ha).
    unfold rangeString. cbn [rangeFrom].
    now rewrite DecodeRuneInString_ascii by assumption. }
  split; [|exact Hlast].
  unfold rangeString at 1. rewrite (rangeFrom_ascii_app _ _ Hascii).
  fold (rangeString (a0 +:+ String c "")). now rewrite Hlast.
Qed.

(** X10.  For ASCII names and an ASCII prefix: a field whose name starts
    with an upper-case letter, inside a field whose name ends with a byte
    that is not an upper-case letter, has the key of one field named by the
    two names put together ("Foo" holding "Bar" and "FooBar" both give
    FOO_BAR). *)
Theorem nested_field_key_is_joined_name_key
    (outer0 inner0 prefix : string) (c d : ascii) :
  isASCII (outer0 +:+ String c "") = true ->
  isASCII prefix = true ->
  isUpperByte c = false ->
  isUpperByte d = true ->
  camelToUpperSnakeCase (String d inner0)
    (camelToUpperSnakeCase (outer0 +:+ String c "") prefix)
  = camelToUpperSnakeCase ((outer0 +:+ String c "") +:+ String d inner0) prefix.
Proof.
  intros Houter Hprefix Hc Hd.
  destruct (camelToUpperSnakeCase_ascii _ _ Houter Hprefix) as [Hk1 Hk2].
  destruct (runes_ascii_snoc outer0 (String d inner0) c Houter) as [Hjoined Houter_runes].
  assert (Hcascii : (byteN c <? 0x80)%N = true).
  { unfold isASCII in Houter. rewrite allBytes_app in Houter.
    apply andb_true_iff in Houter as [_ Hc']. cbn [Strings.allBytes] in Hc'.
    now rewrite andb_true_r in Hc'. }
  pose proof (isUpperByte_ascii d Hd) as Hdascii.
  assert (Hinner : map snd (rangeString (String d inner0))
                   = byteN d :: map snd (rangeFrom 0 1 inner0)).
  { unfold rangeString. cbn [rangeFrom].
    now rewrite DecodeRuneInString_ascii by assumption. }
  rewrite (camelToUpperSnakeCase_eq (String d inner0)).
  rewrite (ToUpper_fixed _ Hk1 Hk2).
  destruct (decide (String d inner0 = "")) as [|_]; [discriminate|].
  destruct (decide (camelToUpperSnakeCase _ prefix = "")) as [Hnil|_].
  { apply camelToUpperSnakeCase_nil in Hnil as [Hnil _].
    destruct outer0; discriminate. }
  rewrite !camelToUpperSnakeCase_eq.
  destruct (decide (outer0 +:+ String c "" = "")) as [Hnil|_];
    [destruct outer0; discriminate|].
  destruct (decide ((outer0 +:+ String c "") +:+ String d inner0 = "")) as [Hnil|_];
    [destruct outer0; discriminate|].
  rewrite Hjoined, Houter_runes, Hinner.
  rewrite <- app_assoc. cbn [app].
  rewrite (derivedName_snoc (map snd (rangeString outer0))
             (byteN d :: map snd (rangeFrom 0 1 inner0)) (byteN c)).
  cbn [derivedName isTransition].
  rewrite !IsUpper_byte, Hc, Hd by assumption. cbn [negb andb].
  change ("" +:+ upperCased (byteN d) +:+ ?x) with (upperCased (byteN d) +:+ x).
  destruct (decide (Strings.ToUpper prefix = "")); now rewrite ?append_assoc.
Qed.

End NameDeriverMore.

(** ** Fields *)

Section FieldProperties.
Context `{tables : Unicode.CaseTables}.
Import Reflect.

Lemma loadFields_unsettable (rec : Value -> string -> Value * option Error)
    (environmentKey : string) (fields : list Field) :
  forall (i : nat) (f : Field),
    fields !! i = Some f -> CanSet f = false ->
    (loadFields rec environmentKey fields).1 !! i = Some f.
Proof.
  induction fields as [|[fieldName [|] field] rest IH]; intros i f Hi Hf;
    [discriminate| |].
  - rewrite loadFields_set. destruct i as [|i]; [injection Hi as <-; discriminate|].
    cbn in Hi.
    destruct (rec field _) as [field' [err|]]; [exact Hi|].
    specialize (IH i f Hi Hf).
    now destruct (loadFields rec environmentKey rest) as [rest' err].
  - rewrite loadFields_skip. specialize (IH (pred i) f).
    destruct (loadFields rec environmentKey rest) as [rest' err].
    destruct i as [|i]; [exact Hi | now apply IH].
Qed.

Lemma loadFields_loaded (rec : Value -> string -> Value * option Error)
    (environmentKey : string) (fields : list Field) :
  (loadFields rec environmentKey fields).2 = None ->
  forall (i : nat) (fieldName : string) (field : Value),
    fields !! i = Some (mkField fieldName true field) ->
    (loadFields rec environmentKey fields).1 !! i
    = Some (mkField fieldName true
              (rec field (camelToUpperSnakeCase fieldName environmentKey)).1)
    /\ (rec field (camelToUpperSnakeCase fieldName environmentKey)).2 = None.
Proof.
  induction fields as [|[name [|] value] rest IH]; intros Hok i fieldName field Hi;
    [discriminate| |].
  - rewrite loadFields_set in *.
    destruct (rec value _) as [value' [err|]] eqn:Hrec; [discriminate|].
    destruct (loadFields rec environmentKey rest) as [rest' err].
    destruct i as [|i].
    + injection Hi as -> ->. now rewrite Hrec.
    + now apply IH.
  - rewrite loadFields_skip in *.
    destruct (loadFields rec environmentKey rest) as [rest' err].
    destruct i as [|i]; [discriminate | now apply IH].
Qed.

(** X12.  After a call of [LoadFromEnvironment] on a struct that returns
    no error, a string field that can be set and whose derived key is in
    the environment holds the value of that variable. *)
Theorem loaded_string_field_holds_variable
    (env : gmap string string) (fields : list Field) (prefix : string)
    (i : nat) (fieldName default value : string) :
  (LoadFromEnvironment env (VStruct fields) prefix).2 = None ->
  fields !! i = Some (mkField fieldName true (VString default)) ->
  env !! camelToUpperSnakeCase fieldName prefix = Some value ->
  exists fields' : list Field,
    (LoadFromEnvironment env (VStruct fields) prefix).1 = VStruct fields'
    /\ fields' !! i = Some (mkField fieldName true (VString value)).
Proof.
  rewrite LoadFromEnvironment_eq, loadRecursive_eq. cbn [loadChildren].
  intros Hok Hi Hkey.
  pose proof (loadFields_loaded (loadRecursive env) prefix fields) as Hloop.
  destruct (loadFields _ _ _) as [fields' [err|]]; [discriminate|].
  destruct (Hloop eq_refl i fieldName (VString default) Hi) as [Hfield _].
  rewrite loadLeaf_composite by reflexivity. exists fields'. split; [reflexivity|].
  cbn [fst loadRecursive] in Hfield. unfold loadLeaf, LookupEnv in Hfield.
  now rewrite Hkey in Hfield.
Qed.

(** *** Integer leaves *)

Lemma wrap_range (bits x : Z) :
  (0 < bits)%Z ->
  (- 2 ^ (bits - 1) <= wrap bits x < 2 ^ (bits - 1))%Z.
Proof.
  intros Hbits. unfold wrap.
  assert (Hpow : (2 ^ bits = 2 * 2 ^ (bits - 1))%Z).
  { rewrite <- Z.pow_succ_r by lia. f_equal. lia. }
  assert (Hpos : (0 < 2 ^ (bits - 1))%Z) by (apply Z.pow_pos_nonneg; lia).
  pose proof (Z.mod_pos_bound x (2 ^ bits) ltac:(lia)) as Hmod.
  destruct (Z.ltb_spec (x mod 2 ^ bits) (2 ^ (bits - 1))); lia.
Qed.

Lemma loadLeaf_intsInRange (env : gmap string string) (val : Value) (environmentKey : string) :
  intsInRange val = true -> intsInRange (loadLeaf env val environmentKey).1 = true.
Proof.
  intros Hval. unfold loadLeaf, LookupEnv.
  destruct (env !! environmentKey) as [value|]; [|exact Hval].
  destruct val as [b|k old|s|fields|elems|elems|k]; try exact Hval; try reflexivity.
  - now destruct (Strconv.ParseBool value).
  - destruct (Strconv.Atoi value) as [n|]; [|exact Hval].
    cbn [fst SetInt intsInRange].
    pose proof (wrap_range (intBits k) n ltac:(destruct k; reflexivity)) as [Hlo Hhi].
    apply andb_true_iff. split; [now apply Z.leb_le | now apply Z.ltb_lt].
Qed.

Lemma loadFields_intsInRange (rec : Value -> string -> Value * option Error)
    (environmentKey : string) (fields : list Field) :
  Forall (fun f => forall key, intsInRange (fieldValue f) = true ->
                   intsInRange (rec (fieldValue f) key).1 = true) fields ->
  intsInRange (VStruct fields) = true ->
  intsInRange (VStruct (loadFields rec environmentKey fields).1) = true.
Proof.
  induction 1 as [|[fieldName [|] field] rest Hfield _ IH]; intros Hval.
  - reflexivity.
  - cbn [intsInRange forallb] in Hval. apply andb_true_iff in Hval as [Hhere Hrest].
    rewrite loadFields_set. cbn [fieldValue] in Hfield.
    specialize (Hfield (camelToUpperSnakeCase fieldName environmentKey) Hhere).
    specialize (IH Hrest).
    destruct (rec field _) as [field' [err|]]; cbn [fst] in *.
    + cbn [intsInRange forallb]. now rewrite Hfield.
    + destruct (loadFields rec environmentKey rest) as [rest' err].
      cbn [fst intsInRange forallb] in *. now rewrite Hfield.
  - cbn [intsInRange forallb] in Hval. apply andb_true_iff in Hval as [Hhere Hrest].
    rewrite loadFields_skip. specialize (IH Hrest).
    destruct (loadFields rec environmentKey rest) as [rest' err].
    cbn [fst intsInRange forallb] in *. now rewrite Hhere.
Qed.

Lemma loadElems_intsInRange (rec : Value -> string -> Value * option Error)
    (environmentKey : string) (elems : list Value) :
  Forall (fun elem => forall key, intsInRange elem = true ->
                      intsInRange (rec elem key).1 = true) elems ->
  forallb intsInRange elems = true ->
  forallb intsInRange (loadElems rec environmentKey elems).1 = true.
Proof.
  induction 1 as [|elem rest Helem _ IH]; intros Hval.
  - reflexivity.
  - cbn [forallb] in Hval. apply andb_true_iff in Hval as [Hhere Hrest].
    rewrite loadElems_cons. specialize (Helem environmentKey Hhere).
    specialize (IH Hrest).
    destruct (rec elem _) as [elem' [err|]]; cbn [fst] in *.
    + cbn [forallb]. now rewrite Helem.
    + destruct (loadElems rec environmentKey rest) as [rest' err].
      cbn [fst forallb] in *. now rewrite Helem.
Qed.

Lemma loadRecursive_intsInRange (env : gmap string string) (val : Value) :
  forall environmentKey : string,
    intsInRange val = true ->
    intsInRange (loadRecursive env val environmentKey).1 = true.
Proof.
  induction val as [b|k n|s|fields IH|elems IH|elems IH|k] using Value_ind';
    intros environmentKey Hval.
  1-3, 7: now apply loadLeaf_intsInRange.
  all: rewrite loadRecursive_eq; cbn [loadChildren].
  - pose proof (loadFields_intsInRange (loadRecursive env) environmentKey fields IH Hval)
      as Hloop.
    destruct (loadFields _ _ _) as [fields' [err|]]; cbn [fst] in *; [exact Hloop|].
    now rewrite loadLeaf_composite by reflexivity.
  - pose proof (loadElems_intsInRange (loadRecursive env) environmentKey elems IH Hval)
      as Hloop.
    destruct (loadElems _ _ _) as [elems' [err|]]; cbn [fst] in *; [exact Hloop|].
    now rewrite loadLeaf_composite by reflexivity.
  - pose proof (loadElems_intsInRange (loadRecursive env) environmentKey elems IH Hval)
      as Hloop.
    destruct (loadElems _ _ _) as [elems' [err|]]; cbn [fst] in *; [exact Hloop|].
    now rewrite loadLeaf_composite by reflexivity.
Qed.

(** X13.  Integer leaves stay within the range of their kind: if every
    integer leaf of the target holds a value of its kind before
    [LoadFromEnvironment], so it is after, whatever number the environment
    gives and whether or not the call fails. *)
Theorem integer_leaves_stay_in_range
    (env : gmap string string) (target : Value) (prefix : string) :
  intsInRange target = true ->
  intsInRange (LoadFromEnvironment env target prefix).1 = true.
Proof.
  rewrite LoadFromEnvironment_eq. apply loadRecursive_intsInRange.
Qed.

End FieldProperties.

(** ** The further properties at concrete targets *)

Section MoreInstances.
Import Reflect.
Local Existing Instance Unicode.asciiTables.

(** [HOME] is not the key of a node of the target. *)
Lemma loadRecursive_reads_node_keys_witness :
  let env : gmap string string := <[ "HOME" := "/root" ]> {[ "FOO_BAR" := "baz" ]} in
  let env' : gmap string string := {[ "FOO_BAR" := "baz" ]} in
  let val := VStruct [mkField "Foo" true (VStruct [mkField "Bar" true (VString "")])] in
  (forall k : string, k ∈ nodeKeys val "" -> env !! k = env' !! k)
  /\ loadRecursive env val "" = loadRecursive env' val "".
Proof.
  intros env env' val.
  assert (Hagree : forall k : string, k ∈ nodeKeys val "" -> env !! k = env' !! k).
  { intros k Hk. vm_compute in Hk.
    repeat (apply elem_of_cons in Hk as [->|Hk]; [reflexivity|]).
    now apply elem_of_nil in Hk. }
  split; [exact Hagree|].
  exact (loadRecursive_reads_node_keys env env' val "" Hagree).
Defined.

Lemma error_reports_present_node_key_witness :
  let env : gmap string string := {[ "FOO" := "abc123" ]} in
  let target := VStruct [mkField "Foo" true (VInt KInt 0)] in
  let err := IntError "FOO" (Strconv.mkNumError "Atoi" "abc123" Strconv.ErrSyntax) in
  (LoadFromEnvironment env target "").2 = Some err
  /\ errorKey err ∈ nodeKeys target "" /\ is_Some (env !! errorKey err).
Proof.
  intros env target err. split; [reflexivity|].
  exact (error_reports_present_node_key env target "" err eq_refl).
Defined.

Lemma unsetting_variables_keeps_success_witness :
  let env' : gmap string string := {[ "A" := "x" ]} in
  let env : gmap string string := <[ "B" := "1" ]> env' in
  let target := VStruct [mkField "A" true (VString ""); mkField "B" true (VInt KInt 0)] in
  env' ⊆ env
  /\ (LoadFromEnvironment env target "").2 = None
  /\ (LoadFromEnvironment env' target "").2 = None.
Proof.
  intros env' env target.
  assert (Hsub : env' ⊆ env) by (apply insert_subseteq; reflexivity).
  split; [exact Hsub|]. split; [reflexivity|].
  exact (unsetting_variables_keeps_success env env' target "" Hsub eq_refl).
Defined.

Lemma error_independent_of_defaults_witness :
  let env : gmap string string := {[ "FOO" := "abc123" ]} in
  let target := VStruct [mkField "Foo" true (VInt KInt 0)] in
  let target' := VStruct [mkField "Foo" true (VInt KInt 7)] in
  SameShape target target'
  /\ (LoadFromEnvironment env target "").2 = (LoadFromEnvironment env target' "").2.
Proof.
  intros env target target'.
  assert (Hshape : SameShape target target') by (repeat constructor).
  split; [exact Hshape|].
  exact (error_independent_of_defaults env target target' "" Hshape).
Defined.

Lemma derived_key_of_ascii_is_upper_case_witness :
  isASCII "fooBar" = true /\ isASCII "my_app" = true
  /\ isASCII (camelToUpperSnakeCase "fooBar" "my_app") = true
  /\ noLower (camelToUpperSnakeCase "fooBar" "my_app") = true.
Proof.
  split; [reflexivity|]. split; [reflexivity|].
  exact (derived_key_of_ascii_is_upper_case "fooBar" "my_app" eq_refl eq_refl).
Defined.

Lemma nested_field_key_is_joined_name_key_witness :
  camelToUpperSnakeCase "Bar" (camelToUpperSnakeCase "Foo" "app")
  = camelToUpperSnakeCase "FooBar" "app".
Proof.
  exact (nested_field_key_is_joined_name_key "Fo" "ar" "app" "o" "B"
           eq_refl eq_refl eq_refl eq_refl).
Defined.

Lemma loaded_string_field_holds_variable_witness :
  let env : gmap string string := {[ "FOO_BAR" := "baz" ]} in
  let fields := [mkField "FooBar" true (VString "")] in
  (LoadFromEnvironment env (VStruct fields) "").2 = None
  /\ env !! camelToUpperSnakeCase "FooBar" "" = Some "baz"
  /\ exists fields' : list Field,
      (LoadFromEnvironment env (VStruct fields) "").1 = VStruct fields'
      /\ fields' !! 0 = Some (mkField "FooBar" true (VString "baz")).
Proof.
  intros env fields. split; [reflexivity|]. split; [reflexivity|].
  exact (loaded_string_field_holds_variable env fields "" 0 "FooBar" "" "baz"
           eq_refl eq_refl eq_refl).
Defined.

(** [FOO=300] and an [int8] field. *)
Lemma integer_leaves_stay_in_range_witness :
  let env : gmap string string := {[ "FOO" := "300" ]} in
  let target := VStruct [mkField "Foo" true (VInt KInt8 0)] in
  intsInRange target = true
  /\ intsInRange (LoadFromEnvironment env target "").1 = true.
Proof.
  intros env target. split; [reflexivity|].
  exact (integer_leaves_stay_in_range env target "" eq_refl).
Defined.

End MoreInstances.

(** ** Sequences of leaves, prefixes, and two environments *)

Section CompositionProperties.
Context `{tables : Unicode.CaseTables}.
Import Reflect.

Lemma loadElems_leaves_absent (env : gmap string string)
    (environmentKey : string) (elems : list Value) :
  Forall (fun elem => isComposite elem = false) elems ->
  env !! environmentKey = None ->
  loadElems (loadRecursive env) environmentKey elems = (elems, None).
Proof.
  intros Hleaves Hkey. induction Hleaves as [|elem rest Hleaf _ IH]; [reflexivity|].
  now rewrite loadElems_cons, loadRecursive_leaf, loadLeaf_absent, IH.
Qed.

Lemma sequence_success_absent (env : gmap string string) (val : Value)
    (environmentKey : string) :
  isComposite val = true ->
  (loadRecursive env val environmentKey).2 = None ->
  env !! environmentKey = None.
Proof.
  intros Hval Hok. rewrite loadRecursive_eq in Hok.
  destruct (loadChildren_kind env val environmentKey) as [_ Hcomp].
  destruct (loadChildren env val environmentKey) as [val' [err|]]; [discriminate|].
  cbn [fst] in Hcomp. rewrite loadLeaf_composite in Hok by congruence.
  now destruct (env !! environmentKey).
Qed.

(** X14.  An array or a slice whose elements are leaves (strings, integers,
    booleans, ...) is never set by a call that succeeds: the elements are
    looked up under the key of the sequence, and a sequence whose key is in
    the environment makes the call fail. *)
Theorem sequence_of_leaves_unchanged_on_success
    (env : gmap string string) (elems : list Value) (environmentKey : string) :
  Forall (fun elem => isComposite elem = false) elems ->
  ((loadRecursive env (VSlice elems) environmentKey).2 = None ->
   loadRecursive env (VSlice elems) environmentKey = (VSlice elems, None))
  /\ ((loadRecursive env (VArray elems) environmentKey).2 = None ->
      loadRecursive env (VArray elems) environmentKey = (VArray elems, None)).
Proof.
  intros Hleaves.
  split; intros Hok; apply sequence_success_absent in Hok as Hkey; try reflexivity;
    cbn [loadRecursive];
    rewrite (loadElems_leaves_absent env environmentKey elems Hleaves Hkey);
    now apply loadLeaf_absent.
Qed.

(** X15.  The case of an ASCII prefix does not matter to the keys of the
    fields: the prefix and its upper case give the same derived key. *)
Theorem derived_key_ignores_prefix_case (in_ prefix : string) :
  isASCII prefix = true ->
  camelToUpperSnakeCase in_ (Strings.ToUpper prefix) = camelToUpperSnakeCase in_ prefix.
Proof.
  intros Hprefix. rewrite !camelToUpperSnakeCase_eq.
  destruct (ToUpper_ascii prefix Hprefix) as [H1 H2].
  now rewrite (ToUpper_fixed _ H1 H2).
Qed.

(** *** One environment on top of another *)

Lemma loadLeaf_union (env1 env2 : gmap string string) (val : Value) (environmentKey : string) :
  (loadLeaf env1 val environmentKey).2 = None ->
  (loadLeaf env2 val environmentKey).2 = None ->
  loadLeaf (env2 ∪ env1) val environmentKey
  = loadLeaf env2 (loadLeaf env1 val environmentKey).1 environmentKey.
Proof.
  unfold loadLeaf, LookupEnv. intros Hok1 Hok2.
  destruct (env2 !! environmentKey) as [value2|] eqn:Hkey2;
    [rewrite (lookup_union_Some_l _ _ _ _ Hkey2)
    |rewrite lookup_union_r by assumption];
    (destruct (env1 !! environmentKey) as [value1|]; [|reflexivity]);
    destruct val as [b|k old|s|fields|elems|elems|k];
    repeat first
      [ progress cbn [fst snd SetInt] in *
      | discriminate
      | reflexivity
      | match goal with
        | H : context [Strconv.ParseBool ?v] |- _ => destruct (Strconv.ParseBool v)
        | H : context [Strconv.Atoi ?v] |- _ => destruct (Strconv.Atoi v)
        end ].
Qed.

Lemma loadRecursive_success_shape (env env' : gmap string string)
    (val : Value) (environmentKey : string) :
  (loadRecursive env' val environmentKey).2 = None ->
  (loadRecursive env' (loadRecursive env val environmentKey).1 environmentKey).2 = None.
Proof.
  intros Hok.
  now rewrite <- (loadRecursive_defaults env' val _ environmentKey
                    (loadRecursive_SameShape env val environmentKey)).
Qed.

Lemma loadFields_union (env1 env2 : gmap string string)
    (environmentKey : string) (fields : list Field) :
  Forall (fun f => forall key,
              (loadRecursive env1 (fieldValue f) key).2 = None ->
              (loadRecursive env2 (fieldValue f) key).2 = None ->
              loadRecursive (env2 ∪ env1) (fieldValue f) key
              = loadRecursive env2 (loadRecursive env1 (fieldValue f) key).1 key)
         fields ->
  (loadFields (loadRecursive env1) environmentKey fields).2 = None ->
  (loadFields (loadRecursive env2) environmentKey fields).2 = None ->
  loadFields (loadRecursive (env2 ∪ env1)) environmentKey fields
  = loadFields (loadRecursive env2) environmentKey
      (loadFields (loadRecursive env1) environmentKey fields).1.
Proof.
  induction 1 as [|[fieldName [|] field] rest Hfield _ IH]; intros Hok1 Hok2.
  - reflexivity.
  - rewrite !loadFields_set in *. cbn [fieldValue] in Hfield.
    specialize (Hfield (camelToUpperSnakeCase fieldName environmentKey)).
    pose proof (loadRecursive_success_shape env1 env2 field
                  (camelToUpperSnakeCase fieldName environmentKey)) as Hagain.
    destruct (loadRecursive env1 field _) as [field1 [e|]]; [discriminate|].
    destruct (loadRecursive env2 field _) as [field2 [e|]]; [discriminate|].
    rewrite (Hfield eq_refl eq_refl). cbn [fst] in *.
    destruct (loadFields (loadRecursive env1) environmentKey rest) as [rest1 e1].
    destruct (loadFields (loadRecursive env2) environmentKey rest) as [rest2 e2].
    cbn [fst snd] in *. rewrite loadFields_set.
    destruct (loadRecursive env2 field1 _) as [field12 [e|]];
      [now specialize (Hagain eq_refl)|].
    now rewrite (IH Hok1 Hok2).
  - rewrite !loadFields_skip in *.
    destruct (loadFields (loadRecursive env1) environmentKey rest) as [rest1 e1].
    destruct (loadFields (loadRecursive env2) environmentKey rest) as [rest2 e2].
    cbn [fst snd] in *. now rewrite loadFields_skip, (IH Hok1 Hok2).
Qed.

Lemma loadElems_union (env1 env2 : gmap string string)
    (environmentKey : string) (elems : list Value) :
  Forall (fun elem => forall key,
              (loadRecursive env1 elem key).2 = None ->
              (loadRecursive env2 elem key).2 = None ->
              loadRecursive (env2 ∪ env1) elem key
              = loadRecursive env2 (loadRecursive env1 elem key).1 key)
         elems ->
  (loadElems (loadRecursive env1) environmentKey elems).2 = None ->
  (loadElems (loadRecursive env2) environmentKey elems).2 = None ->
  loadElems (loadRecursive (env2 ∪ env1)) environmentKey elems
  = loadElems (loadRecursive env2) environmentKey
      (loadElems (loadRecursive env1) environmentKey elems).1.
Proof.
  induction 1 as [|elem rest Helem _ IH]; intros Hok1 Hok2.
  - reflexivity.
  - rewrite !loadElems_cons in *. specialize (Helem environmentKey).
    pose proof (loadRecursive_success_shape env1 env2 elem environmentKey) as Hagain.
    destruct (loadRecursive env1 elem _) as [elem1 [e|]]; [discriminate|].
    destruct (loadRecursive env2 elem _) as [elem2 [e|]]; [discriminate|].
    rewrite (Helem eq_refl eq_refl). cbn [fst] in *.
    destruct (loadElems (loadRecursive env1) environmentKey rest) as [rest1 e1].
    destruct (loadElems (loadRecursive env2) environmentKey rest) as [rest2 e2].
    cbn [fst snd] in *. rewrite loadElems_cons.
    destruct (loadRecursive env2 elem1 _) as [elem12 [e|]];
      [now specialize (Hagain eq_refl)|].
    now rewrite (IH Hok1 Hok2).
Qed.

Lemma loadLeaf_composite_union (env1 env2 : gmap string string)
    (val val' val'' : Value) (environmentKey : string) :
  isComposite val = true -> isComposite val' = true -> isComposite val'' = true ->
  (loadLeaf env1 val environmentKey).2 = None ->
  (loadLeaf env2 val' environmentKey).2 = None ->
  loadLeaf (env2 ∪ env1) val'' environmentKey = (val'', None).
Proof.
  intros Hval Hval' Hval'' Hok1 Hok2.
  rewrite loadLeaf_composite in * by assumption. cbn [snd] in *.
  destruct (env1 !! environmentKey) eqn:Hkey1; [discriminate|].
  destruct (env2 !! environmentKey) eqn:Hkey2; [discriminate|].
  now rewrite lookup_union_r, Hkey1.
Qed.

Lemma loadRecursive_union (env1 env2 : gmap string string) (val : Value) :
  forall environmentKey : string,
    (loadRecursive env1 val environmentKey).2 = None ->
    (loadRecursive env2 val environmentKey).2 = None ->
    loadRecursive (env2 ∪ env1) val environmentKey
    = loadRecursive env2 (loadRecursive env1 val environmentKey).1 environmentKey.
Proof.
  induction val as [b|k n|s|fields IH|elems IH|elems IH|k] using Value_ind';
    intros environmentKey Hok1 Hok2.
  1-3, 7: cbn [loadRecursive] in *;
    rewrite loadRecursive_leaf by (now rewrite loadLeaf_isComposite);
    now apply loadLeaf_union.
  - pose proof (loadFields_union env1 env2 environmentKey fields IH) as Hloop.
    cbn [loadRecursive] in *.
    destruct (loadFields (loadRecursive env1) _ _) as [fields1 [e|]]; [discriminate|].
    destruct (loadFields (loadRecursive env2) _ _) as [fields2 [e|]]; [discriminate|].
    rewrite (Hloop eq_refl eq_refl). cbn [fst].
    rewrite (loadLeaf_composite env1 (VStruct fields1)) by reflexivity.
    cbn [fst loadRecursive].
    destruct (loadFields (loadRecursive env2) _ fields1) as [fields12 [e|]]; [reflexivity|].
    rewrite (loadLeaf_composite_union env1 env2 (VStruct fields1) (VStruct fields2)
               (VStruct fields12) environmentKey
               eq_refl eq_refl eq_refl Hok1 Hok2).
    rewrite loadLeaf_composite in Hok2 by reflexivity. cbn [snd] in Hok2.
    rewrite loadLeaf_composite by reflexivity.
    now destruct (env2 !! environmentKey).
  - pose proof (loadElems_union env1 env2 environmentKey elems IH) as Hloop.
    cbn [loadRecursive] in *.
    destruct (loadElems (loadRecursive env1) _ _) as [elems1 [e|]]; [discriminate|].
    destruct (loadElems (loadRecursive env2) _ _) as [elems2 [e|]]; [discriminate|].
    rewrite (Hloop eq_refl eq_refl). cbn [fst].
    rewrite (loadLeaf_composite env1 (VArray elems1)) by reflexivity.
    cbn [fst loadRecursive].
    destruct (loadElems (loadRecursive env2) _ elems1) as [elems12 [e|]]; [reflexivity|].
    rewrite (loadLeaf_composite_union env1 env2 (VArray elems1) (VArray elems2)
               (VArray elems12) environmentKey
               eq_refl eq_refl eq_refl Hok1 Hok2).
    rewrite loadLeaf_composite in Hok2 by reflexivity. cbn [snd] in Hok2.
    rewrite loadLeaf_composite by reflexivity.
    now destruct (env2 !! environmentKey).
  - pose proof (loadElems_union env1 env2 environmentKey elems IH) as Hloop.
    cbn [loadRecursive] in *.
    destruct (loadElems (loadRecursive env1) _ _) as [elems1 [e|]]; [discriminate|].
    destruct (loadElems (loadRecursive env2) _ _) as [elems2 [e|]]; [discriminate|].
    rewrite (Hloop eq_refl eq_refl). cbn [fst].
    rewrite (loadLeaf_composite env1 (VSlice elems1)) by reflexivity.
    cbn [fst loadRecursive].
    destruct (loadElems (loadRecursive env2) _ elems1) as [elems12 [e|]]; [reflexivity|].
    rewrite (loadLeaf_composite_union env1 env2 (VSlice elems1) (VSlice elems2)
               (VSlice elems12) environmentKey
               eq_refl eq_refl eq_refl Hok1 Hok2).
    rewrite loadLeaf_composite in Hok2 by reflexivity. cbn [snd] in Hok2.
    rewrite loadLeaf_composite by reflexivity.
    now destruct (env2 !! environmentKey).
Qed.

End CompositionProperties.

(** ** The prefix as a name space *)

Section PrefixProperties.
Context `{tables : Unicode.CaseTables}.
Import Reflect.

Lemma prefix_refl (s : string) : String.prefix s s = true.
Proof.
  induction s as [|c s IH]; [reflexivity|].
  cbn [String.prefix]. now destruct (ascii_dec c c).
Qed.

Lemma prefix_nil (s : string) : String.prefix "" s = true.
Proof. now destruct s. Qed.

Lemma prefix_append (a b : string) : String.prefix a (a +:+ b) = true.
Proof.
  induction a as [|c a IH]; [apply prefix_nil|].
  rewrite append_cons. cbn [String.prefix]. now destruct (ascii_dec c c).
Qed.

Lemma prefix_trans (a b c : string) :
  String.prefix a b = true -> String.prefix b c = true -> String.prefix a c = true.
Proof.
  revert b c. induction a as [|x a IH]; intros [|y b] [|z c]; cbn [String.prefix];
    try (reflexivity || discriminate).
  destruct (ascii_dec x y) as [->|]; [|discriminate].
  destruct (ascii_dec y z) as [->|]; [|discriminate].
  apply IH.
Qed.

(** The key derived below an ASCII key starts with the upper case of that
    key and is its own upper case. *)
Lemma derived_key_prefix (in_ environmentKey : string) :
  isASCII in_ = true -> isASCII environmentKey = true ->
  String.prefix (Strings.ToUpper environmentKey)
    (camelToUpperSnakeCase in_ environmentKey) = true
  /\ isASCII (camelToUpperSnakeCase in_ environmentKey) = true
  /\ Strings.ToUpper (camelToUpperSnakeCase in_ environmentKey)
    = camelToUpperSnakeCase in_ environmentKey.
Proof.
  intros Hin Hkey.
  destruct (camelToUpperSnakeCase_ascii in_ environmentKey Hin Hkey) as [H1 H2].
  split; [|split; [exact H1 | now apply ToUpper_fixed]].
  rewrite camelToUpperSnakeCase_eq.
  destruct (decide (in_ = "")); [apply prefix_refl|].
  destruct (decide (Strings.ToUpper environmentKey = "")) as [->|];
    [apply prefix_nil | apply prefix_append].
Qed.

Lemma nodeKeys_prefix (val : Value) :
  forall environmentKey : string,
    isASCII environmentKey = true ->
    namesASCII val = true ->
    forall k : string,
      k ∈ nodeKeys val environmentKey ->
      k = environmentKey \/ String.prefix (Strings.ToUpper environmentKey) k = true.
Proof.
  induction val as [b|kd n|s|fields IH|elems IH|elems IH|kd] using Value_ind';
    intros environmentKey Hkey Hnames k Hk.
  1-3, 7: left; now apply list_elem_of_singleton in Hk.
  - cbn [nodeKeys] in Hk. apply elem_of_app in Hk as [Hk|Hk];
      [|left; now apply list_elem_of_singleton in Hk].
    right. cbn [namesASCII] in Hnames.
    induction IH as [|[fieldName [|] field] rest Hfield _ IHrest];
      cbn [fieldKeys forallb] in *; [now apply elem_of_nil in Hk| |].
    + apply andb_true_iff in Hnames as [Hhere Hrest].
      cbn [negb orb] in Hhere. apply andb_true_iff in Hhere as [Hname Hfnames].
      apply elem_of_app in Hk as [Hk|Hk]; [|now apply IHrest].
      destruct (derived_key_prefix fieldName environmentKey Hname Hkey)
        as (Hpre & Hascii & Hfixed).
      cbn [fieldValue] in Hfield.
      destruct (Hfield _ Hascii Hfnames k Hk) as [->|Hsub]; [exact Hpre|].
      rewrite Hfixed in Hsub. exact (prefix_trans _ _ _ Hpre Hsub).
    + apply andb_true_iff in Hnames as [_ Hrest].
      cbn [app] in Hk. now apply IHrest.
  - cbn [nodeKeys] in Hk. apply elem_of_app in Hk as [Hk|Hk];
      [|left; now apply list_elem_of_singleton in Hk].
    cbn [namesASCII] in Hnames.
    induction IH as [|elem rest Helem _ IHrest];
      cbn [elemKeys forallb] in *; [now apply elem_of_nil in Hk|].
    apply andb_true_iff in Hnames as [Hhere Hrest].
    apply elem_of_app in Hk as [Hk|Hk]; [now apply Helem | now apply IHrest].
  - cbn [nodeKeys] in Hk. apply elem_of_app in Hk as [Hk|Hk];
      [|left; now apply list_elem_of_singleton in Hk].
    cbn [namesASCII] in Hnames.
    induction IH as [|elem rest Helem _ IHrest];
      cbn [elemKeys forallb] in *; [now apply elem_of_nil in Hk|].
    apply andb_true_iff in Hnames as [Hhere Hrest].
    apply elem_of_app in Hk as [Hk|Hk]; [now apply Helem | now apply IHrest].
Qed.

(** X17.  With an ASCII prefix and ASCII field names, every key of a node
    of the target is the prefix itself, as given, or starts with the upper
    case of the prefix. *)
Theorem keys_start_with_prefix (target : Value) (prefix k : string) :
  isASCII prefix = true ->
  namesASCII target = true ->
  k ∈ nodeKeys target prefix ->
  k = prefix \/ String.prefix (Strings.ToUpper prefix) k = true.
Proof. intros Hprefix Hnames. now apply nodeKeys_prefix. Qed.

End PrefixProperties.

(** ** These properties at concrete targets *)

Section CompositionInstances.
Import Reflect.
Local Existing Instance Unicode.asciiTables.

(** [FOO] is not set: the two strings of the slice stay. *)
Lemma sequence_of_leaves_unchanged_on_success_witness :
  let env : gmap string string := {[ "HOME" := "/root" ]} in
  let elems := [VString "a"; VString "b"] in
  Forall (fun elem => isComposite elem = false) elems
  /\ (loadRecursive env (VSlice elems) "FOO").2 = None
  /\ loadRecursive env (VSlice elems) "FOO" = (VSlice elems, None).
Proof.
  intros env elems.
  assert (Hleaves : Forall (fun elem => isComposite elem = false) elems)
    by (repeat constructor).
  split; [exact Hleaves|]. split; [reflexivity|].
  exact (proj1 (sequence_of_leaves_unchanged_on_success env elems "FOO" Hleaves) eq_refl).
Defined.

Lemma derived_key_ignores_prefix_case_witness :
  isASCII "foo" = true
  /\ camelToUpperSnakeCase "bar" (Strings.ToUpper "foo") = camelToUpperSnakeCase "bar" "foo".
Proof.
  split; [reflexivity|].
  exact (derived_key_ignores_prefix_case "bar" "foo" eq_refl).
Defined.

Lemma keys_start_with_prefix_witness :
  let target := VStruct [mkField "Foo" true (VStruct [mkField "Bar" true (VString "")])] in
  isASCII "app" = true
  /\ namesASCII target = true
  /\ "APP_FOO_BAR" ∈ nodeKeys target "app"
  /\ ("APP_FOO_BAR" = "app" \/ String.prefix (Strings.ToUpper "app") "APP_FOO_BAR" = true).
Proof.
  intros target.
  assert (Hin : "APP_FOO_BAR" ∈ nodeKeys target "app") by (vm_compute; constructor).
  split; [reflexivity|]. split; [reflexivity|]. split; [exact Hin|].
  exact (keys_start_with_prefix target "app" "APP_FOO_BAR" eq_refl eq_refl Hin).
Defined.

End CompositionInstances.

(** * The binder in memory *)

(** ** Places *)

Section Places.
Import Reflect.

Lemma sub_app (val : Shared.MValue) (path path' : list nat) :
  Shared.sub val (path ++ path')
  = (reached ← Shared.sub val path; Shared.sub reached path').
Proof.
  revert val. induction path as [|i path IH]; intros val; [reflexivity|].
  cbn [app Shared.sub]. destruct val as [| | |fields|elems| |]; try reflexivity.
  - destruct (fields !! i) as [[fieldName canSet field]|]; cbn; [apply IH | reflexivity].
  - destruct (elems !! i) as [elem|]; cbn; [apply IH | reflexivity].
Qed.

Lemma set_app (val reached new : Shared.MValue) (path path' : list nat) :
  Shared.sub val path = Some reached ->
  Shared.set val (path ++ path') new = Shared.set val path (Shared.set reached path' new).
Proof.
  revert val. induction path as [|i path IH]; intros val Hsub.
  - cbn in Hsub. injection Hsub as ->. reflexivity.
  - cbn [app Shared.sub Shared.set] in *.
    destruct val as [| | |fields|elems| |]; try discriminate; f_equal.
    + apply list_alter_ext; [|reflexivity]. intros [fieldName canSet field] Hi.
      rewrite Hi in Hsub. cbn in Hsub. now rewrite (IH field Hsub).
    + apply list_alter_ext; [|reflexivity]. intros elem Hi.
      rewrite Hi in Hsub. cbn in Hsub. now rewrite (IH elem Hsub).
Qed.

Lemma set_set (val first new : Shared.MValue) (path : list nat) :
  Shared.set (Shared.set val path first) path new = Shared.set val path new.
Proof.
  revert val. induction path as [|i path IH]; intros val; [reflexivity|].
  cbn [Shared.set]. destruct val as [| | |fields|elems| |]; try reflexivity;
    cbn [Shared.set]; f_equal; rewrite list_alter_alter_eq;
    apply list_alter_ext; try reflexivity.
  - intros [fieldName canSet field] _. cbn. now rewrite IH.
  - intros elem _. cbn. now rewrite IH.
Qed.

Lemma set_sub (val reached : Shared.MValue) (path : list nat) :
  Shared.sub val path = Some reached -> Shared.set val path reached = val.
Proof.
  revert val. induction path as [|i path IH]; intros val Hsub.
  - cbn in Hsub. injection Hsub as ->. reflexivity.
  - cbn [Shared.sub Shared.set] in *.
    destruct val as [| | |fields|elems| |]; try discriminate; f_equal.
    + rewrite <- (list_alter_id id fields i) at 2 by reflexivity.
      apply list_alter_ext; [|reflexivity]. intros [fieldName canSet field] Hi.
      rewrite Hi in Hsub. cbn in Hsub. now rewrite (IH field Hsub).
    + rewrite <- (list_alter_id id elems i) at 2 by reflexivity.
      apply list_alter_ext; [|reflexivity]. intros elem Hi.
      rewrite Hi in Hsub. cbn in Hsub. now rewrite (IH elem Hsub).
Qed.

Lemma sub_set (val old new : Shared.MValue) (path : list nat) :
  Shared.sub val path = Some old -> Shared.sub (Shared.set val path new) path = Some new.
Proof.
  revert val. induction path as [|i path IH]; intros val Hsub; [reflexivity|].
  cbn [Shared.sub Shared.set] in *.
  destruct val as [| | |fields|elems| |]; try discriminate; cbn [Shared.sub].
  - rewrite list_lookup_alter_eq.
    destruct (fields !! i) as [[fieldName canSet field]|]; [|discriminate].
    cbn in *. now apply IH.
  - rewrite list_lookup_alter_eq.
    destruct (elems !! i) as [elem|]; [|discriminate].
    cbn in *. now apply IH.
Qed.

(** Reading a place looks at the array of the place only, and writing to
    it changes that array only. *)
Lemma readAt_ext (mem mem' : Shared.Memory) (place : Shared.Place) :
  mem' !! Shared.array place = mem !! Shared.array place ->
  Shared.readAt mem' place = Shared.readAt mem place.
Proof. intros Hsame. unfold Shared.readAt, Shared.Memory in *. now rewrite Hsame. Qed.

Lemma writeAt_lookup_ne (mem : Shared.Memory) (place : Shared.Place)
    (new : Shared.MValue) (other : nat) :
  other <> Shared.array place -> Shared.writeAt mem place new !! other = mem !! other.
Proof.
  intros Hne. unfold Shared.writeAt, Shared.Memory in *.
  now rewrite list_lookup_alter_ne.
Qed.

Lemma writeAt_ext (mem mem' : Shared.Memory) (place : Shared.Place)
    (new : Shared.MValue) (other : nat) :
  mem' !! other = mem !! other ->
  Shared.writeAt mem' place new !! other = Shared.writeAt mem place new !! other.
Proof.
  intros Hsame. destruct (decide (other = Shared.array place)) as [->|Hne].
  - unfold Shared.writeAt, Shared.Memory in *.
    now rewrite !list_lookup_alter_eq, Hsame.
  - now rewrite !writeAt_lookup_ne.
Qed.

Lemma readAt_writeAt (mem : Shared.Memory) (place : Shared.Place)
    (old new : Shared.MValue) :
  Shared.readAt mem place = Some old ->
  Shared.readAt (Shared.writeAt mem place new) place = Some new.
Proof.
  intros Hread. unfold Shared.readAt, Shared.writeAt, Shared.Memory in *.
  rewrite list_lookup_alter_eq.
  destruct (mem !! Shared.array place) as [elems|]; [|discriminate]. cbn in *.
  rewrite list_lookup_alter_eq.
  destruct (elems !! Shared.index place) as [elem|]; [|discriminate]. cbn in *.
  now apply sub_set with (old := old).
Qed.

Lemma writeAt_writeAt (mem : Shared.Memory) (place : Shared.Place)
    (first new : Shared.MValue) :
  Shared.writeAt (Shared.writeAt mem place first) place new = Shared.writeAt mem place new.
Proof.
  unfold Shared.writeAt, Shared.Memory in *.
  rewrite list_alter_alter_eq. apply list_alter_ext; [|reflexivity].
  intros elems _. cbn. rewrite list_alter_alter_eq.
  apply list_alter_ext; [|reflexivity]. intros elem _. cbn. apply set_set.
Qed.

Lemma writeAt_id (mem : Shared.Memory) (place : Shared.Place) (val : Shared.MValue) :
  Shared.readAt mem place = Some val -> Shared.writeAt mem place val = mem.
Proof.
  intros Hread. unfold Shared.readAt, Shared.writeAt, Shared.Memory in *.
  rewrite <- (list_alter_id id mem (Shared.array place)) at 2 by reflexivity.
  apply list_alter_ext; [|reflexivity]. intros elems Helems.
  rewrite Helems in Hread. cbn in Hread.
  rewrite <- (list_alter_id id elems (Shared.index place)) at 2 by reflexivity.
  apply list_alter_ext; [|reflexivity]. intros elem Helem.
  rewrite Helem in Hread. cbn in Hread. now apply set_sub.
Qed.

Lemma writeAt_reached (mem : Shared.Memory) (place : Shared.Place)
    (reached new : Shared.MValue) (i : nat) :
  Shared.readAt mem place = Some reached ->
  Shared.writeAt mem (Shared.FieldAt place i) new
  = Shared.writeAt mem place (Shared.set reached [i] new).
Proof.
  intros Hread. unfold Shared.readAt, Shared.writeAt, Shared.FieldAt, Shared.Memory in *.
  cbn [Shared.array Shared.index Shared.path] in *.
  apply list_alter_ext; [|reflexivity]. intros elems Helems.
  rewrite Helems in Hread. cbn in Hread.
  apply list_alter_ext; [|reflexivity]. intros elem Helem.
  rewrite Helem in Hread. cbn in Hread. now apply set_app.
Qed.

Lemma readAt_FieldAt (mem : Shared.Memory) (place : Shared.Place) (i : nat) :
  Shared.readAt mem (Shared.FieldAt place i)
  = (reached ← Shared.readAt mem place; Shared.sub reached [i]).
Proof.
  unfold Shared.readAt, Shared.FieldAt, Shared.Memory in *.
  cbn [Shared.array Shared.index Shared.path].
  destruct (mem !! Shared.array place) as [elems|]; [|reflexivity]. cbn.
  destruct (elems !! Shared.index place) as [elem|]; [|reflexivity]. cbn.
  apply sub_app.
Qed.

End Places.

(** ** Targets without sharing *)

Section AgreementProperties.
Context `{tables : Unicode.CaseTables}.
Import Reflect.
Variable env : gmap string string.

Lemma Unshared_frames (mem mem' : Shared.Memory) :
  (forall mval val owned,
      Shared.Unshared mem mval val owned ->
      (forall array, array ∈ owned -> mem' !! array = mem !! array) ->
      Shared.Unshared mem' mval val owned)
  /\ (forall mfields fields owned,
        Shared.UnsharedFields mem mfields fields owned ->
        (forall array, array ∈ owned -> mem' !! array = mem !! array) ->
        Shared.UnsharedFields mem' mfields fields owned)
  /\ (forall melems elems owned,
        Shared.UnsharedElems mem melems elems owned ->
        (forall array, array ∈ owned -> mem' !! array = mem !! array) ->
        Shared.UnsharedElems mem' melems elems owned).
Proof.
  apply Shared.Unshared_mutind.
  - constructor.
  - constructor.
  - constructor.
  - constructor.
  - intros mfields fields owned _ IH Hsame. constructor. now apply IH.
  - intros melems elems owned _ IH Hsame. constructor. now apply IH.
  - intros array below window above elems owned Harray _ IH Hnotin Hsame.
    apply Shared.Unshared_slice with (above := above); [|apply IH|assumption].
    + rewrite Hsame by set_solver. assumption.
    + intros a Ha. apply Hsame. set_solver.
  - constructor.
  - intros fieldName canSet mfield field mrest rest owned owned' _ IH _ IHrest Hdisj Hsame.
    constructor; [apply IH|apply IHrest|assumption]; intros a Ha; apply Hsame; set_solver.
  - constructor.
  - intros melem elem mrest rest owned owned' _ IH _ IHrest Hdisj Hsame.
    constructor; [apply IH|apply IHrest|assumption]; intros a Ha; apply Hsame; set_solver.
Qed.

(** What is without sharing stays so when the memory changes outside its
    backing arrays. *)
Lemma Unshared_frame (mem mem' : Shared.Memory) (mval : Shared.MValue) (val : Value)
    (owned : gset nat) :
  Shared.Unshared mem mval val owned ->
  (forall array, array ∈ owned -> mem' !! array = mem !! array) ->
  Shared.Unshared mem' mval val owned.
Proof. apply Unshared_frames. Qed.

Lemma UnsharedFields_frame (mem mem' : Shared.Memory) (mfields : list Shared.MField)
    (fields : list Field) (owned : gset nat) :
  Shared.UnsharedFields mem mfields fields owned ->
  (forall array, array ∈ owned -> mem' !! array = mem !! array) ->
  Shared.UnsharedFields mem' mfields fields owned.
Proof. apply Unshared_frames. Qed.

Lemma UnsharedElems_frame (mem mem' : Shared.Memory) (melems : list Shared.MValue)
    (elems : list Value) (owned : gset nat) :
  Shared.UnsharedElems mem melems elems owned ->
  (forall array, array ∈ owned -> mem' !! array = mem !! array) ->
  Shared.UnsharedElems mem' melems elems owned.
Proof. apply Unshared_frames. Qed.

(** *** Fields and elements held in place *)

Lemma readAt_field (mem : Shared.Memory) (place : Shared.Place)
    (done rest : list Shared.MField) (fieldName : string) (canSet : bool)
    (field : Shared.MValue) :
  Shared.readAt mem place
  = Some (Shared.MStruct (done ++ Shared.mkMField fieldName canSet field :: rest)%list) ->
  Shared.readAt mem (Shared.FieldAt place (length done)) = Some field.
Proof.
  intros Hread. rewrite readAt_FieldAt, Hread. cbn.
  now rewrite list_lookup_middle by reflexivity.
Qed.

Lemma writeAt_field (mem : Shared.Memory) (place : Shared.Place)
    (done rest : list Shared.MField) (fieldName : string) (canSet : bool)
    (field new : Shared.MValue) :
  Shared.readAt mem place
  = Some (Shared.MStruct (done ++ Shared.mkMField fieldName canSet field :: rest)%list) ->
  Shared.writeAt mem (Shared.FieldAt place (length done)) new
  = Shared.writeAt mem place
      (Shared.MStruct (done ++ Shared.mkMField fieldName canSet new :: rest)%list).
Proof.
  intros Hread. rewrite (writeAt_reached _ _ _ _ _ Hread). f_equal.
  cbn [Shared.set]. f_equal.
  rewrite <- (Nat.add_0_r (length done)). now rewrite alter_app_r.
Qed.

Lemma readAt_elem (mem : Shared.Memory) (place : Shared.Place)
    (done rest : list Shared.MValue) (elem : Shared.MValue) :
  Shared.readAt mem place = Some (Shared.MArray (done ++ elem :: rest)%list) ->
  Shared.readAt mem (Shared.FieldAt place (length done)) = Some elem.
Proof.
  intros Hread. rewrite readAt_FieldAt, Hread. cbn.
  now rewrite list_lookup_middle by reflexivity.
Qed.

Lemma writeAt_elem (mem : Shared.Memory) (place : Shared.Place)
    (done rest : list Shared.MValue) (elem new : Shared.MValue) :
  Shared.readAt mem place = Some (Shared.MArray (done ++ elem :: rest)%list) ->
  Shared.writeAt mem (Shared.FieldAt place (length done)) new
  = Shared.writeAt mem place (Shared.MArray (done ++ new :: rest)%list).
Proof.
  intros Hread. rewrite (writeAt_reached _ _ _ _ _ Hread). f_equal.
  cbn [Shared.set]. f_equal.
  rewrite <- (Nat.add_0_r (length done)). now rewrite alter_app_r.
Qed.

(** *** Elements of a backing array *)

Lemma readAt_slice_elem (mem : Shared.Memory) (array : nat)
    (below above : list Shared.MValue) (elem : Shared.MValue) :
  mem !! array = Some (below ++ elem :: above)%list ->
  Shared.readAt mem (Shared.mkPlace array (length below) []) = Some elem.
Proof.
  intros Harray. unfold Shared.readAt, Shared.Memory in *. cbn. rewrite Harray. cbn.
  now rewrite list_lookup_middle by reflexivity.
Qed.

Lemma writeAt_slice_elem (mem : Shared.Memory) (array : nat)
    (below above : list Shared.MValue) (elem new : Shared.MValue) :
  mem !! array = Some (below ++ elem :: above)%list ->
  Shared.writeAt mem (Shared.mkPlace array (length below) []) new !! array
  = Some (below ++ new :: above)%list.
Proof.
  intros Harray. unfold Shared.writeAt, Shared.Memory in *. cbn.
  rewrite list_lookup_alter_eq, Harray. cbn. f_equal.
  rewrite <- (Nat.add_0_r (length below)). now rewrite alter_app_r.
Qed.

(** *** The loops *)

Lemma loadFields_unshared (depth : nat) (environmentKey : string) (place : Shared.Place)
    (fields : list Field) :
  Forall (fun f => loadsAsOnTree env depth (fieldValue f)) fields ->
  forall (mem : Shared.Memory) (done mfields : list Shared.MField) (owned : gset nat),
    Shared.readAt mem place = Some (Shared.MStruct (done ++ mfields)%list) ->
    Shared.UnsharedFields mem mfields fields owned ->
    Shared.array place ∉ owned ->
    exists (mem' : Shared.Memory) (mfields' : list Shared.MField),
      Shared.loadFields (Shared.loadRecursive env depth) environmentKey place mem
        (length done) mfields
      = Some (mem', (loadFields (loadRecursive env) environmentKey fields).2)
      /\ Shared.UnsharedFields mem' mfields'
           (loadFields (loadRecursive env) environmentKey fields).1 owned
      /\ forall other : nat,
          other ∉ owned ->
          mem' !! other
          = Shared.writeAt mem place (Shared.MStruct (done ++ mfields')%list) !! other.
Proof.
  induction 1 as [|[fieldName canSet field] rest Hfield _ IH];
    intros mem done mfields owned Hread Hrep Hplace; inversion Hrep; subst.
  - exists mem, []. repeat split; [constructor|].
    intros other _. now rewrite (writeAt_id _ _ _ Hread).
  - match goal with
    | Hf : Shared.Unshared _ ?mfield field ?o1, Hr : Shared.UnsharedFields _ ?mrest rest ?o2,
      Hd : ?o1 ## ?o2 |- _ =>
      rename Hf into Hone, Hr into Hrest, Hd into Hdisj, o1 into owned1, o2 into owned2,
        mfield into mfield0, mrest into mrest0
    end.
    cbn [fieldValue] in Hfield. destruct canSet.
    + rewrite loadFields_set.
      destruct (Hfield mem (Shared.FieldAt place (length done)) mfield0 owned1
                  (camelToUpperSnakeCase fieldName environmentKey))
        as (mem1 & mfield' & Hrun & Hone' & Hout1);
        [now apply readAt_field with (1 := Hread) | assumption | cbn; set_solver |].
      rewrite (writeAt_field _ _ _ _ _ _ _ mfield' Hread) in Hout1.
      cbn [Shared.loadFields negb]. rewrite Hrun. cbn [mbind option_bind].
      assert (Hrest1 : Shared.UnsharedFields mem1 mrest0 rest owned2).
      { apply (UnsharedFields_frame mem); [assumption|].
        intros a Ha. rewrite Hout1 by set_solver. apply writeAt_lookup_ne. set_solver. }
      destruct (loadRecursive env field _) as [field' [err|]]; cbn [fst snd] in *.
      * exists mem1, (Shared.mkMField fieldName true mfield' :: mrest0). repeat split.
        -- constructor; assumption.
        -- intros other Hother. apply Hout1. set_solver.
      * assert (Hread1 : Shared.readAt mem1 place
                         = Some (Shared.MStruct
                                   ((done ++ [Shared.mkMField fieldName true mfield'])
                                    ++ mrest0)%list)).
        { rewrite (readAt_ext _ _ _ (Hout1 (Shared.array place) ltac:(set_solver))).
          rewrite <- app_assoc. now apply readAt_writeAt with (1 := Hread). }
        destruct (IH mem1 (done ++ [Shared.mkMField fieldName true mfield'])%list mrest0
                    owned2 Hread1 Hrest1 ltac:(set_solver))
          as (mem2 & mrest' & Hloop & Hrest' & Hout2).
        fold (Shared.loadFields (Shared.loadRecursive env depth) environmentKey place).
        rewrite length_app, Nat.add_1_r in Hloop. rewrite Hloop.
        destruct (loadFields (loadRecursive env) environmentKey rest) as [rest' err'];
          cbn [fst snd] in *.
        exists mem2, (Shared.mkMField fieldName true mfield' :: mrest'). repeat split.
        -- constructor; [|assumption|assumption].
           apply (Unshared_frame mem1); [assumption|].
           intros a Ha. rewrite Hout2 by set_solver. apply writeAt_lookup_ne. set_solver.
        -- intros other Hother. rewrite Hout2 by set_solver.
           rewrite (writeAt_ext _ _ _ _ _ (Hout1 other ltac:(set_solver))).
           rewrite writeAt_writeAt. now rewrite <- app_assoc.
    + rewrite loadFields_skip. cbn [Shared.loadFields negb].
      assert (Hread1 : Shared.readAt mem place
                       = Some (Shared.MStruct
                                 ((done ++ [Shared.mkMField fieldName false mfield0])
                                  ++ mrest0)%list)).
      { now rewrite <- app_assoc. }
      destruct (IH mem (done ++ [Shared.mkMField fieldName false mfield0])%list mrest0
                  owned2 Hread1 Hrest ltac:(set_solver))
        as (mem2 & mrest' & Hloop & Hrest' & Hout2).
      fold (Shared.loadFields (Shared.loadRecursive env depth) environmentKey place).
      rewrite length_app, Nat.add_1_r in Hloop. rewrite Hloop.
      destruct (loadFields (loadRecursive env) environmentKey rest) as [rest' err'];
        cbn [fst snd] in *.
      exists mem2, (Shared.mkMField fieldName false mfield0 :: mrest'). repeat split.
      * constructor; [|assumption|assumption].
        apply (Unshared_frame mem); [assumption|].
        intros a Ha. rewrite Hout2 by set_solver. apply writeAt_lookup_ne. set_solver.
      * intros other Hother. rewrite Hout2 by set_solver. now rewrite <- app_assoc.
Qed.

Lemma loadElems_array_unshared (depth : nat) (environmentKey : string)
    (place : Shared.Place) (all : list Shared.MValue) (elems : list Value) :
  Forall (fun elem => loadsAsOnTree env depth elem) elems ->
  forall (mem : Shared.Memory) (done melems : list Shared.MValue) (owned : gset nat),
    Shared.readAt mem place = Some (Shared.MArray (done ++ melems)%list) ->
    Shared.UnsharedElems mem melems elems owned ->
    Shared.array place ∉ owned ->
    exists (mem' : Shared.Memory) (melems' : list Shared.MValue),
      Shared.loadElems (Shared.loadRecursive env depth) environmentKey (Shared.MArray all)
        place mem (length done) (length melems)
      = Some (mem', (loadElems (loadRecursive env) environmentKey elems).2)
      /\ Shared.UnsharedElems mem' melems'
           (loadElems (loadRecursive env) environmentKey elems).1 owned
      /\ forall other : nat,
          other ∉ owned ->
          mem' !! other
          = Shared.writeAt mem place (Shared.MArray (done ++ melems')%list) !! other.
Proof.
  induction 1 as [|elem rest Helem _ IH];
    intros mem done melems owned Hread Hrep Hplace; inversion Hrep; subst.
  - exists mem, []. repeat split; [constructor|].
    intros other _. now rewrite (writeAt_id _ _ _ Hread).
  - match goal with
    | Hf : Shared.Unshared _ ?melem elem ?o1, Hr : Shared.UnsharedElems _ ?mrest rest ?o2,
      Hd : ?o1 ## ?o2 |- _ =>
      rename Hf into Hone, Hr into Hrest, Hd into Hdisj, o1 into owned1, o2 into owned2,
        melem into melem0, mrest into mrest0
    end.
    rewrite loadElems_cons.
    destruct (Helem mem (Shared.FieldAt place (length done)) melem0 owned1 environmentKey)
      as (mem1 & melem' & Hrun & Hone' & Hout1);
      [now apply readAt_elem with (1 := Hread) | assumption | cbn; set_solver |].
    rewrite (writeAt_elem _ _ _ _ _ melem' Hread) in Hout1.
    cbn [Shared.loadElems Shared.IndexAt length]. rewrite Hrun. cbn [mbind option_bind].
    assert (Hrest1 : Shared.UnsharedElems mem1 mrest0 rest owned2).
    { apply (UnsharedElems_frame mem); [assumption|].
      intros a Ha. rewrite Hout1 by set_solver. apply writeAt_lookup_ne. set_solver. }
    destruct (loadRecursive env elem _) as [elem' [err|]]; cbn [fst snd] in *.
    + exists mem1, (melem' :: mrest0). repeat split.
      * constructor; assumption.
      * intros other Hother. apply Hout1. set_solver.
    + assert (Hread1 : Shared.readAt mem1 place
                       = Some (Shared.MArray ((done ++ [melem']) ++ mrest0)%list)).
      { rewrite (readAt_ext _ _ _ (Hout1 (Shared.array place) ltac:(set_solver))).
        rewrite <- app_assoc. now apply readAt_writeAt with (1 := Hread). }
      destruct (IH mem1 (done ++ [melem'])%list mrest0 owned2 Hread1 Hrest1
                  ltac:(set_solver))
        as (mem2 & mrest' & Hloop & Hrest' & Hout2).
      fold (Shared.loadElems (Shared.loadRecursive env depth) environmentKey
              (Shared.MArray all) place).
      rewrite length_app, Nat.add_1_r in Hloop. rewrite Hloop.
      destruct (loadElems (loadRecursive env) environmentKey rest) as [rest' err'];
        cbn [fst snd] in *.
      exists mem2, (melem' :: mrest'). repeat split.
      * constructor; [|assumption|assumption].
        apply (Unshared_frame mem1); [assumption|].
        intros a Ha. rewrite Hout2 by set_solver. apply writeAt_lookup_ne. set_solver.
      * intros other Hother. rewrite Hout2 by set_solver.
        rewrite (writeAt_ext _ _ _ _ _ (Hout1 other ltac:(set_solver))).
        rewrite writeAt_writeAt. now rewrite <- app_assoc.
Qed.

Lemma loadElems_slice_unshared (depth : nat) (environmentKey : string)
    (place : Shared.Place) (array low len : nat) (elems : list Value) :
  Forall (fun elem => loadsAsOnTree env depth elem) elems ->
  forall (mem : Shared.Memory) (below window above : list Shared.MValue)
         (owned : gset nat) (j : nat),
    low + j = length below ->
    mem !! array = Some (below ++ window ++ above)%list ->
    Shared.UnsharedElems mem window elems owned ->
    array ∉ owned ->
    exists (mem' : Shared.Memory) (window' : list Shared.MValue),
      Shared.loadElems (Shared.loadRecursive env depth) environmentKey
        (Shared.MSlice array low len) place mem j (length window)
      = Some (mem', (loadElems (loadRecursive env) environmentKey elems).2)
      /\ mem' !! array = Some (below ++ window' ++ above)%list
      /\ length window' = length window
      /\ Shared.UnsharedElems mem' window'
           (loadElems (loadRecursive env) environmentKey elems).1 owned
      /\ forall other : nat,
          other <> array -> other ∉ owned -> mem' !! other = mem !! other.
Proof.
  induction 1 as [|elem rest Helem _ IH];
    intros mem below window above owned j Hlow Harray Hrep Hnotin; inversion Hrep; subst.
  - exists mem, []. repeat split; [assumption | constructor].
  - match goal with
    | Hf : Shared.Unshared _ ?melem elem ?o1, Hr : Shared.UnsharedElems _ ?mrest rest ?o2,
      Hd : ?o1 ## ?o2 |- _ =>
      rename Hf into Hone, Hr into Hrest, Hd into Hdisj, o1 into owned1, o2 into owned2,
        melem into melem0, mrest into mrest0
    end.
    rewrite loadElems_cons. rewrite <- app_comm_cons in Harray.
    destruct (Helem mem (Shared.mkPlace array (length below) []) melem0 owned1
                environmentKey)
      as (mem1 & melem' & Hrun & Hone' & Hout1);
      [now apply readAt_slice_elem with (1 := Harray) | assumption | cbn; set_solver |].
    cbn [Shared.loadElems Shared.IndexAt length]. rewrite Hlow, Hrun.
    cbn [mbind option_bind].
    assert (Harray1 : mem1 !! array = Some (below ++ melem' :: mrest0 ++ above)%list).
    { rewrite Hout1 by set_solver. now apply writeAt_slice_elem with (1 := Harray). }
    assert (Hsame1 : forall other, other <> array -> other ∉ owned1 ->
                                   mem1 !! other = mem !! other).
    { intros other Hne Hother. rewrite Hout1 by assumption. now apply writeAt_lookup_ne. }
    assert (Hrest1 : Shared.UnsharedElems mem1 mrest0 rest owned2).
    { apply (UnsharedElems_frame mem); [assumption|].
      intros a Ha. apply Hsame1; set_solver. }
    destruct (loadRecursive env elem _) as [elem' [err|]]; cbn [fst snd] in *.
    + exists mem1, (melem' :: mrest0). repeat split.
      * assumption.
      * constructor; assumption.
      * intros other Hne Hother. apply Hsame1; set_solver.
    + destruct (IH mem1 (below ++ [melem'])%list mrest0 above owned2 (S j))
        as (mem2 & mrest' & Hloop & Harray2 & Hlen & Hrest' & Hout2).
      { rewrite length_app. cbn. lia. }
      { now rewrite <- app_assoc. }
      { assumption. }
      { set_solver. }
      fold (Shared.loadElems (Shared.loadRecursive env depth) environmentKey
              (Shared.MSlice array low len) place).
      rewrite Hloop.
      destruct (loadElems (loadRecursive env) environmentKey rest) as [rest' err'];
        cbn [fst snd] in *.
      exists mem2, (melem' :: mrest'). repeat split.
      * now rewrite <- app_assoc in Harray2.
      * cbn. now rewrite Hlen.
      * constructor; [|assumption|assumption].
        apply (Unshared_frame mem1); [assumption|].
        intros a Ha. apply Hout2; set_solver.
      * intros other Hne Hother. rewrite Hout2 by set_solver. apply Hsame1; set_solver.
Qed.

(** *** The block of the leaf nodes *)

Lemma loadLeaf_unshared (mem : Shared.Memory) (place : Shared.Place)
    (mval : Shared.MValue) (val : Value) (owned : gset nat) (environmentKey : string) :
  isComposite val = false ->
  Shared.readAt mem place = Some mval ->
  Shared.Unshared mem mval val owned ->
  exists mval' : Shared.MValue,
    Shared.loadLeaf env mem place mval environmentKey
    = (Shared.writeAt mem place mval', (loadLeaf env val environmentKey).2)
    /\ forall mem' : Shared.Memory,
        Shared.Unshared mem' mval' (loadLeaf env val environmentKey).1 owned.
Proof.
  intros Hleaf Hread Hrep. unfold Shared.loadLeaf, loadLeaf.
  inversion Hrep; subst; try discriminate;
    (destruct (LookupEnv env environmentKey) as [environmentValue|];
     [|eexists; split;
       [now rewrite (writeAt_id _ _ _ Hread) | intros mem'; constructor]]).
  - destruct (Strconv.ParseBool environmentValue); eexists; (split;
      [first [reflexivity | now rewrite (writeAt_id _ _ _ Hread)]
      | intros mem'; constructor]).
  - destruct (Strconv.Atoi environmentValue); eexists; (split;
      [first [reflexivity | now rewrite (writeAt_id _ _ _ Hread)]
      | intros mem'; constructor]).
  - eexists; split; [reflexivity | intros mem'; constructor].
  - eexists; split;
      [now rewrite (writeAt_id _ _ _ Hread) | intros mem'; constructor].
Qed.

Lemma loadLeaf_composite_mem (mem : Shared.Memory) (place : Shared.Place)
    (mval : Shared.MValue) (val : Value) (environmentKey : string) :
  isComposite val = true ->
  Shared.Kind_of mval = Kind_of val ->
  (match mval with
   | Shared.MStruct _ | Shared.MArray _ | Shared.MSlice _ _ _ => True
   | _ => False
   end) ->
  Shared.loadLeaf env mem place mval environmentKey
  = (mem, (loadLeaf env val environmentKey).2).
Proof.
  intros Hcomp Hkind Hmval. rewrite loadLeaf_composite by assumption.
  unfold Shared.loadLeaf, LookupEnv. cbn [snd].
  destruct (env !! environmentKey); [|reflexivity].
  destruct mval; try contradiction; cbn in *; now rewrite Hkind.
Qed.

(** *** The calls *)

Lemma fieldsHeight_Forall (P : nat -> Value -> Prop) (fields : list Field) (depth : nat) :
  Forall (fun f => forall depth, Shared.height (fieldValue f) < depth ->
                                 P depth (fieldValue f)) fields ->
  Shared.fieldsHeight Shared.height fields < depth ->
  Forall (fun f => P depth (fieldValue f)) fields.
Proof.
  induction 1 as [|[fieldName canSet field] rest Hfield _ IH]; intros Hdepth;
    constructor; cbn [Shared.fieldsHeight fieldValue] in *.
  - apply Hfield. lia.
  - apply IH. lia.
Qed.

Lemma elemsHeight_Forall (P : nat -> Value -> Prop) (elems : list Value) (depth : nat) :
  Forall (fun elem => forall depth, Shared.height elem < depth -> P depth elem) elems ->
  Shared.elemsHeight Shared.height elems < depth ->
  Forall (fun elem => P depth elem) elems.
Proof.
  induction 1 as [|elem rest Helem _ IH]; intros Hdepth;
    constructor; cbn [Shared.elemsHeight] in *.
  - apply Helem. lia.
  - apply IH. lia.
Qed.

Lemma UnsharedElems_length (mem : Shared.Memory) (melems : list Shared.MValue)
    (elems : list Value) (owned : gset nat) :
  Shared.UnsharedElems mem melems elems owned -> length melems = length elems.
Proof.
  revert melems owned. induction elems as [|elem rest IH]; intros melems owned H;
    inversion H; subst; [reflexivity|].
  cbn. f_equal. eauto.
Qed.

(** On a target without sharing, [Shared.loadRecursive] does what
    [loadRecursive] does on the tree, once [depth] allows for the calls
    nested in one another. *)
Lemma loadRecursive_unshared (val : Value) :
  forall depth : nat, Shared.height val < depth -> loadsAsOnTree env depth val.
Proof.
  induction val as [b|k n|s|fields IH|elems IH|elems IH|k] using Value_ind';
    intros [|depth] Hdepth mem place mval owned environmentKey Hread Hrep Hplace;
    try lia; cbn [Shared.height] in Hdepth.
  1-3,7: (match type of Hrep with
          | Shared.Unshared _ _ ?val _ =>
            destruct (loadLeaf_unshared mem place mval val owned environmentKey
                        eq_refl Hread Hrep) as (mval' & Hleaf & Hrep')
          end;
          cbn [Shared.loadRecursive loadRecursive]; rewrite Hread; cbn [mbind option_bind];
          inversion Hrep; subst; cbn [mbind option_bind]; rewrite Hleaf;
          exists (Shared.writeAt mem place mval'), mval'; repeat split; apply Hrep').
  - inversion Hrep as [| | | |mfields fields0 owned0 Hfields| |]; subst.
    apply (fieldsHeight_Forall (loadsAsOnTree env)) with (depth := depth) in IH; [|lia].
    destruct (loadFields_unshared depth environmentKey place fields IH mem [] mfields owned
                Hread Hfields Hplace)
      as (mem1 & mfields' & Hloop & Hfields' & Hout).
    cbn [Shared.loadRecursive loadRecursive]. rewrite Hread. cbn [mbind option_bind].
    cbn [length] in Hloop. rewrite Hloop. cbn [mbind option_bind app] in *.
    exists mem1, (Shared.MStruct mfields').
    destruct (loadFields (loadRecursive env) environmentKey fields) as [fields' [err|]];
      cbn [fst snd] in *.
    + repeat split; [now constructor | assumption].
    + rewrite (loadLeaf_composite_mem mem1 place _ (VStruct fields') environmentKey)
        by reflexivity.
      rewrite loadLeaf_composite by reflexivity.
      repeat split; [now constructor | assumption].
  - inversion Hrep as [| | | | |melems elems0 owned0 Helems|]; subst.
    apply (elemsHeight_Forall (loadsAsOnTree env)) with (depth := depth) in IH; [|lia].
    destruct (loadElems_array_unshared depth environmentKey place melems elems IH mem []
                melems owned Hread Helems Hplace)
      as (mem1 & melems' & Hloop & Helems' & Hout).
    cbn [Shared.loadRecursive loadRecursive]. rewrite Hread. cbn [mbind option_bind].
    cbn [length Shared.Len] in *. rewrite Hloop. cbn [mbind option_bind app] in *.
    exists mem1, (Shared.MArray melems').
    destruct (loadElems (loadRecursive env) environmentKey elems) as [elems' [err|]];
      cbn [fst snd] in *.
    + repeat split; [now constructor | assumption].
    + rewrite (loadLeaf_composite_mem mem1 place _ (VArray elems') environmentKey)
        by reflexivity.
      rewrite loadLeaf_composite by reflexivity.
      repeat split; [now constructor | assumption].
  - inversion Hrep as [| | | | | |array below window above elems0 owned0 Harray Helems Hnotin];
      subst.
    apply (elemsHeight_Forall (loadsAsOnTree env)) with (depth := depth) in IH; [|lia].
    destruct (loadElems_slice_unshared depth environmentKey place array (length below)
                (length window) elems IH mem below window above owned0 0
                ltac:(lia) Harray Helems Hnotin)
      as (mem1 & window' & Hloop & Harray' & Hlen & Helems' & Hout).
    cbn [Shared.loadRecursive loadRecursive]. rewrite Hread. cbn [mbind option_bind].
    cbn [Shared.Len]. rewrite Hloop. cbn [mbind option_bind].
    exists mem1, (Shared.MSlice array (length below) (length window)).
    assert (Hrep' : Shared.Unshared mem1
                      (Shared.MSlice array (length below) (length window))
                      (VSlice (loadElems (loadRecursive env) environmentKey elems).1)
                      ({[ array ]} ∪ owned0)).
    { rewrite <- Hlen. now apply Shared.Unshared_slice with (above := above). }
    assert (Hout' : forall other : nat,
               other ∉ ({[ array ]} ∪ owned0 : gset nat) ->
               mem1 !! other
               = Shared.writeAt mem place
                   (Shared.MSlice array (length below) (length window)) !! other).
    { intros other Hother. rewrite (writeAt_id _ _ _ Hread). apply Hout; set_solver. }
    destruct (loadElems (loadRecursive env) environmentKey elems) as [elems' [err|]];
      cbn [fst snd] in *.
    + repeat split; assumption.
    + rewrite (loadLeaf_composite_mem mem1 place _ (VSlice elems') environmentKey)
        by reflexivity.
      rewrite loadLeaf_composite by reflexivity.
      repeat split; assumption.
Qed.

End AgreementProperties.

(** ** Properties of targets without sharing *)

Section MemoryProperties.
Context `{tables : Unicode.CaseTables}.
Import Reflect.

Lemma Shared_LoadFromEnvironment_eq (env : gmap string string) (depth : nat)
    (mem : Shared.Memory) (pt : Shared.Place) (prefix : string) :
  Shared.LoadFromEnvironment env depth mem pt prefix
  = Shared.loadRecursive env depth mem pt prefix.
Proof.
  unfold Shared.LoadFromEnvironment.
  now destruct (Shared.loadRecursive env depth mem pt prefix) as [[mem' [err|]]|].
Qed.

(** On a target without sharing, [Shared.LoadFromEnvironment] returns,
    with the error of [LoadFromEnvironment] on the tree; the target then
    is, still without sharing, the tree that [LoadFromEnvironment] leaves;
    and no array of the memory has changed but the one that holds the
    target and the backing arrays of its slices. *)
Lemma LoadFromEnvironment_unshared (env : gmap string string) (depth : nat)
    (mem : Shared.Memory) (pt : Shared.Place) (target : Value) (owned : gset nat)
    (prefix : string) :
  Shared.UnsharedAt mem pt target owned ->
  Shared.height target < depth ->
  exists mem' : Shared.Memory,
    Shared.LoadFromEnvironment env depth mem pt prefix
    = Some (mem', (LoadFromEnvironment env target prefix).2)
    /\ Shared.UnsharedAt mem' pt (LoadFromEnvironment env target prefix).1 owned
    /\ forall other : nat,
        other ∉ owned -> other <> Shared.array pt -> mem' !! other = mem !! other.
Proof.
  intros (Hpt & mtarget & Hread & Hrep) Hdepth.
  rewrite Shared_LoadFromEnvironment_eq, LoadFromEnvironment_eq.
  destruct (loadRecursive_unshared env target depth Hdepth mem pt mtarget owned prefix
              Hread Hrep Hpt)
    as (mem' & mtarget' & Hrun & Hrep' & Hout).
  exists mem'. split; [exact Hrun|]. split.
  - split; [exact Hpt|]. exists mtarget'. split; [|exact Hrep'].
    rewrite (readAt_ext _ _ _ (Hout (Shared.array pt) Hpt)).
    now apply readAt_writeAt with (1 := Hread).
  - intros other Hother Hne. rewrite Hout by assumption. now apply writeAt_lookup_ne.
Qed.

(** X18.  On a target without sharing, [LoadFromEnvironment] in memory
    returns once [depth] allows for the calls nested in one another, as
    many as the target is deep; its error is that of [LoadFromEnvironment]
    on the tree that the target is, the target then is the tree that this
    one leaves, still without sharing, and no array of the memory has
    changed but the one that holds the target and the backing arrays of its
    slices. *)
Theorem unshared_target_loads_as_tree
    (env : gmap string string) (depth : nat) (mem : Shared.Memory) (pt : Shared.Place)
    (target : Value) (owned : gset nat) (prefix : string) :
  Shared.UnsharedAt mem pt target owned ->
  Shared.height target < depth ->
  exists mem' : Shared.Memory,
    Shared.LoadFromEnvironment env depth mem pt prefix
    = Some (mem', (LoadFromEnvironment env target prefix).2)
    /\ Shared.UnsharedAt mem' pt (LoadFromEnvironment env target prefix).1 owned
    /\ forall other : nat,
        other ∉ owned -> other <> Shared.array pt -> mem' !! other = mem !! other.
Proof. intros Hrep Hdepth. now apply LoadFromEnvironment_unshared. Qed.


Lemma SameShape_height (val : Value) :
  forall val' : Value, SameShape val val' -> Shared.height val = Shared.height val'.
Proof.
  induction val as [b|k n|s|fields IH|elems IH|elems IH|k] using Value_ind';
    intros val' Hshape;
    inversion Hshape as [| | |? fields' Hall|? elems' Hall|? elems' Hall|]; subst;
    try reflexivity; cbn [Shared.height]; f_equal.
  - clear Hshape. induction Hall as [|f f' rest rest' Hf _ IHrest]; [reflexivity|].
    inversion IH as [|? ? Hfield Hrest]; subst.
    inversion Hf as [fieldName field field' Hval|fieldName field]; subst;
      cbn [Shared.fieldsHeight fieldValue] in *.
    + now rewrite (Hfield field' Hval), (IHrest Hrest).
    + now rewrite (IHrest Hrest).
  - clear Hshape. induction Hall as [|elem elem' rest rest' Hval _ IHrest]; [reflexivity|].
    inversion IH as [|? ? Helem Hrest]; subst. cbn [Shared.elemsHeight].
    now rewrite (Helem elem' Hval), (IHrest Hrest).
  - clear Hshape. induction Hall as [|elem elem' rest rest' Hval _ IHrest]; [reflexivity|].
    inversion IH as [|? ? Helem Hrest]; subst. cbn [Shared.elemsHeight].
    now rewrite (Helem elem' Hval), (IHrest Hrest).
Qed.

(** X3.  On a target without sharing, whatever the environment holds and
    whether or not it fails, [LoadFromEnvironment] returns and leaves a
    target of the same shape: the same kinds at every node, the same
    fields with their names in the same order, the same number of elements
    in every array and slice, and whatever was below a field that cannot be
    set. *)
Theorem unshared_target_keeps_shape
    (env : gmap string string) (depth : nat) (mem : Shared.Memory) (pt : Shared.Place)
    (target : Value) (owned : gset nat) (prefix : string) :
  Shared.UnsharedAt mem pt target owned ->
  Shared.height target < depth ->
  exists (mem' : Shared.Memory) (target' : Value) (err : option Error),
    Shared.LoadFromEnvironment env depth mem pt prefix = Some (mem', err)
    /\ Shared.UnsharedAt mem' pt target' owned
    /\ SameShape target target'.
Proof.
  intros Hrep Hdepth.
  destruct (LoadFromEnvironment_unshared env depth mem pt _ owned prefix Hrep Hdepth)
    as (mem' & Hrun & Hrep' & Hout).
  exists mem', (LoadFromEnvironment env target prefix).1,
    (LoadFromEnvironment env target prefix).2.
  repeat split; try assumption || apply Hrep'.
  rewrite LoadFromEnvironment_eq. apply loadRecursive_SameShape.
Qed.

(** X11.  On a target without sharing, a field that cannot be set (an
    unexported field) is, with all that it reaches, the same after
    [LoadFromEnvironment] as before, whatever the environment holds and
    whether or not the call fails. *)
Theorem unshared_unsettable_field_untouched
    (env : gmap string string) (depth : nat) (mem : Shared.Memory) (pt : Shared.Place)
    (fields : list Field) (owned : gset nat) (prefix : string) (i : nat) (f : Field) :
  Shared.UnsharedAt mem pt (VStruct fields) owned ->
  Shared.height (VStruct fields) < depth ->
  fields !! i = Some f ->
  CanSet f = false ->
  exists (mem' : Shared.Memory) (fields' : list Field) (err : option Error),
    Shared.LoadFromEnvironment env depth mem pt prefix = Some (mem', err)
    /\ Shared.UnsharedAt mem' pt (VStruct fields') owned
    /\ fields' !! i = Some f.
Proof.
  intros Hrep Hdepth Hi Hf.
  destruct (LoadFromEnvironment_unshared env depth mem pt _ owned prefix Hrep Hdepth)
    as (mem' & Hrun & Hrep' & Hout).
  assert (Htree : exists fields' : list Field,
             (LoadFromEnvironment env (VStruct fields) prefix).1 = VStruct fields'
             /\ fields' !! i = Some f).
  { rewrite LoadFromEnvironment_eq, loadRecursive_eq. cbn [loadChildren].
    pose proof (loadFields_unsettable (loadRecursive env) prefix fields i f Hi Hf) as Hloop.
    destruct (loadFields _ _ _) as [fields' [err|]]; cbn [fst] in Hloop.
    - now exists fields'.
    - rewrite loadLeaf_composite by reflexivity. now exists fields'. }
  destruct Htree as (fields' & Heq & Hi').
  rewrite Heq in Hrep'.
  exists mem', fields', (LoadFromEnvironment env (VStruct fields) prefix).2.
  repeat split; assumption || apply Hrep'.
Qed.

(** X16.  On a target without sharing, loading from two environments one
    after the other is loading once from the second laid over the first:
    when [LoadFromEnvironment] succeeds on the target in [env1] and in
    [env2], it succeeds in the environment that takes a variable from
    [env2] when it is set there and from [env1] otherwise, and leaves the
    target that loading in [env1] and then in [env2] leaves. *)
Theorem unshared_loading_twice_is_loading_union
    (env1 env2 : gmap string string) (depth : nat) (mem : Shared.Memory)
    (pt : Shared.Place) (target : Value) (owned : gset nat) (prefix : string) :
  Shared.UnsharedAt mem pt target owned ->
  Shared.height target < depth ->
  (LoadFromEnvironment env1 target prefix).2 = None ->
  (LoadFromEnvironment env2 target prefix).2 = None ->
  exists mem1 mem2 mem3 : Shared.Memory,
    Shared.LoadFromEnvironment env1 depth mem pt prefix = Some (mem1, None)
    /\ Shared.LoadFromEnvironment env2 depth mem1 pt prefix = Some (mem2, None)
    /\ Shared.LoadFromEnvironment (env2 ∪ env1) depth mem pt prefix = Some (mem3, None)
    /\ Shared.UnsharedAt mem2 pt (LoadFromEnvironment (env2 ∪ env1) target prefix).1 owned
    /\ Shared.UnsharedAt mem3 pt (LoadFromEnvironment (env2 ∪ env1) target prefix).1 owned.
Proof.
  intros Hrep Hdepth Hok1 Hok2.
  destruct (LoadFromEnvironment_unshared env1 depth mem pt _ owned prefix Hrep Hdepth)
    as (mem1 & Hrun1 & Hrep1 & _).
  destruct (LoadFromEnvironment_unshared (env2 ∪ env1) depth mem pt _ owned prefix
              Hrep Hdepth)
    as (mem3 & Hrun3 & Hrep3 & _).
  assert (Hshape : SameShape target (LoadFromEnvironment env1 target prefix).1).
  { rewrite LoadFromEnvironment_eq. apply loadRecursive_SameShape. }
  assert (Hdepth1 : Shared.height (LoadFromEnvironment env1 target prefix).1 < depth).
  { now rewrite <- (SameShape_height _ _ Hshape). }
  destruct (LoadFromEnvironment_unshared env2 depth mem1 pt _ owned prefix Hrep1 Hdepth1)
    as (mem2 & Hrun2 & Hrep2 & _).
  assert (Hunion : LoadFromEnvironment (env2 ∪ env1) target prefix
                   = LoadFromEnvironment env2 (LoadFromEnvironment env1 target prefix).1
                       prefix).
  { rewrite !LoadFromEnvironment_eq in *. now apply loadRecursive_union. }
  assert (Hok12 : (LoadFromEnvironment env2 (LoadFromEnvironment env1 target prefix).1
                     prefix).2 = None).
  { rewrite !LoadFromEnvironment_eq in *.
    now rewrite <- (loadRecursive_defaults env2 _ _ prefix Hshape). }
  rewrite Hok1 in Hrun1. rewrite Hok12 in Hrun2. rewrite Hunion, Hok12 in Hrun3.
  rewrite <- Hunion in Hrep2.
  exists mem1, mem2, mem3. repeat split; assumption || apply Hrep2 || apply Hrep3.
Qed.

End MemoryProperties.

(** ** Targets without sharing, and one with *)

Section MemoryInstances.
Import Reflect.
Local Existing Instance Unicode.asciiTables.


(** [S_X=v]: both elements of the slice [S] are set in its backing
    array, the array [A] held in place stays. *)
Lemma unshared_target_loads_as_tree_witness :
  let env : gmap string string := {[ "S_X" := "v" ]} in
  let elem (x : string) := VStruct [mkField "X" true (VString x)] in
  let melem (x : string) := Shared.MStruct [Shared.mkMField "X" true (Shared.MString x)] in
  let target (x : string) :=
    VStruct [mkField "A" true (VArray [VInt KInt 1; VInt KInt 2]);
             mkField "S" true (VSlice [elem x; elem x])] in
  let mtarget :=
    Shared.MStruct [Shared.mkMField "A" true
                      (Shared.MArray [Shared.MInt KInt 1; Shared.MInt KInt 2]);
                    Shared.mkMField "S" true (Shared.MSlice 1 0 2)] in
  let mem (x : string) := [[mtarget]; [melem x; melem x]] in
  let pt := Shared.mkPlace 0 0 [] in
  Shared.UnsharedAt (mem "") pt (target "") {[ 1 ]}
  /\ Shared.height (target "") < 4
  /\ Shared.LoadFromEnvironment env 4 (mem "") pt "" = Some (mem "v", None)
  /\ LoadFromEnvironment env (target "") "" = (target "v", None)
  /\ exists mem' : Shared.Memory,
      Shared.LoadFromEnvironment env 4 (mem "") pt ""
      = Some (mem', (LoadFromEnvironment env (target "") "").2)
      /\ Shared.UnsharedAt mem' pt (LoadFromEnvironment env (target "") "").1 {[ 1 ]}
      /\ forall other : nat,
          other ∉ ({[ 1 ]} : gset nat) -> other <> Shared.array pt ->
          mem' !! other = mem "" !! other.
Proof.
  intros env elem melem target mtarget mem pt.
  assert (Hrep : Shared.UnsharedAt (mem "") pt (target "") {[ 1 ]}).
  { cbv [mtarget mem pt target elem melem]. unshared. }
  assert (Hdepth : Shared.height (target "") < 4) by (cbn; lia).
  split; [exact Hrep|]. split; [exact Hdepth|]. split; [vm_compute; reflexivity|].
  split; [vm_compute; reflexivity|].
  exact (unshared_target_loads_as_tree env 4 (mem "") pt (target "") {[ 1 ]} ""
           Hrep Hdepth).
Defined.


(** [BAR_X=new]: the element of [Bar] is set, the element of the
    unexported [hidden], in a backing array of its own, is as it was. *)
Lemma unshared_target_keeps_shape_witness :
  let env : gmap string string := {[ "BAR_X" := "new" ]} in
  let elem (x : string) := VStruct [mkField "X" true (VString x)] in
  let melem (x : string) := Shared.MStruct [Shared.mkMField "X" true (Shared.MString x)] in
  let target := VStruct [mkField "Bar" true (VSlice [elem "old"]);
                         mkField "hidden" false (VSlice [elem "old"])] in
  let mtarget :=
    Shared.MStruct [Shared.mkMField "Bar" true (Shared.MSlice 1 0 1);
                    Shared.mkMField "hidden" false (Shared.MSlice 2 0 1)] in
  let mem (bar hidden : string) := [[mtarget]; [melem bar]; [melem hidden]] in
  let pt := Shared.mkPlace 0 0 [] in
  Shared.UnsharedAt (mem "old" "old") pt target {[ 1; 2 ]}
  /\ Shared.height target < 4
  /\ Shared.LoadFromEnvironment env 4 (mem "old" "old") pt "" = Some (mem "new" "old", None)
  /\ exists (mem' : Shared.Memory) (target' : Value) (err : option Error),
      Shared.LoadFromEnvironment env 4 (mem "old" "old") pt "" = Some (mem', err)
      /\ Shared.UnsharedAt mem' pt target' {[ 1; 2 ]}
      /\ SameShape target target'.
Proof.
  intros env elem melem target mtarget mem pt.
  assert (Hrep : Shared.UnsharedAt (mem "old" "old") pt target {[ 1; 2 ]}).
  { cbv [mtarget mem pt target elem melem]. unshared. }
  assert (Hdepth : Shared.height target < 4) by (cbn; lia).
  split; [exact Hrep|]. split; [exact Hdepth|]. split; [vm_compute; reflexivity|].
  exact (unshared_target_keeps_shape env 4 (mem "old" "old") pt target {[ 1; 2 ]} ""
           Hrep Hdepth).
Defined.

(** [HIDDEN_X] is set too: field 1, [hidden], is after the call as before. *)
Lemma unshared_unsettable_field_untouched_witness :
  let env : gmap string string := {[ "BAR_X" := "new"; "HIDDEN_X" := "new" ]} in
  let elem (x : string) := VStruct [mkField "X" true (VString x)] in
  let melem (x : string) := Shared.MStruct [Shared.mkMField "X" true (Shared.MString x)] in
  let hidden := mkField "hidden" false (VSlice [elem "old"]) in
  let fields := [mkField "Bar" true (VSlice [elem "old"]); hidden] in
  let mtarget :=
    Shared.MStruct [Shared.mkMField "Bar" true (Shared.MSlice 1 0 1);
                    Shared.mkMField "hidden" false (Shared.MSlice 2 0 1)] in
  let mem (bar hidden : string) := [[mtarget]; [melem bar]; [melem hidden]] in
  let pt := Shared.mkPlace 0 0 [] in
  Shared.UnsharedAt (mem "old" "old") pt (VStruct fields) {[ 1; 2 ]}
  /\ Shared.height (VStruct fields) < 4
  /\ fields !! 1 = Some hidden
  /\ CanSet hidden = false
  /\ Shared.LoadFromEnvironment env 4 (mem "old" "old") pt "" = Some (mem "new" "old", None)
  /\ exists (mem' : Shared.Memory) (fields' : list Field) (err : option Error),
      Shared.LoadFromEnvironment env 4 (mem "old" "old") pt "" = Some (mem', err)
      /\ Shared.UnsharedAt mem' pt (VStruct fields') {[ 1; 2 ]}
      /\ fields' !! 1 = Some hidden.
Proof.
  intros env elem melem hidden fields mtarget mem pt.
  assert (Hrep : Shared.UnsharedAt (mem "old" "old") pt (VStruct fields) {[ 1; 2 ]}).
  { cbv [mtarget mem pt fields hidden elem melem]. unshared. }
  assert (Hdepth : Shared.height (VStruct fields) < 4) by (cbn; lia).
  split; [exact Hrep|]. split; [exact Hdepth|]. split; [reflexivity|].
  split; [reflexivity|]. split; [vm_compute; reflexivity|].
  exact (unshared_unsettable_field_untouched env 4 (mem "old" "old") pt fields {[ 1; 2 ]} ""
           1 hidden Hrep Hdepth eq_refl eq_refl).
Defined.

(** [env2] sets [B] again and leaves the elements of [A] to [env1]. *)
Lemma unshared_loading_twice_is_loading_union_witness :
  let env1 : gmap string string := <[ "A_X" := "x" ]> {[ "B" := "1" ]} in
  let env2 : gmap string string := {[ "B" := "2" ]} in
  let elem (x : string) := VStruct [mkField "X" true (VString x)] in
  let melem (x : string) := Shared.MStruct [Shared.mkMField "X" true (Shared.MString x)] in
  let target := VStruct [mkField "A" true (VSlice [elem ""]);
                         mkField "B" true (VInt KInt 0)] in
  let mtarget (b : Z) :=
    Shared.MStruct [Shared.mkMField "A" true (Shared.MSlice 1 0 1);
                    Shared.mkMField "B" true (Shared.MInt KInt b)] in
  let mem (b : Z) (x : string) := [[mtarget b]; [melem x]] in
  let pt := Shared.mkPlace 0 0 [] in
  Shared.UnsharedAt (mem 0%Z "") pt target {[ 1 ]}
  /\ Shared.height target < 4
  /\ (LoadFromEnvironment env1 target "").2 = None
  /\ (LoadFromEnvironment env2 target "").2 = None
  /\ Shared.LoadFromEnvironment env1 4 (mem 0%Z "") pt "" = Some (mem 1%Z "x", None)
  /\ Shared.LoadFromEnvironment env2 4 (mem 1%Z "x") pt "" = Some (mem 2%Z "x", None)
  /\ Shared.LoadFromEnvironment (env2 ∪ env1) 4 (mem 0%Z "") pt ""
     = Some (mem 2%Z "x", None)
  /\ exists mem1 mem2 mem3 : Shared.Memory,
      Shared.LoadFromEnvironment env1 4 (mem 0%Z "") pt "" = Some (mem1, None)
      /\ Shared.LoadFromEnvironment env2 4 mem1 pt "" = Some (mem2, None)
      /\ Shared.LoadFromEnvironment (env2 ∪ env1) 4 (mem 0%Z "") pt "" = Some (mem3, None)
      /\ Shared.UnsharedAt mem2 pt (LoadFromEnvironment (env2 ∪ env1) target "").1 {[ 1 ]}
      /\ Shared.UnsharedAt mem3 pt (LoadFromEnvironment (env2 ∪ env1) target "").1 {[ 1 ]}.
Proof.
  intros env1 env2 elem melem target mtarget mem pt.
  assert (Hrep : Shared.UnsharedAt (mem 0%Z "") pt target {[ 1 ]}).
  { cbv [mtarget mem pt target elem melem]. unshared. }
  assert (Hdepth : Shared.height target < 4) by (cbn; lia).
  split; [exact Hrep|]. split; [exact Hdepth|]. split; [reflexivity|].
  split; [reflexivity|]. split; [vm_compute; reflexivity|].
  split; [vm_compute; reflexivity|]. split; [vm_compute; reflexivity|].
  exact (unshared_loading_twice_is_loading_union env1 env2 4 (mem 0%Z "") pt target
           {[ 1 ]} "" Hrep Hdepth eq_refl eq_refl).
Defined.

End MemoryInstances.
